(** * FirmSwap: settlement engine and quote aggregator

    A shallow embedding of [contracts/src/FirmSwap.sol] (with
    [libraries/QuoteLib.sol], [libraries/OrderLib.sol], [DepositProxy.sol],
    [interfaces/IFirmSwap.sol]), of [Aggregator.getQuote] of
    [api/src/aggregator.ts] and of [solver/src/nonceManager.ts].

    Conventions.
    - [uintN] values are [N]; Solidity 0.8 checked arithmetic is written out
      ([checked_add], [checked_sub], [checked_mul] revert with [Panic]),
      explicit casts are written as [mod].
    - A Solidity [mapping] is a total function with default zero, updated
      pointwise with stdpp's [<[k:=v]>] on functions.
    - Every entry point is a function [Tx -> World -> Result World]; a
      [Revert] leaves no state behind, as on chain.
    - keccak256, ECDSA recovery and CREATE2 address derivation are kept
      symbolic in an environment record [Env].
    - ERC-20 tokens are ledgers (balances and allowances), optionally
      charging a fee on transfer; they never call back into the engine, so
      the [nonReentrant] guard is always open on entry and is left out.
      The token handed to [recoverFromProxy] and [deployAndRecover] is the
      caller's choice and bound by no quote: [AnyToken] gives these two
      entry points for an address without code and for a token that calls
      back into the engine while it transfers.
      Events are left out. *)

From Stdlib Require Import NArith ZArith Lia List Bool.
From Stdlib Require Strings.Byte.
From stdpp Require Import base decidable numbers functions relations list strings
  sorting.

Local Open Scope N_scope.

(** ** Machine integers *)

Definition address := N.
Definition bytes := list Byte.byte.

Definition MAX_UINT256 : N := 2 ^ 256 - 1.
Definition uint256 (x : N) : N := x mod 2 ^ 256.
Definition uint248 (x : N) : N := x mod 2 ^ 248.
Definition uint40 (x : N) : N := x mod 2 ^ 40.
Definition uint8 (x : N) : N := x mod 2 ^ 8.

(** ** Errors and the revert monad *)

Inductive Error :=
  (* custom errors of IFirmSwap *)
  | InvalidSignature | QuoteExpired | NonceAlreadyUsed | OrderAlreadyExists
  | OrderNotFound | OrderNotDeposited | OrderNotExpired | InsufficientDeposit
  | InsufficientBond | SolverNotRegistered | SolverAlreadyRegistered
  | NotSolver | UnstakeNotReady | NoPendingUnstake | BelowMinimumBond
  | BelowMinimumOrder | InvalidQuote | WrongChain | FillDeadlineBeforeDeposit
  | PendingUnstakeExists | NoExcessBalance
  (* reverts raised below the contract's own checks *)
  | Panic                  (* checked arithmetic overflow or underflow *)
  | ECDSAInvalidSignature  (* ECDSA.recover rejects the signature bytes *)
  | SafeERC20FailedOperation (* a token transfer failed *)
  | Permit2Rejected        (* Permit2 refused the permit *)
  | FailedDeployment       (* CREATE2 on an address that already has code *)
  | CallToNonContract.     (* high-level call to an address without code *)

Inductive Result (A : Type) :=
  | Ok (a : A)
  | Revert (e : Error).
Arguments Ok {A} a.
Arguments Revert {A} e.

Definition bind {A B} (m : Result A) (k : A -> Result B) : Result B :=
  match m with
  | Ok a => k a
  | Revert e => Revert e
  end.

Notation "'let!' x ':=' m 'in' k" := (bind m (fun x => k))
  (at level 10, x name, m at level 100, k at level 200).
Notation "'do!' m 'in' k" := (bind m (fun _ => k))
  (at level 10, m at level 100, k at level 200).

(** [if (c) revert e();] *)
Definition revertIf (c : bool) (e : Error) : Result unit :=
  if c then Revert e else Ok tt.

Definition checked_add (a b : N) : Result N :=
  if a + b <=? MAX_UINT256 then Ok (a + b) else Revert Panic.
Definition checked_sub (a b : N) : Result N :=
  if b <=? a then Ok (a - b) else Revert Panic.
Definition checked_mul (a b : N) : Result N :=
  if a * b <=? MAX_UINT256 then Ok (a * b) else Revert Panic.

(** ** QuoteLib *)

Module QuoteLib.

Inductive OrderType := EXACT_INPUT | EXACT_OUTPUT.

Record FirmSwapQuote := {
  solver : address;
  user : address;
  inputToken : address;
  inputAmount : N;
  outputToken : address;
  outputAmount : N;
  orderType : OrderType;
  outputChainId : N;
  depositDeadline : N;
  fillDeadline : N;
  nonce : N
}.

#[global] Instance OrderType_eq_dec : EqDecision OrderType.
Proof. solve_decision. Defined.
#[global] Instance FirmSwapQuote_eq_dec : EqDecision FirmSwapQuote.
Proof. solve_decision. Defined.

End QuoteLib.

Abbreviation FirmSwapQuote := QuoteLib.FirmSwapQuote.

(** ** IFirmSwap: order and solver records *)

Inductive OrderState := NONE | DEPOSITED | SETTLED | REFUNDED.

#[global] Instance OrderState_eq_dec : EqDecision OrderState.
Proof. solve_decision. Defined.

Record Order := {
  user : address;
  solver : address;
  inputToken : address;
  inputAmount : N;
  outputToken : address;
  outputAmount : N;
  outputChainId : N;
  fillDeadline : N;
  state : OrderState
}.

Record SolverInfo := {
  totalBond : N;
  reservedBond : N;
  unstakeAmount : N;
  unstakeTimestamp : N;
  registered : bool
}.

(** The zero value every mapping slot starts from. *)
Definition noOrder : Order :=
  {| user := 0; solver := 0; inputToken := 0; inputAmount := 0;
     outputToken := 0; outputAmount := 0; outputChainId := 0;
     fillDeadline := 0; state := NONE |}.
Definition noSolver : SolverInfo :=
  {| totalBond := 0; reservedBond := 0; unstakeAmount := 0;
     unstakeTimestamp := 0; registered := false |}.

(** ** Permit2 (ISignatureTransfer) *)

Record PermitTransferFrom := {
  permitted_token : address;
  permitted_amount : N;
  permit_nonce : N;
  permit_deadline : N
}.

(** ** ERC-20 ledgers *)

Record Ledger := {
  balanceOf : address -> address -> N;            (* token, holder *)
  allowance : address -> address -> address -> N; (* token, owner, spender *)
  feeBps : address -> N                           (* token: fee on transfer *)
}.

(** What the recipient is credited when [amount] is sent. *)
Definition credited (L : Ledger) (token : address) (amount : N) : N :=
  amount - amount * feeBps L token / 10000.

(** The ledger after [amount] of [token] has moved from [from] to [to]. *)
Definition transferred (token from to : address) (amount : N) (L : Ledger)
  : Ledger :=
  let b1 := <[from := balanceOf L token from - amount]> (balanceOf L token) in
  let b2 := <[to := b1 to + credited L token amount]> b1 in
  {| balanceOf := <[token := b2]> (balanceOf L);
     allowance := allowance L;
     feeBps := feeBps L |}.

Definition erc20_transfer (token from to : address) (amount : N) (L : Ledger)
  : Result Ledger :=
  if balanceOf L token from <? amount then Revert SafeERC20FailedOperation
  else Ok (transferred token from to amount L).

(** The ledger after [spender] has used [amount] of [owner]'s allowance. *)
Definition spent (token owner spender : address) (amount : N) (L : Ledger)
  : Ledger :=
  {| balanceOf := balanceOf L;
     allowance :=
       <[token := <[owner := <[spender := allowance L token owner spender
                                          - amount]>
                               (allowance L token owner)]>
                    (allowance L token)]> (allowance L);
     feeBps := feeBps L |}.

(** [transferFrom] as called by [spender]: an infinite allowance is not
    decreased, any other is checked and spent. *)
Definition erc20_transferFrom (token spender from to : address) (amount : N)
  (L : Ledger) : Result Ledger :=
  let a := allowance L token from spender in
  if a =? MAX_UINT256 then erc20_transfer token from to amount L
  else if a <? amount then Revert SafeERC20FailedOperation
  else erc20_transfer token from to amount (spent token from spender amount L).

(** ** Environment: deployment constants and symbolic cryptography *)

Record Env := {
  (** 32-byte words produced by keccak256, compared for equality only *)
  bytes32 : Type;
  bytes32_eq_dec : EqDecision bytes32;
  (** [address(this)], [BOND_TOKEN], [PERMIT2], [block.chainid] *)
  this : address;
  BOND_TOKEN : address;
  PERMIT2 : address;
  chainid : N;
  (** [OrderLib.computeOrderId(quote, sig)]
      = keccak256(abi.encode(QuoteLib.hash(quote), keccak256(sig))) *)
  computeOrderId : FirmSwapQuote -> bytes -> bytes32;
  (** [OrderLib.computeDepositAddress(address(this), orderId,
      DEPOSIT_PROXY_CREATION_CODE_HASH)], the CREATE2 address of the proxy *)
  computeDepositAddress : bytes32 -> address;
  (** [ECDSA.recover(_hashTypedDataV4(QuoteLib.hash(quote)), sig)];
      [None] when the library rejects the signature bytes *)
  recover : FirmSwapQuote -> bytes -> option address;
  (** Permit2's own checks of a permit (owner's signature, unused nonce)
      for a transfer requested by [spender] *)
  permit2_verify : PermitTransferFrom -> address -> address -> bytes -> bool
}.

#[global] Existing Instance bytes32_eq_dec.


(** ** Contract constants *)

Definition MIN_BOND : N := 1000 * 10 ^ 6.
Definition MIN_ORDER : N := 10 ^ 6.
Definition BOND_RESERVATION_BPS : N := 500.
Definition UNSTAKE_DELAY : N := 7 * 24 * 60 * 60.

(** ** Contract storage and the surrounding chain state *)

Record Storage (E : Env) := {
  orders : bytes32 E -> Order;
  solvers : address -> SolverInfo;
  nonceBitmap : address -> N -> N;
  excessBalances : address -> address -> N
}.
Arguments orders {E} _ _.
Arguments solvers {E} _ _.
Arguments nonceBitmap {E} _ _ _.
Arguments excessBalances {E} _ _ _.

Record World (E : Env) := {
  storage : Storage E;
  deployed : address -> bool;   (* deposit proxies created so far *)
  erc20 : Ledger
}.
Arguments storage {E} _.
Arguments deployed {E} _ _.
Arguments erc20 {E} _.

Arguments transferred : simpl never.
Arguments spent : simpl never.

(** Transaction context: [msg.sender] and [block.timestamp]. *)
Record Tx := {
  msg_sender : address;
  block_timestamp : N
}.

Section Engine.

Context {E : Env}.

(** *** Storage writes *)

Definition set_orders (f : bytes32 E -> Order) (st : Storage E) : Storage E :=
  {| orders := f; solvers := solvers st;
     nonceBitmap := nonceBitmap st; excessBalances := excessBalances st |}.
Definition set_solvers (f : address -> SolverInfo) (st : Storage E)
  : Storage E :=
  {| orders := orders st; solvers := f;
     nonceBitmap := nonceBitmap st; excessBalances := excessBalances st |}.
Definition set_nonceBitmap (f : address -> N -> N) (st : Storage E)
  : Storage E :=
  {| orders := orders st; solvers := solvers st;
     nonceBitmap := f; excessBalances := excessBalances st |}.
Definition set_excessBalances (f : address -> address -> N) (st : Storage E)
  : Storage E :=
  {| orders := orders st; solvers := solvers st;
     nonceBitmap := nonceBitmap st; excessBalances := f |}.

Definition set_storage (st : Storage E) (w : World E) : World E :=
  {| storage := st; deployed := deployed w; erc20 := erc20 w |}.
Definition set_deployed (d : address -> bool) (w : World E) : World E :=
  {| storage := storage w; deployed := d; erc20 := erc20 w |}.
Definition set_erc20 (L : Ledger) (w : World E) : World E :=
  {| storage := storage w; deployed := deployed w; erc20 := L |}.

(** [orders[id] = o] *)
Definition write_order (id : bytes32 E) (o : Order) (w : World E) : World E :=
  set_storage (set_orders (<[id := o]> (orders (storage w))) (storage w)) w.
(** [solvers[a] = info] *)
Definition write_solver (a : address) (info : SolverInfo) (w : World E)
  : World E :=
  set_storage (set_solvers (<[a := info]> (solvers (storage w))) (storage w)) w.

Definition with_state (s : OrderState) (o : Order) : Order :=
  {| user := user o; solver := solver o; inputToken := inputToken o;
     inputAmount := inputAmount o; outputToken := outputToken o;
     outputAmount := outputAmount o; outputChainId := outputChainId o;
     fillDeadline := fillDeadline o; state := s |}.
Definition with_inputAmount (a : N) (o : Order) : Order :=
  {| user := user o; solver := solver o; inputToken := inputToken o;
     inputAmount := a; outputToken := outputToken o;
     outputAmount := outputAmount o; outputChainId := outputChainId o;
     fillDeadline := fillDeadline o; state := state o |}.

(** The [Order] every path stores for a quote. *)
Definition orderOf (quote : FirmSwapQuote) (s : OrderState) : Order :=
  {| user := QuoteLib.user quote;
     solver := QuoteLib.solver quote;
     inputToken := QuoteLib.inputToken quote;
     inputAmount := QuoteLib.inputAmount quote;
     outputToken := QuoteLib.outputToken quote;
     outputAmount := QuoteLib.outputAmount quote;
     outputChainId := QuoteLib.outputChainId quote;
     fillDeadline := QuoteLib.fillDeadline quote;
     state := s |}.

(** *** Token calls made by the engine *)

Definition safeTransfer (token to : address) (amount : N) (w : World E)
  : Result (World E) :=
  let! L := erc20_transfer token (this E) to amount (erc20 w) in
  Ok (set_erc20 L w).

Definition safeTransferFrom (token from to : address) (amount : N)
  (w : World E) : Result (World E) :=
  let! L := erc20_transferFrom token (this E) from to amount (erc20 w) in
  Ok (set_erc20 L w).

(** [PERMIT2.permitTransferFrom(permit, {to, requestedAmount}, owner, sig)]
    as called by the engine at time [now]. *)
Definition permitTransferFrom (permit : PermitTransferFrom) (to : address)
  (requestedAmount : N) (owner : address) (signature : bytes) (now : N)
  (w : World E) : Result (World E) :=
  do! revertIf (permit_deadline permit <? now) Permit2Rejected in
  do! revertIf (permitted_amount permit <? requestedAmount) Permit2Rejected in
  do! revertIf (negb (permit2_verify E permit owner (this E) signature))
        Permit2Rejected in
  let! L := erc20_transferFrom (permitted_token permit) (PERMIT2 E) owner to
              requestedAmount (erc20 w) in
  Ok (set_erc20 L w).

(** [new DepositProxy{salt: orderId}(address(this))] *)
Definition deployProxy (orderId : bytes32 E) (w : World E)
  : Result (World E) :=
  let proxy := computeDepositAddress E orderId in
  if deployed w proxy then Revert FailedDeployment
  else Ok (set_deployed (<[proxy := true]> (deployed w)) w).

(** [DepositProxy(proxy).sweep(token, to)], called by the engine (so the
    proxy's [msg.sender == FIRM_SWAP] requirement holds). *)
Definition sweep (proxy token to : address) (w : World E)
  : Result (World E) :=
  if negb (deployed w proxy) then Revert CallToNonContract
  else
    let bal := balanceOf (erc20 w) token proxy in
    if 0 <? bal then
      let! L := erc20_transfer token proxy to bal (erc20 w) in
      Ok (set_erc20 L w)
    else Ok w.

(** *** Internal: nonce management *)

Definition _useNonce (solver : address) (nonce : N) (w : World E)
  : Result (World E) :=
  let wordPos := uint248 (N.shiftr nonce 8) in
  let bitPos := uint8 nonce in
  let bit := uint256 (N.shiftl 1 bitPos) in
  let word := nonceBitmap (storage w) solver wordPos in
  do! revertIf (negb (N.land word bit =? 0)) NonceAlreadyUsed in
  Ok (set_storage
        (set_nonceBitmap
           (<[solver := <[wordPos := N.lor word bit]>
                          (nonceBitmap (storage w) solver)]>
              (nonceBitmap (storage w)))
           (storage w)) w).

(** *** Internal: bond management *)

Definition with_totalBond (x : N) (i : SolverInfo) : SolverInfo :=
  {| totalBond := x; reservedBond := reservedBond i;
     unstakeAmount := unstakeAmount i;
     unstakeTimestamp := unstakeTimestamp i; registered := registered i |}.
Definition with_reservedBond (x : N) (i : SolverInfo) : SolverInfo :=
  {| totalBond := totalBond i; reservedBond := x;
     unstakeAmount := unstakeAmount i;
     unstakeTimestamp := unstakeTimestamp i; registered := registered i |}.
Definition with_unstake (amount timestamp : N) (i : SolverInfo) : SolverInfo :=
  {| totalBond := totalBond i; reservedBond := reservedBond i;
     unstakeAmount := amount;
     unstakeTimestamp := timestamp; registered := registered i |}.

(** [(outputAmount * BOND_RESERVATION_BPS) / 10_000] *)
Definition reservationOf (outputAmount : N) : Result N :=
  let! p := checked_mul outputAmount BOND_RESERVATION_BPS in
  Ok (p / 10000).

Definition _checkBond (solver : address) (outputAmount : N) (w : World E)
  : Result unit :=
  let! reservation := reservationOf outputAmount in
  let info := solvers (storage w) solver in
  let! avail := checked_sub (totalBond info) (reservedBond info) in
  revertIf (avail <? reservation) InsufficientBond.

Definition _reserveBond (solver : address) (outputAmount : N) (w : World E)
  : Result (World E) :=
  let! reservation := reservationOf outputAmount in
  let info := solvers (storage w) solver in
  let! avail := checked_sub (totalBond info) (reservedBond info) in
  do! revertIf (avail <? reservation) InsufficientBond in
  let! r := checked_add (reservedBond info) reservation in
  Ok (write_solver solver (with_reservedBond r info) w).

Definition _releaseBond (solver : address) (outputAmount : N) (w : World E)
  : Result (World E) :=
  let! reservation := reservationOf outputAmount in
  let info := solvers (storage w) solver in
  let! r := checked_sub (reservedBond info) reservation in
  Ok (write_solver solver (with_reservedBond r info) w).

Definition _slashBond (solver : address) (outputAmount : N) (w : World E)
  : Result (N * World E) :=
  let! reservation := reservationOf outputAmount in
  let info := solvers (storage w) solver in
  (* Slash the reserved amount (or whatever is available) *)
  let slashed :=
    if totalBond info <? reservation then totalBond info else reservation in
  let! t := checked_sub (totalBond info) slashed in
  let info := with_totalBond t info in
  (* Release the reservation *)
  let! info :=
    if reservation <=? reservedBond info then
      let! r := checked_sub (reservedBond info) reservation in
      Ok (with_reservedBond r info)
    else Ok (with_reservedBond 0 info) in
  Ok (slashed, write_solver solver info w).

(** *** Internal: quote validation *)

Definition _validateQuoteCore (quote : FirmSwapQuote)
  (solverSignature : bytes) (w : World E) : Result unit :=
  (* Check basic validity *)
  do! revertIf (QuoteLib.user quote =? 0) InvalidQuote in
  do! revertIf ((QuoteLib.inputAmount quote =? 0)
                || (QuoteLib.outputAmount quote =? 0)) InvalidQuote in
  do! revertIf (QuoteLib.outputAmount quote <? MIN_ORDER) BelowMinimumOrder in
  do! revertIf (QuoteLib.fillDeadline quote <=? QuoteLib.depositDeadline quote)
        FillDeadlineBeforeDeposit in
  (* Same-chain check *)
  do! revertIf (negb (QuoteLib.outputChainId quote =? chainid E)) WrongChain in
  (* Verify solver is registered *)
  do! revertIf (negb (registered (solvers (storage w) (QuoteLib.solver quote))))
        SolverNotRegistered in
  (* Verify nonce not used *)
  let wordPos := uint248 (N.shiftr (QuoteLib.nonce quote) 8) in
  let bitPos := uint8 (QuoteLib.nonce quote) in
  do! revertIf
        (negb (N.land (nonceBitmap (storage w) (QuoteLib.solver quote) wordPos)
                      (uint256 (N.shiftl 1 bitPos)) =? 0))
        NonceAlreadyUsed in
  (* Verify solver signature (EIP-712) *)
  match recover E quote solverSignature with
  | None => Revert ECDSAInvalidSignature
  | Some signer =>
      revertIf (negb (signer =? QuoteLib.solver quote)) InvalidSignature
  end.

Definition _validateQuote (quote : FirmSwapQuote) (solverSignature : bytes)
  (tx : Tx) (w : World E) : Result unit :=
  do! _validateQuoteCore quote solverSignature w in
  revertIf (QuoteLib.depositDeadline quote <? block_timestamp tx) QuoteExpired.

(** Validates the quote without checking the deposit deadline. *)
Definition _validateQuoteForRefund (quote : FirmSwapQuote)
  (solverSignature : bytes) (w : World E) : Result unit :=
  _validateQuoteCore quote solverSignature w.

(** [_validateQuoteMemory], used by [openFor]: no check of [quote.user]. *)
Definition _validateQuoteMemory (quote : FirmSwapQuote)
  (solverSignature : bytes) (tx : Tx) (w : World E) : Result unit :=
  do! revertIf ((QuoteLib.inputAmount quote =? 0)
                || (QuoteLib.outputAmount quote =? 0)) InvalidQuote in
  do! revertIf (QuoteLib.outputAmount quote <? MIN_ORDER) BelowMinimumOrder in
  do! revertIf (QuoteLib.fillDeadline quote <=? QuoteLib.depositDeadline quote)
        FillDeadlineBeforeDeposit in
  do! revertIf (negb (QuoteLib.outputChainId quote =? chainid E)) WrongChain in
  do! revertIf (negb (registered (solvers (storage w) (QuoteLib.solver quote))))
        SolverNotRegistered in
  do! revertIf (QuoteLib.depositDeadline quote <? block_timestamp tx)
        QuoteExpired in
  let wordPos := uint248 (N.shiftr (QuoteLib.nonce quote) 8) in
  let bitPos := uint8 (QuoteLib.nonce quote) in
  do! revertIf
        (negb (N.land (nonceBitmap (storage w) (QuoteLib.solver quote) wordPos)
                      (uint256 (N.shiftl 1 bitPos)) =? 0))
        NonceAlreadyUsed in
  match recover E quote solverSignature with
  | None => Revert ECDSAInvalidSignature
  | Some signer =>
      revertIf (negb (signer =? QuoteLib.solver quote)) InvalidSignature
  end.

Definition orderExists (orderId : bytes32 E) (w : World E) : bool :=
  negb (bool_decide (state (orders (storage w) orderId) = NONE)).

Definition _validateAndCreateOrder (quote : FirmSwapQuote)
  (solverSignature : bytes) (tx : Tx) (w : World E)
  : Result (bytes32 E * World E) :=
  do! _validateQuote quote solverSignature tx w in
  let orderId := computeOrderId E quote solverSignature in
  do! revertIf (orderExists orderId w) OrderAlreadyExists in
  (* Consume nonce *)
  let! w := _useNonce (QuoteLib.solver quote) (QuoteLib.nonce quote) w in
  (* Reserve solver's bond *)
  let! w := _reserveBond (QuoteLib.solver quote) (QuoteLib.outputAmount quote) w in
  (* Store order *)
  Ok (orderId, write_order orderId (orderOf quote DEPOSITED) w).

(** *** Contract deposit *)

Definition _depositInternal (depositor : address) (quote : FirmSwapQuote)
  (solverSignature : bytes) (tx : Tx) (w : World E) : Result (World E) :=
  let! r := _validateAndCreateOrder quote solverSignature tx w in
  let (orderId, w) := r in
  (* Pull input tokens from depositor (balance-difference) *)
  let balBefore := balanceOf (erc20 w) (QuoteLib.inputToken quote) (this E) in
  let! w := safeTransferFrom (QuoteLib.inputToken quote) depositor (this E)
              (QuoteLib.inputAmount quote) w in
  let! actualReceived :=
    checked_sub (balanceOf (erc20 w) (QuoteLib.inputToken quote) (this E))
                balBefore in
  (* Store actual received amount *)
  Ok (write_order orderId
        (with_inputAmount actualReceived (orders (storage w) orderId)) w).

Definition deposit (quote : FirmSwapQuote) (solverSignature : bytes)
  (tx : Tx) (w : World E) : Result (World E) :=
  _depositInternal (msg_sender tx) quote solverSignature tx w.

Definition depositWithPermit2 (quote : FirmSwapQuote)
  (solverSignature : bytes) (permit : PermitTransferFrom)
  (permitSignature : bytes) (tx : Tx) (w : World E) : Result (World E) :=
  let! r := _validateAndCreateOrder quote solverSignature tx w in
  let (orderId, w) := r in
  (* Pull input tokens via Permit2 *)
  permitTransferFrom permit (this E) (QuoteLib.inputAmount quote)
    (msg_sender tx) permitSignature (block_timestamp tx) w.

(** [openFor]: the decoded quote goes through [_depositInternalMemory]. *)
Definition openFor (quote : FirmSwapQuote) (solverSignature : bytes)
  (tx : Tx) (w : World E) : Result (World E) :=
  do! _validateQuoteMemory quote solverSignature tx w in
  let orderId := computeOrderId E quote solverSignature in
  do! revertIf (orderExists orderId w) OrderAlreadyExists in
  let! w := _useNonce (QuoteLib.solver quote) (QuoteLib.nonce quote) w in
  let! w := _reserveBond (QuoteLib.solver quote) (QuoteLib.outputAmount quote) w in
  let w := write_order orderId (orderOf quote DEPOSITED) w in
  let balBefore := balanceOf (erc20 w) (QuoteLib.inputToken quote) (this E) in
  let! w := safeTransferFrom (QuoteLib.inputToken quote) (msg_sender tx)
              (this E) (QuoteLib.inputAmount quote) w in
  let! actualReceived :=
    checked_sub (balanceOf (erc20 w) (QuoteLib.inputToken quote) (this E))
                balBefore in
  Ok (write_order orderId
        (with_inputAmount actualReceived (orders (storage w) orderId)) w).

Definition fill (orderId : bytes32 E) (tx : Tx) (w : World E)
  : Result (World E) :=
  let order := orders (storage w) orderId in
  do! revertIf (negb (bool_decide (state order = DEPOSITED)))
        OrderNotDeposited in
  do! revertIf (negb (solver order =? msg_sender tx)) NotSolver in
  do! revertIf (fillDeadline order <? block_timestamp tx) QuoteExpired in
  (* Mark settled before external calls *)
  let w := write_order orderId (with_state SETTLED order) w in
  (* Release bond reservation *)
  let! w := _releaseBond (solver order) (outputAmount order) w in
  (* Pull output tokens from solver, send to user *)
  let! w := safeTransferFrom (outputToken order) (msg_sender tx) (user order)
              (outputAmount order) w in
  (* Send input tokens to solver *)
  safeTransfer (inputToken order) (solver order) (inputAmount order) w.

(** *** Address deposit *)

(** Steps 2 to 9 of [settle] and [settleWithTolerance], which differ only
    in the amount the deposit is checked against and the solver is paid:
    [quote.inputAmount] or [acceptedInputAmount]. *)
Definition settleFor (accepted : N) (quote : FirmSwapQuote)
  (solverSignature : bytes) (tx : Tx) (w : World E) : Result (World E) :=
  (* 2. Compute order ID and deposit address *)
  let orderId := computeOrderId E quote solverSignature in
  do! revertIf (orderExists orderId w) OrderAlreadyExists in
  let depositAddr := computeDepositAddress E orderId in
  (* 3. Check tokens at deposit address *)
  let depositBalance :=
    balanceOf (erc20 w) (QuoteLib.inputToken quote) depositAddr in
  do! revertIf (depositBalance <? accepted) InsufficientDeposit in
  (* 4. Consume nonce *)
  let! w := _useNonce (QuoteLib.solver quote) (QuoteLib.nonce quote) w in
  (* 5. Verify solver has sufficient bond *)
  do! _checkBond (QuoteLib.solver quote) (QuoteLib.outputAmount quote) w in
  (* 6. Store order as SETTLED *)
  let w := write_order orderId (orderOf quote SETTLED) w in
  (* 7. Deploy DepositProxy and sweep input tokens to FirmSwap *)
  let balBefore := balanceOf (erc20 w) (QuoteLib.inputToken quote) (this E) in
  let! w := deployProxy orderId w in
  let! w := sweep depositAddr (QuoteLib.inputToken quote) (this E) w in
  let! actualReceived :=
    checked_sub (balanceOf (erc20 w) (QuoteLib.inputToken quote) (this E))
                balBefore in
  (* 8. Pull output tokens from solver, send to user *)
  let! w := safeTransferFrom (QuoteLib.outputToken quote) (msg_sender tx)
              (QuoteLib.user quote) (QuoteLib.outputAmount quote) w in
  (* 9. Send only the accepted amount to solver; store excess for user *)
  let toSolver :=
    if accepted <? actualReceived then accepted else actualReceived in
  let! excess := checked_sub actualReceived toSolver in
  let! w :=
    if 0 <? excess then
      let! x := checked_add
                  (excessBalances (storage w) (QuoteLib.user quote)
                     (QuoteLib.inputToken quote)) excess in
      Ok (set_storage
            (set_excessBalances
               (<[QuoteLib.user quote :=
                    <[QuoteLib.inputToken quote := x]>
                      (excessBalances (storage w) (QuoteLib.user quote))]>
                  (excessBalances (storage w)))
               (storage w)) w)
    else Ok w in
  safeTransfer (QuoteLib.inputToken quote) (QuoteLib.solver quote) toSolver w.

Definition settle (quote : FirmSwapQuote) (solverSignature : bytes)
  (tx : Tx) (w : World E) : Result (World E) :=
  (* 1. Validate quote + signature *)
  do! _validateQuote quote solverSignature tx w in
  settleFor (QuoteLib.inputAmount quote) quote solverSignature tx w.

Definition settleWithTolerance (quote : FirmSwapQuote)
  (solverSignature : bytes) (acceptedInputAmount : N) (tx : Tx) (w : World E)
  : Result (World E) :=
  (* Validate tolerance bounds *)
  do! revertIf (QuoteLib.inputAmount quote <? acceptedInputAmount)
        InvalidQuote in
  do! revertIf (acceptedInputAmount =? 0) InvalidQuote in
  do! _validateQuote quote solverSignature tx w in
  settleFor acceptedInputAmount quote solverSignature tx w.

(** *** Refund *)

Definition refund (orderId : bytes32 E) (tx : Tx) (w : World E)
  : Result (World E) :=
  let order := orders (storage w) orderId in
  do! revertIf (negb (bool_decide (state order = DEPOSITED)))
        OrderNotDeposited in
  do! revertIf (block_timestamp tx <=? fillDeadline order) OrderNotExpired in
  (* Slash bond *)
  let! r := _slashBond (solver order) (outputAmount order) w in
  let (bondSlash, w) := r in
  (* Mark refunded *)
  let w := write_order orderId (with_state REFUNDED order) w in
  (* Return input tokens to user *)
  let! w := safeTransfer (inputToken order) (user order) (inputAmount order) w in
  (* Send slashed bond to user as compensation *)
  if 0 <? bondSlash then safeTransfer (BOND_TOKEN E) (user order) bondSlash w
  else Ok w.

Definition refundAddressDeposit (quote : FirmSwapQuote)
  (solverSignature : bytes) (tx : Tx) (w : World E) : Result (World E) :=
  (* Validate the quote is legitimate (skip deposit deadline) *)
  do! _validateQuoteForRefund quote solverSignature w in
  let orderId := computeOrderId E quote solverSignature in
  (* Must not have already been settled/refunded *)
  do! revertIf (orderExists orderId w) OrderAlreadyExists in
  (* Must be past fill deadline *)
  do! revertIf (block_timestamp tx <=? QuoteLib.fillDeadline quote)
        OrderNotExpired in
  let depositAddr := computeDepositAddress E orderId in
  (* Check there are tokens to refund *)
  let depositBalance :=
    balanceOf (erc20 w) (QuoteLib.inputToken quote) depositAddr in
  do! revertIf (depositBalance =? 0) InsufficientDeposit in
  (* Consume nonce to prevent replay *)
  let! w := _useNonce (QuoteLib.solver quote) (QuoteLib.nonce quote) w in
  (* Only slash bond if user deposited the full quoted amount *)
  let fullDeposit := QuoteLib.inputAmount quote <=? depositBalance in
  let! r :=
    if fullDeposit
    then _slashBond (QuoteLib.solver quote) (QuoteLib.outputAmount quote) w
    else Ok (0, w) in
  let (bondSlash, w) := r in
  (* Store as refunded *)
  let w := write_order orderId (orderOf quote REFUNDED) w in
  (* Deploy proxy and sweep tokens to contract *)
  let balBefore := balanceOf (erc20 w) (QuoteLib.inputToken quote) (this E) in
  let! w := deployProxy orderId w in
  let! w := sweep depositAddr (QuoteLib.inputToken quote) (this E) w in
  let! actualReceived :=
    checked_sub (balanceOf (erc20 w) (QuoteLib.inputToken quote) (this E))
                balBefore in
  (* Send swept tokens to user *)
  let! w := safeTransfer (QuoteLib.inputToken quote) (QuoteLib.user quote)
              actualReceived w in
  (* Send slashed bond to user *)
  if 0 <? bondSlash
  then safeTransfer (BOND_TOKEN E) (QuoteLib.user quote) bondSlash w
  else Ok w.

(** *** Recovery *)

Definition recoverFromProxy (quote : FirmSwapQuote) (solverSignature : bytes)
  (token : address) (tx : Tx) (w : World E) : Result (World E) :=
  let orderId := computeOrderId E quote solverSignature in
  (* Only SETTLED or REFUNDED: proxy must be deployed *)
  let st := state (orders (storage w) orderId) in
  do! revertIf (negb (bool_decide (st = SETTLED))
                && negb (bool_decide (st = REFUNDED))) OrderNotFound in
  let depositAddr := computeDepositAddress E orderId in
  (* Sweep any token from the deployed proxy to the user *)
  sweep depositAddr token (QuoteLib.user quote) w.

Definition deployAndRecover (quote : FirmSwapQuote) (solverSignature : bytes)
  (token : address) (tx : Tx) (w : World E) : Result (World E) :=
  (* Not for the quoted input token: use refundAddressDeposit instead *)
  do! revertIf (token =? QuoteLib.inputToken quote) InvalidQuote in
  do! _validateQuoteForRefund quote solverSignature w in
  let orderId := computeOrderId E quote solverSignature in
  (* Order must NOT already exist *)
  do! revertIf (orderExists orderId w) OrderAlreadyExists in
  (* Must be past fill deadline *)
  do! revertIf (block_timestamp tx <=? QuoteLib.fillDeadline quote)
        OrderNotExpired in
  (* Consume nonce *)
  let! w := _useNonce (QuoteLib.solver quote) (QuoteLib.nonce quote) w in
  (* Store order as REFUNDED *)
  let w := write_order orderId (orderOf quote REFUNDED) w in
  (* Deploy proxy and sweep the requested token to the user *)
  let balBefore := balanceOf (erc20 w) token (this E) in
  let! w := deployProxy orderId w in
  let! w := sweep (computeDepositAddress E orderId) token (this E) w in
  let! actualReceived :=
    checked_sub (balanceOf (erc20 w) token (this E)) balBefore in
  if 0 <? actualReceived
  then safeTransfer token (QuoteLib.user quote) actualReceived w
  else Ok w.

Definition withdrawExcess (token : address) (tx : Tx) (w : World E)
  : Result (World E) :=
  let amount := excessBalances (storage w) (msg_sender tx) token in
  do! revertIf (amount =? 0) NoExcessBalance in
  let w :=
    set_storage
      (set_excessBalances
         (<[msg_sender tx :=
              <[token := 0]> (excessBalances (storage w) (msg_sender tx))]>
            (excessBalances (storage w)))
         (storage w)) w in
  safeTransfer token (msg_sender tx) amount w.

(** *** Solver management *)

Definition registerSolver (bondAmount : N) (tx : Tx) (w : World E)
  : Result (World E) :=
  do! revertIf (registered (solvers (storage w) (msg_sender tx)))
        SolverAlreadyRegistered in
  do! revertIf (bondAmount <? MIN_BOND) BelowMinimumBond in
  let w :=
    write_solver (msg_sender tx)
      {| totalBond := bondAmount; reservedBond := 0; unstakeAmount := 0;
         unstakeTimestamp := 0; registered := true |} w in
  safeTransferFrom (BOND_TOKEN E) (msg_sender tx) (this E) bondAmount w.

Definition addBond (amount : N) (tx : Tx) (w : World E) : Result (World E) :=
  let solver := solvers (storage w) (msg_sender tx) in
  do! revertIf (negb (registered solver)) SolverNotRegistered in
  let! t := checked_add (totalBond solver) amount in
  let w := write_solver (msg_sender tx) (with_totalBond t solver) w in
  safeTransferFrom (BOND_TOKEN E) (msg_sender tx) (this E) amount w.

Definition requestUnstake (amount : N) (tx : Tx) (w : World E)
  : Result (World E) :=
  let solver := solvers (storage w) (msg_sender tx) in
  do! revertIf (negb (registered solver)) SolverNotRegistered in
  do! revertIf (0 <? unstakeAmount solver) PendingUnstakeExists in
  let! avail := checked_sub (totalBond solver) (reservedBond solver) in
  do! revertIf (avail <? amount) InsufficientBond in
  let! rest := checked_sub (totalBond solver) amount in
  do! revertIf (rest <? MIN_BOND) BelowMinimumBond in
  (* uint40(block.timestamp) + UNSTAKE_DELAY, checked in uint40 *)
  let unlock := uint40 (block_timestamp tx) + UNSTAKE_DELAY in
  do! revertIf (2 ^ 40 - 1 <? unlock) Panic in
  Ok (write_solver (msg_sender tx) (with_unstake amount unlock solver) w).

Definition cancelUnstake (tx : Tx) (w : World E) : Result (World E) :=
  let solver := solvers (storage w) (msg_sender tx) in
  do! revertIf (unstakeAmount solver =? 0) NoPendingUnstake in
  Ok (write_solver (msg_sender tx) (with_unstake 0 0 solver) w).

Definition executeUnstake (tx : Tx) (w : World E) : Result (World E) :=
  let solver := solvers (storage w) (msg_sender tx) in
  do! revertIf (unstakeAmount solver =? 0) NoPendingUnstake in
  do! revertIf (block_timestamp tx <? unstakeTimestamp solver)
        UnstakeNotReady in
  let amount := unstakeAmount solver in
  let! t := checked_sub (totalBond solver) amount in
  let w :=
    write_solver (msg_sender tx) (with_unstake 0 0 (with_totalBond t solver))
      w in
  safeTransfer (BOND_TOKEN E) (msg_sender tx) amount w.

Definition cancelNonce (nonce : N) (tx : Tx) (w : World E)
  : Result (World E) :=
  _useNonce (msg_sender tx) nonce w.

(** [nonceBitmap[msg.sender][wordPos] |= mask] *)
Definition cancelNonces (wordPos mask : N) (tx : Tx) (w : World E)
  : Result (World E) :=
  let word := nonceBitmap (storage w) (msg_sender tx) wordPos in
  Ok (set_storage
        (set_nonceBitmap
           (<[msg_sender tx := <[wordPos := N.lor word mask]>
                                 (nonceBitmap (storage w) (msg_sender tx))]>
              (nonceBitmap (storage w)))
           (storage w)) w).

(** *** Views *)

Definition availableBond (solver : address) (w : World E) : Result N :=
  let info := solvers (storage w) solver in
  checked_sub (totalBond info) (reservedBond info).

Definition isNonceUsed (solver : address) (nonce : N) (w : World E) : bool :=
  let wordPos := uint248 (N.shiftr nonce 8) in
  let bitPos := uint8 nonce in
  negb (N.land (nonceBitmap (storage w) solver wordPos)
               (uint256 (N.shiftl 1 bitPos)) =? 0).

(** *** Transactions and traces *)

Inductive Call :=
  | Deposit (quote : FirmSwapQuote) (solverSignature : bytes)
  | DepositWithPermit2 (quote : FirmSwapQuote) (solverSignature : bytes)
      (permit : PermitTransferFrom) (permitSignature : bytes)
  | OpenFor (quote : FirmSwapQuote) (solverSignature : bytes)
  | Fill (orderId : bytes32 E)
  | Settle (quote : FirmSwapQuote) (solverSignature : bytes)
  | SettleWithTolerance (quote : FirmSwapQuote) (solverSignature : bytes)
      (acceptedInputAmount : N)
  | Refund (orderId : bytes32 E)
  | RefundAddressDeposit (quote : FirmSwapQuote) (solverSignature : bytes)
  | RecoverFromProxy (quote : FirmSwapQuote) (solverSignature : bytes)
      (token : address)
  | DeployAndRecover (quote : FirmSwapQuote) (solverSignature : bytes)
      (token : address)
  | WithdrawExcess (token : address)
  | RegisterSolver (bondAmount : N)
  | AddBond (amount : N)
  | RequestUnstake (amount : N)
  | CancelUnstake
  | ExecuteUnstake
  | CancelNonce (nonce : N)
  | CancelNonces (wordPos mask : N).

Definition exec (c : Call) (tx : Tx) (w : World E) : Result (World E) :=
  match c with
  | Deposit q sig => deposit q sig tx w
  | DepositWithPermit2 q sig permit psig =>
      depositWithPermit2 q sig permit psig tx w
  | OpenFor q sig => openFor q sig tx w
  | Fill id => fill id tx w
  | Settle q sig => settle q sig tx w
  | SettleWithTolerance q sig a => settleWithTolerance q sig a tx w
  | Refund id => refund id tx w
  | RefundAddressDeposit q sig => refundAddressDeposit q sig tx w
  | RecoverFromProxy q sig token => recoverFromProxy q sig token tx w
  | DeployAndRecover q sig token => deployAndRecover q sig token tx w
  | WithdrawExcess token => withdrawExcess token tx w
  | RegisterSolver b => registerSolver b tx w
  | AddBond a => addBond a tx w
  | RequestUnstake a => requestUnstake a tx w
  | CancelUnstake => cancelUnstake tx w
  | ExecuteUnstake => executeUnstake tx w
  | CancelNonce n => cancelNonce n tx w
  | CancelNonces wp m => cancelNonces wp m tx w
  end.

(** A trace of successful transactions, in block order. *)
Fixpoint run (trace : list (Tx * Call)) (w : World E) : Result (World E) :=
  match trace with
  | [] => Ok w
  | (tx, c) :: rest => let! w := exec c tx w in run rest w
  end.

(** Whether every transaction of a trace succeeds, and the state the trace
    then leads to ([w] itself otherwise). *)
Definition succeeds (trace : list (Tx * Call)) (w : World E) : bool :=
  match run trace w with
  | Ok _ => true
  | Revert _ => false
  end.
Definition outcome (trace : list (Tx * Call)) (w : World E) : World E :=
  match run trace w with
  | Ok w' => w'
  | Revert _ => w
  end.

(** The engine right after deployment, next to any token ledger. *)
Definition genesis (L : Ledger) : World E :=
  {| storage := {| orders := fun _ => noOrder; solvers := fun _ => noSolver;
                   nonceBitmap := fun _ _ => 0;
                   excessBalances := fun _ _ => 0 |};
     deployed := fun _ => false;
     erc20 := L |}.

(** One move of the chain: a successful transaction on the engine, or any
    change of the token ledgers made outside the engine. *)
Inductive step : World E -> World E -> Prop :=
  | step_exec w tx c w' : exec c tx w = Ok w' -> step w w'
  | step_ledger w L : step w (set_erc20 L w).

(** [w'] is a later state of [w]. *)
Definition later (w w' : World E) : Prop := rtc step w w'.

(** Reachable chain states, from the engine's deployment. *)
Definition reachable (w : World E) : Prop := exists L, later (genesis L) w.

(** *** Vocabulary of the properties *)

(** The solver record [_slashBond] leaves behind. *)
Definition slashedInfo (outputAmount : N) (info : SolverInfo) : SolverInfo :=
  let reservation := outputAmount * BOND_RESERVATION_BPS / 10000 in
  with_reservedBond (reservedBond info - reservation)
    (with_totalBond (totalBond info - N.min reservation (totalBond info)) info).

(** [reservedBond <= totalBond] for every solver. *)
Definition bond_invariant (w : World E) : Prop :=
  forall solver,
    reservedBond (solvers (storage w) solver)
    <= totalBond (solvers (storage w) solver).


(** Every bit set in the bitmap [b] is set in [b']. *)
Definition bits_kept (b b' : address -> N -> N) : Prop :=
  forall solver wordPos i,
    N.testbit (b solver wordPos) i = true ->
    N.testbit (b' solver wordPos) i = true.

(** How a stored order may change: an empty slot in any way, a DEPOSITED
    order in its state only, a SETTLED or REFUNDED order not at all. *)
Definition order_kept (o o' : Order) : Prop :=
  match state o with
  | NONE => True
  | DEPOSITED => exists s, s <> NONE /\ o' = with_state s o
  | SETTLED | REFUNDED => o' = o
  end.

(** What every validation establishes about a quote. *)
Definition validated (quote : FirmSwapQuote) (sig : bytes) (w : World E)
  : Prop :=
  recover E quote sig = Some (QuoteLib.solver quote)
  /\ MIN_ORDER <= QuoteLib.outputAmount quote
  /\ QuoteLib.depositDeadline quote < QuoteLib.fillDeadline quote
  /\ QuoteLib.outputChainId quote = chainid E
  /\ registered (solvers (storage w) (QuoteLib.solver quote)) = true.

(** [o], stored under [oid], was made from a quote that its solver signed
    and that passed validation. *)
Definition order_of_signed_quote (oid : bytes32 E) (o : Order) : Prop :=
  exists quote sig,
    oid = computeOrderId E quote sig
    /\ recover E quote sig = Some (QuoteLib.solver quote)
    /\ o = with_inputAmount (inputAmount o) (orderOf quote (state o))
    /\ MIN_ORDER <= QuoteLib.outputAmount quote
    /\ QuoteLib.depositDeadline quote < QuoteLib.fillDeadline quote
    /\ QuoteLib.outputChainId quote = chainid E.

(** Every stored order comes from a signed quote of a registered solver. *)
Definition orders_signed (w : World E) : Prop :=
  forall oid,
    state (orders (storage w) oid) <> NONE ->
    order_of_signed_quote oid (orders (storage w) oid)
    /\ registered (solvers (storage w) (solver (orders (storage w) oid)))
       = true.

(** The quote an entry point consumes, if it consumes one. *)
Definition quoteOf (c : Call) : option FirmSwapQuote :=
  match c with
  | Deposit q _ | DepositWithPermit2 q _ _ _ | OpenFor q _ | Settle q _
  | SettleWithTolerance q _ _ | RefundAddressDeposit q _
  | DeployAndRecover q _ _ => Some q
  | _ => None
  end.

End Engine.

(** ** Recovery with a token of the caller's choice

    The token handed to [recoverFromProxy] and [deployAndRecover] is chosen
    by the caller and is named by no signed quote, so it need not be one of
    the ledgers above. Its address may hold no code: a call to it then
    reverts. It may hold a contract that, while its [transfer] runs, calls
    into the engine. The guard of [nonReentrant] is held at that time, so
    the entry points that carry the modifier revert with
    ReentrancyGuardReentrantCall; [registerSolver], [addBond],
    [requestUnstake], [cancelUnstake], [executeUnstake], [cancelNonce] and
    [cancelNonces] carry none and run, with the calling contract as
    [msg.sender]. [balanceOf] is a view, called with STATICCALL, and changes
    nothing. Balances are still those of the ledger. *)

Module AnyToken.

Section Token.

Context {E : Env}.

(** What the contract at a token's address does when its [transfer] is
    called in the chain state [w], besides moving the balance. *)
Record TokenCode := {
  (** the calls it makes into the engine, each with its [msg.sender]: the
      token itself or a contract the token calls *)
  reenters : World E -> list (address * Call (E := E));
  (** whether it then makes the transfer fail, by a revert or by returning
      false *)
  fails : World E -> bool
}.

(** A token that only moves balances. *)
Definition plain : TokenCode :=
  {| reenters := fun _ => []; fails := fun _ => false |}.

(** The entry points declared [nonReentrant]. *)
Definition nonReentrant (c : Call (E := E)) : bool :=
  match c with
  | RegisterSolver _ | AddBond _ | RequestUnstake _ | CancelUnstake
  | ExecuteUnstake | CancelNonce _ | CancelNonces _ _ => false
  | _ => true
  end.

(** One call into the engine made at block time [now] while the guard is
    held. A call that reverts leaves no state, and its caller goes on. *)
Definition reenter (now : N) (w : World E) (call : address * Call)
  : World E :=
  if nonReentrant call.2 then w
  else match exec call.2
               {| msg_sender := call.1; block_timestamp := now |} w with
       | Ok w' => w'
       | Revert _ => w
       end.



(** The code at every address: [None] where there is none. *)
Context (tokens : address -> option TokenCode).

(** [IERC20(token).balanceOf(holder)] *)
Definition balanceOfCall (token holder : address) (w : World E) : Result N :=
  match tokens token with
  | None => Revert CallToNonContract
  | Some _ => Ok (balanceOf (erc20 w) token holder)
  end.

(** [IERC20(token).safeTransfer(to, amount)] called by [from] *)
Definition safeTransfer (token from to : address) (amount now : N)
  (w : World E) : Result (World E) :=
  match tokens token with
  | None => Revert CallToNonContract
  | Some code =>
      let! L := erc20_transfer token from to amount (erc20 w) in
      let w' := fold_left (reenter now) (reenters code w) (set_erc20 L w) in
      if fails code w then Revert SafeERC20FailedOperation else Ok w'
  end.

(** [DepositProxy(proxy).sweep(token, to)], called by the engine. *)
Definition sweep (proxy token to : address) (now : N) (w : World E)
  : Result (World E) :=
  if negb (deployed w proxy) then Revert CallToNonContract
  else
    let! bal := balanceOfCall token proxy w in
    if 0 <? bal then safeTransfer token proxy to bal now w
    else Ok w.

Definition recoverFromProxy (quote : FirmSwapQuote) (solverSignature : bytes)
  (token : address) (tx : Tx) (w : World E) : Result (World E) :=
  let orderId := computeOrderId E quote solverSignature in
  (* Only SETTLED or REFUNDED: proxy must be deployed *)
  let st := state (orders (storage w) orderId) in
  do! revertIf (negb (bool_decide (st = SETTLED))
                && negb (bool_decide (st = REFUNDED))) OrderNotFound in
  let depositAddr := computeDepositAddress E orderId in
  (* Sweep any token from the deployed proxy to the user *)
  sweep depositAddr token (QuoteLib.user quote) (block_timestamp tx) w.

Definition deployAndRecover (quote : FirmSwapQuote) (solverSignature : bytes)
  (token : address) (tx : Tx) (w : World E) : Result (World E) :=
  (* Not for the quoted input token: use refundAddressDeposit instead *)
  do! revertIf (token =? QuoteLib.inputToken quote) InvalidQuote in
  do! _validateQuoteForRefund quote solverSignature w in
  let orderId := computeOrderId E quote solverSignature in
  (* Order must NOT already exist *)
  do! revertIf (orderExists orderId w) OrderAlreadyExists in
  (* Must be past fill deadline *)
  do! revertIf (block_timestamp tx <=? QuoteLib.fillDeadline quote)
        OrderNotExpired in
  (* Consume nonce *)
  let! w := _useNonce (QuoteLib.solver quote) (QuoteLib.nonce quote) w in
  (* Store order as REFUNDED *)
  let w := write_order orderId (orderOf quote REFUNDED) w in
  (* Deploy proxy and sweep the requested token to the user *)
  let! balBefore := balanceOfCall token (this E) w in
  let! w := deployProxy orderId w in
  let! w := sweep (computeDepositAddress E orderId) token (this E)
              (block_timestamp tx) w in
  let! balAfter := balanceOfCall token (this E) w in
  let! actualReceived := checked_sub balAfter balBefore in
  if 0 <? actualReceived
  then safeTransfer token (this E) (QuoteLib.user quote) actualReceived
         (block_timestamp tx) w
  else Ok w.

End Token.

End AnyToken.

(** ** Quote aggregator ([api/src/aggregator.ts])

    [Aggregator.getQuote] from the point where the signature-verified
    responses are known, and further down the part that leads there.
    Amount strings are represented by the bigint that [BigInt()] reads from
    them. *)

Module Aggregator.

Local Open Scope Z_scope.

Inductive OrderType := EXACT_INPUT | EXACT_OUTPUT.
Inductive DepositMode := CONTRACT | ADDRESS.

Record SerializedQuote := {
  solver : string;
  user : string;
  inputToken : string;
  inputAmount : Z;
  outputToken : string;
  outputAmount : Z;
  orderType : Z;
  outputChainId : Z;
  depositDeadline : Z;
  fillDeadline : Z;
  nonce : Z
}.

Record SolverQuoteResponse := {
  quote : SerializedQuote;
  signature : string
}.

Record AlternativeQuote := {
  alt_quote : SerializedQuote;
  alt_solverSignature : string;
  alt_depositAddress : option string
}.

Record QuoteResponse := {
  res_quote : SerializedQuote;
  res_solverSignature : string;
  res_depositAddress : option string;
  alternativeQuotes : list AlternativeQuote
}.

(** *** [Array.prototype.sort]

    The comparator below never answers 0, so it is not a consistent
    comparator in the sense of ECMAScript and the order [sort] produces is
    the engine's. The service runs on Node.js; V8 sorts an array of fewer
    than 64 elements by finding the run the array starts with (reversing
    it when it descends) and inserting the remaining elements one by one
    at the position found by binary search. [comparefn] is called as V8
    calls it: [comparefn(later element, earlier element)] while finding
    the run, [comparefn(pivot, element)] while searching. *)

Section Sort.

Context {A : Type} (comparefn : A -> A -> Z).

(** How far the run continues after its second element. *)
Fixpoint runTail (descending : bool) (previous : A) (rest : list A) : nat :=
  match rest with
  | [] => 0%nat
  | current :: rest' =>
      let order := comparefn current previous in
      if descending then
        if order <? 0 then S (runTail descending current rest') else 0%nat
      else
        if order <? 0 then 0%nat else S (runTail descending current rest')
  end.

(** The initial run, made ascending, and the elements after it. *)
Definition countAndMakeRun (l : list A) : list A * list A :=
  match l with
  | low :: (high :: rest) =>
      let descending := comparefn high low <? 0 in
      let runLength := (2 + runTail descending high rest)%nat in
      (if descending then reverse (take runLength l) else take runLength l,
       drop runLength l)
  | _ => (l, [])
  end.

(** The insertion point of [pivot] in [sorted], searched in
    [left, right). *)
Fixpoint binarySearch (fuel : nat) (pivot : A) (sorted : list A)
  (left right : nat) : nat :=
  match fuel with
  | O => left
  | S fuel' =>
      if (left <? right)%nat then
        let mid := (left + (right - left) / 2)%nat in
        match sorted !! mid with
        | Some x =>
            if comparefn pivot x <? 0
            then binarySearch fuel' pivot sorted left mid
            else binarySearch fuel' pivot sorted (mid + 1) right
        | None => left
        end
      else left
  end.

Definition insertPivot (sorted : list A) (pivot : A) : list A :=
  let left := binarySearch (length sorted) pivot sorted 0 (length sorted) in
  take left sorted ++ pivot :: drop left sorted.

Definition binaryInsertionSort (run rest : list A) : list A :=
  fold_left insertPivot rest run.

Definition sort (l : list A) : list A :=
  let (run, rest) := countAndMakeRun l in
  binaryInsertionSort run rest.

End Sort.

(** *** Ranking *)

Definition compareQuotes (orderType : OrderType) (a b : SolverQuoteResponse)
  : Z :=
  match orderType with
  | EXACT_INPUT =>
      (* Higher output is better *)
      if outputAmount (quote b) >? outputAmount (quote a) then 1 else -1
  | EXACT_OUTPUT =>
      (* Lower input is better *)
      if inputAmount (quote a) >? inputAmount (quote b) then 1 else -1
  end.

Definition rankQuotes (quotes : list SolverQuoteResponse)
  (orderType : OrderType) : list SolverQuoteResponse :=
  sort (compareQuotes orderType) quotes.

(** The price the ranking goes by, smaller is better: the output amount
    counted downwards for EXACT_INPUT, the input amount for
    EXACT_OUTPUT. *)
Definition rank (orderType : OrderType) (r : SolverQuoteResponse) : Z :=
  match orderType with
  | EXACT_INPUT => - outputAmount (quote r)
  | EXACT_OUTPUT => inputAmount (quote r)
  end.

(** Orders and choices by a price. [better best x] is the choice between
    the best element so far and a later one [x]: the later one is taken
    unless it is strictly dearer. *)
Section Price.

Context {A : Type} (price : A -> Z).

Definition cheaper : relation A := fun x y => price x <= price y.

Definition strictlyCheaper : relation A := fun x y => price x < price y.

Definition better (best x : A) : A :=
  if price x <=? price best then x else best.

End Price.

(** [getQuote] after signature verification. [computeDepositAddress] is
    the read of the contract's view, [None] when the call fails;
    [firmSwapConfigured] says whether the chain has a contract address. *)
Definition getQuote
  (computeDepositAddress : SerializedQuote -> string -> option string)
  (firmSwapConfigured : bool)
  (orderType : OrderType) (depositMode : DepositMode)
  (verified : list SolverQuoteResponse) : option QuoteResponse :=
  if bool_decide (length verified = 0%nat) then None else
  (* Rank by best price *)
  match rankQuotes verified orderType with
  | [] => None
  | best :: alternatives =>
      let depositAddress :=
        match depositMode with
        | ADDRESS =>
            if firmSwapConfigured
            then computeDepositAddress (quote best) (signature best)
            else None
        | CONTRACT => None
        end in
      (* alternatives WITHOUT signatures *)
      Some {| res_quote := quote best;
              res_solverSignature := signature best;
              res_depositAddress := depositAddress;
              alternativeQuotes :=
                map (fun alt =>
                       {| alt_quote := quote alt;
                          alt_solverSignature := EmptyString;
                          alt_depositAddress := None |}) alternatives |}
  end.

(** *** The request, the fan-out and the collection of responses

    [getQuote] from its first line to the point where [verified] is known.
    What the network answers is given by two oracles: the outcome of the
    fetch made for the solver at a position of the fan-out list, and the
    outcome of the signature check made for the quote at a position of the
    collected list, each a settled promise. The clock reading [now] and the
    configuration values are parameters. *)

Record RegisteredSolver := {
  address : string;
  endpointUrl : string;
  name : string;
  registeredAt : Z;
  active : bool
}.

Record QuoteRequest := {
  req_inputToken : string;
  req_outputToken : string;
  req_orderType : OrderType;
  req_amount : string;
  userAddress : string;
  originChainId : Z;
  destinationChainId : Z;
  depositWindow : option Z;
  req_depositMode : DepositMode
}.

Record SolverQuoteRequest := {
  sol_inputToken : string;
  sol_outputToken : string;
  sol_orderType : OrderType;
  sol_amount : string;
  sol_userAddress : string;
  sol_chainId : Z;
  sol_depositDeadline : Z;
  sol_fillDeadline : Z
}.

(** An element of the array [Promise.allSettled] resolves to. *)
Inductive Settled (A : Type) :=
  | Fulfilled (value : A)
  | Rejected.
Arguments Fulfilled {A} value.
Arguments Rejected {A}.

(** [array.slice(0, end)] *)
Definition slice0 {A} (end_ : Z) (l : list A) : list A :=
  if end_ <? 0
  then take (Z.to_nat (Z.max (Z.of_nat (length l) + end_) 0)) l
  else take (Z.to_nat end_) l.

Section Collect.

Context (toLowerCase : string -> string).

(** [config.maxQuoteFanOut], [None] when [parseInt] gave NaN. *)
Context (maxQuoteFanOut : option Z).
Context (defaultDepositWindow defaultFillWindow : Z).
Context (now : Z).
Context (fetchSolverQuote :
           nat -> string -> SolverQuoteRequest ->
           Settled (option SolverQuoteResponse)).
Context (verifySignature : nat -> SerializedQuote -> string -> Settled bool).

(** Cap fan-out *)
Definition capFanOut (solvers : list RegisteredSolver)
  : list RegisteredSolver :=
  match maxQuoteFanOut with
  | Some m =>
      if Z.of_nat (length solvers) >? m then slice0 m solvers else solvers
  | None => solvers
  end.

Definition solverRequestOf (request : QuoteRequest) : SolverQuoteRequest :=
  let depositDeadline :=
    now + match depositWindow request with
          | Some window => window
          | None => defaultDepositWindow
          end in
  let fillDeadline := depositDeadline + defaultFillWindow in
  {| sol_inputToken := req_inputToken request;
     sol_outputToken := req_outputToken request;
     sol_orderType := req_orderType request;
     sol_amount := req_amount request;
     sol_userAddress := userAddress request;
     sol_chainId := originChainId request;
     sol_depositDeadline := depositDeadline;
     sol_fillDeadline := fillDeadline |}.

(** Validate solver response matches the original request *)
Definition discarded (request : QuoteRequest) (q : SerializedQuote) : bool :=
  let userMatch :=
    String.eqb (toLowerCase (user q)) (toLowerCase (userAddress request)) in
  let inputMatch :=
    String.eqb (toLowerCase (inputToken q))
      (toLowerCase (req_inputToken request)) in
  let outputMatch :=
    String.eqb (toLowerCase (outputToken q))
      (toLowerCase (req_outputToken request)) in
  let deadlineValid := depositDeadline q >? now in
  let amountValid := (outputAmount q >? 0) && (inputAmount q >? 0) in
  negb userMatch || negb inputMatch || negb outputMatch
  || negb deadlineValid || negb amountValid.

(** Collect successful responses *)
Definition collectQuotes (request : QuoteRequest)
  (responses : list (Settled (option SolverQuoteResponse)))
  : list SolverQuoteResponse :=
  fold_left
    (fun quotes result =>
       match result with
       | Fulfilled (Some value) =>
           if discarded request (quote value) then quotes
           else quotes ++ [value]
       | _ => quotes
       end)
    responses [].

(** Verify EIP-712 signatures *)
Definition verifyQuotes (quotes : list SolverQuoteResponse)
  : list SolverQuoteResponse :=
  let sigChecks :=
    imap (fun i q => verifySignature i (quote q) (signature q)) quotes in
  fold_left
    (fun verified qc =>
       match snd qc with
       | Fulfilled true => verified ++ [fst qc]
       | _ => verified
       end)
    (zip quotes sigChecks) [].

(** [getQuote(request)], given the registry's active solvers. *)
Definition getQuoteOf
  (computeDepositAddress : SerializedQuote -> string -> option string)
  (firmSwapConfigured : bool)
  (activeSolvers : list RegisteredSolver) (request : QuoteRequest)
  : option QuoteResponse :=
  let solvers := activeSolvers in
  if bool_decide (length solvers = 0%nat) then None else
  let solvers := capFanOut solvers in
  let solverRequest := solverRequestOf request in
  (* Broadcast to all solvers in parallel *)
  let responses :=
    imap (fun i solver => fetchSolverQuote i (endpointUrl solver) solverRequest)
      solvers in
  let quotes := collectQuotes request responses in
  if bool_decide (length quotes = 0%nat) then None else
  if negb firmSwapConfigured then None else
  let verified := verifyQuotes quotes in
  getQuote computeDepositAddress firmSwapConfigured (req_orderType request)
    (req_depositMode request) verified.

End Collect.

(** *** Solver responses of the test suite *)

Definition response (solverName : string) (inputAmount outputAmount : Z)
  (signature : string) : SolverQuoteResponse :=
  {| quote :=
       {| solver := solverName; user := "0xuser";
          inputToken := "0xbrla"; inputAmount := inputAmount;
          outputToken := "0xusdc"; outputAmount := outputAmount;
          orderType := 1; outputChainId := 100;
          depositDeadline := 1300; fillDeadline := 1420; nonce := 1 |};
     signature := signature |}.

(** Two solvers asking 1200 and 1100 BRLA for the same 200 USDC. *)
Definition expensive : SolverQuoteResponse :=
  response "0xsolverA" (1200 * 10 ^ 18) 200000000 "0xaa".
Definition cheap : SolverQuoteResponse :=
  response "0xsolverB" (1100 * 10 ^ 18) 200000000 "0xbb".

(** Two solvers offering the same 200 USDC for the same input. *)
Definition first : SolverQuoteResponse :=
  response "0xsolverA" (1148 * 10 ^ 18) 200000000 "0xaa".
Definition second : SolverQuoteResponse :=
  response "0xsolverB" (1148 * 10 ^ 18) 200000000 "0xbb".

Definition noDepositAddress (q : SerializedQuote) (sig : string)
  : option string := None.

(** Two registered solvers, a request for 200 USDC of output, the round in
    which the first solver answers with the dearer quote and the second
    with the cheaper one, and a signature check that accepts. *)
Definition solverA : RegisteredSolver :=
  {| address := "0xsolvera"; endpointUrl := "https://a.example"; name := "A";
     registeredAt := 0; active := true |}.
Definition solverB : RegisteredSolver :=
  {| address := "0xsolverb"; endpointUrl := "https://b.example"; name := "B";
     registeredAt := 0; active := true |}.
Definition request : QuoteRequest :=
  {| req_inputToken := "0xbrla"; req_outputToken := "0xusdc";
     req_orderType := EXACT_OUTPUT; req_amount := "200000000";
     userAddress := "0xuser"; originChainId := 100;
     destinationChainId := 100; depositWindow := None;
     req_depositMode := CONTRACT |}.
Definition fetched (i : nat) (url : string) (r : SolverQuoteRequest)
  : Settled (option SolverQuoteResponse) :=
  match i with
  | 0%nat => Fulfilled (Some expensive)
  | 1%nat => Fulfilled (Some cheap)
  | _ => Rejected
  end.
Definition accepted (i : nat) (q : SerializedQuote) (sig : string)
  : Settled bool := Fulfilled true.

End Aggregator.

(** ** The solver's nonce manager ([solver/src/nonceManager.ts])

    The manager's only state is [nextNonce]. The read of the contract's
    [isNonceUsed] view is an oracle that answers [None] when the call
    throws. *)

Module NonceManager.

Local Open Scope Z_scope.

Record State := { nextNonce : Z }.

(** [new NonceManager(...)]: [nextNonce = 0n] *)
Definition initial : State := {| nextNonce := 0 |}.

Section Reads.

Context (readContract : Z -> option bool).

(** Check if a nonce has been used on-chain; a failed read counts as
    unused. *)
Definition isNonceUsed (nonce : Z) : bool :=
  match readContract nonce with
  | Some result => result
  | None => false
  end.

(** The loop of [initialize] from [i] on, [budget] iterations being left
    before [i] reaches 1000. *)
Fixpoint firstUnusedFrom (budget : nat) (i : Z) : Z :=
  match budget with
  | O => 1000
  | S budget' =>
      let used := isNonceUsed i in
      if negb used then i else firstUnusedFrom budget' (i + 1)
  end.

(** Initialize by finding the next unused nonce *)
Definition initialize (s : State) : State :=
  {| nextNonce := firstUnusedFrom 1000 0 |}.

End Reads.

(** Get the next available nonce and advance the counter *)
Definition getNextNonce (s : State) : Z * State :=
  let nonce := nextNonce s in
  (nonce, {| nextNonce := nextNonce s + 1 |}).

(** Peek at the next nonce without consuming it *)
Definition peekNextNonce (s : State) : Z := nextNonce s.

(** [count] calls of [getNextNonce] in a row: the nonces handed out and the
    state left. *)
Fixpoint getNextNonces (count : nat) (s : State) : list Z * State :=
  match count with
  | O => ([], s)
  | S count' =>
      let (nonce, s1) := getNextNonce s in
      let (nonces, s2) := getNextNonces count' s1 in
      (nonce :: nonces, s2)
  end.

End NonceManager.

(** ** A concrete deployment, for running scenarios

    Identifiers are kept as the pair they hash; a signature is the single
    byte naming its signer; every permit is accepted by Permit2. *)

Module Scenario.

#[global] Instance byte_eq_dec : EqDecision Byte.byte :=
  Stdlib.Strings.Byte.byte_eq_dec.

Definition firmSwap : address := 100.
Definition brla : address := 200.      (* input token, 18 decimals *)
Definition usdc : address := 201.      (* output token and bond token *)
Definition feeToken : address := 202.  (* charges 1% on every transfer *)
Definition permit2 : address := 300.
Definition solver : address := 10.
Definition user : address := 20.
Definition anyone : address := 30.

Definition env : Env :=
  {| bytes32 := FirmSwapQuote * bytes;
     bytes32_eq_dec := _;
     this := firmSwap;
     BOND_TOKEN := usdc;
     PERMIT2 := permit2;
     chainid := 100;
     computeOrderId := fun q sig => (q, sig);
     computeDepositAddress := fun id => 2 ^ 159 + QuoteLib.nonce (fst id);
     recover := fun _ sig =>
       match sig with
       | [b] => Some (Byte.to_N b)
       | _ => None
       end;
     permit2_verify := fun _ _ _ _ => true |}.

Definition solverSig : bytes := [Byte.x0a].

Definition depositAddress (nonce : N) : address := 2 ^ 159 + nonce.

(** Solver and user hold funds and have approved the engine (the user
    also Permit2) without limit. The deposit addresses of the quotes with
    nonce 1, 2 and 3 have received the quoted input, 1 wei, and the quoted
    input plus 200 tokens. *)
Definition ledger : Ledger :=
  {| balanceOf := fun token holder =>
       if (token =? usdc) && (holder =? solver) then 1010000 * 10 ^ 6
       else if (token =? brla) && (holder =? user) then 1000000 * 10 ^ 18
       else if (token =? feeToken) && (holder =? user) then 1000000 * 10 ^ 18
       else if (token =? brla) && (holder =? depositAddress 1)
       then 1148 * 10 ^ 18
       else if (token =? brla) && (holder =? depositAddress 2) then 1
       else if (token =? brla) && (holder =? depositAddress 3)
       then 1348 * 10 ^ 18
       else 0;
     allowance := fun token owner spender =>
       if (owner =? solver) && (spender =? firmSwap) then MAX_UINT256
       else if (owner =? user) && ((spender =? firmSwap) || (spender =? permit2))
       then MAX_UINT256
       else 0;
     feeBps := fun token => if token =? feeToken then 100 else 0 |}.

(** [_defaultQuote()] of the test suite, issued at time 1000. *)
Definition quote (nonce outputAmount : N) : FirmSwapQuote :=
  {| QuoteLib.solver := solver;
     QuoteLib.user := user;
     QuoteLib.inputToken := brla;
     QuoteLib.inputAmount := 1148 * 10 ^ 18;
     QuoteLib.outputToken := usdc;
     QuoteLib.outputAmount := outputAmount;
     QuoteLib.orderType := QuoteLib.EXACT_OUTPUT;
     QuoteLib.outputChainId := 100;
     QuoteLib.depositDeadline := 1300;
     QuoteLib.fillDeadline := 1420;
     QuoteLib.nonce := nonce |}.

Definition at_ (sender : address) (time : N) : Tx :=
  {| msg_sender := sender; block_timestamp := time |}.

(** A solver registers 2000 USDC of bond and asks to unstake 1000; a user
    then deposits against a quote for 30000 USDC of output, which reserves
    1500; a week later the solver executes the unstake. *)
Definition unstakeTrace : list (Tx * Call (E := env)) :=
  [ (at_ solver 1000, RegisterSolver (2000 * 10 ^ 6));
    (at_ solver 1000, RequestUnstake (1000 * 10 ^ 6));
    (at_ user 1000, Deposit (quote 0 (30000 * 10 ^ 6)) solverSig);
    (at_ solver (1000 + UNSTAKE_DELAY), ExecuteUnstake) ].

(** S1: the solver registers 10000 USDC of bond and a user deposits against
    the default quote (200 USDC of output, nonce 0). *)
Definition depositTrace : list (Tx * Call (E := env)) :=
  [ (at_ solver 1000, RegisterSolver (10000 * 10 ^ 6));
    (at_ user 1000, Deposit (quote 0 (200 * 10 ^ 6)) solverSig) ].

(** [setUp()] of the test suite: the solver registers 10000 USDC. *)
Definition registerTrace : list (Tx * Call (E := env)) :=
  [ (at_ solver 1000, RegisterSolver (10000 * 10 ^ 6)) ].

(** A quote whose input token charges 1% on transfer, and the user's
    Permit2 permit for that token and amount. *)
Definition feeQuote : FirmSwapQuote :=
  {| QuoteLib.solver := solver;
     QuoteLib.user := user;
     QuoteLib.inputToken := feeToken;
     QuoteLib.inputAmount := 1000 * 10 ^ 18;
     QuoteLib.outputToken := usdc;
     QuoteLib.outputAmount := 200 * 10 ^ 6;
     QuoteLib.orderType := QuoteLib.EXACT_OUTPUT;
     QuoteLib.outputChainId := 100;
     QuoteLib.depositDeadline := 1300;
     QuoteLib.fillDeadline := 1420;
     QuoteLib.nonce := 7 |}.
Definition feePermit : PermitTransferFrom :=
  {| permitted_token := feeToken; permitted_amount := 1000 * 10 ^ 18;
     permit_nonce := 0; permit_deadline := 1300 |}.

(** A solver registers the minimum bond of 1000 USDC; a user deposits
    against a quote for 20000 USDC of output (nonce 0), which reserves the
    whole bond; after the fill deadline the address deposit made for another
    quote of the solver (nonce 1, 1 USDC of output, fully funded) is
    refunded, which slashes 0.05 USDC. *)
Definition drainTrace : list (Tx * Call (E := env)) :=
  [ (at_ solver 1000, RegisterSolver (1000 * 10 ^ 6));
    (at_ user 1000, Deposit (quote 0 (20000 * 10 ^ 6)) solverSig);
    (at_ anyone 1421, RefundAddressDeposit (quote 1 (10 ^ 6)) solverSig) ].

(** S4: the solver settles the quote with nonce 3, whose deposit address
    holds 1348 tokens; afterwards the user sends 200 more tokens to the
    same address. *)
Definition settledWorld : World env :=
  outcome [ (at_ solver 1000, Settle (quote 3 (200 * 10 ^ 6)) solverSig) ]
    (outcome registerTrace (genesis ledger)).
Definition strayWorld : World env :=
  set_erc20
    (transferred brla user (depositAddress 3) (200 * 10 ^ 18)
       (erc20 settledWorld))
    settledWorld.

(** The solver cancels nonce 261 (bit 5 of word 1). *)
Definition cancelTrace : list (Tx * Call (E := env)) :=
  [ (at_ solver 1000, CancelNonce 261) ].

(** Later the solver registers, a user deposits against nonce 0 and the
    solver cancels bit 7 of word 1. *)
Definition busyTrace : list (Tx * Call (E := env)) :=
  [ (at_ solver 1000, RegisterSolver (10000 * 10 ^ 6));
    (at_ user 1000, Deposit (quote 0 (200 * 10 ^ 6)) solverSig);
    (at_ solver 1001, CancelNonces 1 128) ].

(** States of the test suite: after [setUp()], after the deposit of S1,
    and after the solver's fill of that deposit. *)
Definition registeredWorld : World env := outcome registerTrace (genesis ledger).
Definition depositedWorld : World env := outcome depositTrace (genesis ledger).
Definition fillTrace : list (Tx * Call (E := env)) :=
  [ (at_ solver 1100,
     Fill (computeOrderId env (quote 0 (200 * 10 ^ 6)) solverSig)) ].
Definition filledWorld : World env := outcome fillTrace depositedWorld.

(** After [setUp()] the solver asks to unstake 1000 USDC. *)
Definition requestTrace : list (Tx * Call (E := env)) :=
  [ (at_ solver 1000, RequestUnstake (1000 * 10 ^ 6)) ].
Definition requestedWorld : World env := outcome requestTrace registeredWorld.

(** The state the drain trace leaves before its last call. *)
Definition reservedWorld : World env :=
  outcome [ (at_ solver 1000, RegisterSolver (1000 * 10 ^ 6));
            (at_ user 1000, Deposit (quote 0 (20000 * 10 ^ 6)) solverSig) ]
    (genesis ledger).

(** A token contract that, whenever it is asked to transfer, has the engine
    cancel its own nonce 5, register it as a solver with 1000 USDC of bond
    and, in vain, settle a quote. *)
Definition hookToken : address := 203.
Definition hookCode : AnyToken.TokenCode (E := env) :=
  {| AnyToken.reenters := fun _ =>
       [ (hookToken, CancelNonce 5);
         (hookToken, RegisterSolver (1000 * 10 ^ 6));
         (hookToken, Settle (quote 1 (200 * 10 ^ 6)) solverSig) ];
     AnyToken.fails := fun _ => false |}.

(** The contracts of the deployment: the three ledger tokens and the token
    above; no other address holds code. *)
Definition tokens (token : address) : option (AnyToken.TokenCode (E := env)) :=
  if token =? hookToken then Some hookCode
  else if (token =? brla) || (token =? usdc) || (token =? feeToken)
  then Some AnyToken.plain
  else None.

(** After the settlement of S4 the token contract holds 1000 USDC, which the
    engine may pull, and has credited one unit of itself to the deposit
    address of the settled quote. *)
Definition hookLedger (L : Ledger) : Ledger :=
  {| balanceOf := fun token holder =>
       if (token =? hookToken) && (holder =? depositAddress 3) then 1
       else if (token =? usdc) && (holder =? hookToken) then 1000 * 10 ^ 6
       else balanceOf L token holder;
     allowance := fun token owner spender =>
       if (owner =? hookToken) && (spender =? firmSwap) then MAX_UINT256
       else allowance L token owner spender;
     feeBps := feeBps L |}.
Definition hookedWorld : World env :=
  set_erc20 (hookLedger (erc20 settledWorld)) settledWorld.


(** The state in which [recoverFromProxy] has swept that unit from the
    deposit address of the settled quote. *)
Definition hookRecoveredWorld : World env :=
  match AnyToken.recoverFromProxy tokens (quote 3 (200 * 10 ^ 6)) solverSig
          hookToken (at_ anyone 2000) hookedWorld with
  | Ok w => w
  | Revert _ => hookedWorld
  end.


End Scenario.

(** * Properties *)

(** ** Reasoning about the revert monad *)

Lemma bind_Ok_inv {A B} (m : Result A) (k : A -> Result B) (b : B) :
  bind m k = Ok b -> exists a, m = Ok a /\ k a = Ok b.
Proof. destruct m as [a|e]; simpl; [eauto | discriminate]. Qed.

Lemma bind_Revert_l {A B} (m : Result A) (k : A -> Result B) (e : Error) :
  m = Revert e -> bind m k = Revert e.
Proof. intros ->. reflexivity. Qed.

Lemma revertIf_Ok_inv (c : bool) (e : Error) (u : unit) :
  revertIf c e = Ok u -> c = false.
Proof. destruct c; simpl; [discriminate | reflexivity]. Qed.

Lemma revertIf_false (c : bool) (e : Error) :
  c = false -> revertIf c e = Ok tt.
Proof. intros ->. reflexivity. Qed.

Lemma checked_sub_Ok_inv (a b r : N) :
  checked_sub a b = Ok r -> b <= a /\ r = a - b.
Proof.
  unfold checked_sub. destruct (N.leb_spec b a); [|discriminate].
  intros [= <-]. auto.
Qed.

Lemma checked_add_Ok_inv (a b r : N) :
  checked_add a b = Ok r -> a + b <= MAX_UINT256 /\ r = a + b.
Proof.
  unfold checked_add. destruct (N.leb_spec (a + b) MAX_UINT256); [|discriminate].
  intros [= <-]. auto.
Qed.

Lemma checked_mul_Ok_inv (a b r : N) :
  checked_mul a b = Ok r -> a * b <= MAX_UINT256 /\ r = a * b.
Proof.
  unfold checked_mul. destruct (N.leb_spec (a * b) MAX_UINT256); [|discriminate].
  intros [= <-]. auto.
Qed.

(** One inversion step on a hypothesis saying that a computation succeeded. *)
Ltac inv_ok_step :=
  match goal with
  | H : bind _ _ = Ok _ |- _ =>
      let a := fresh "a" in let Ha := fresh "Hstep" in
      apply bind_Ok_inv in H; destruct H as (a & Ha & H)
  | H : revertIf _ _ = Ok _ |- _ => apply revertIf_Ok_inv in H
  | H : checked_sub _ _ = Ok _ |- _ =>
      apply checked_sub_Ok_inv in H; destruct H as [? ?]
  | H : checked_add _ _ = Ok _ |- _ =>
      apply checked_add_Ok_inv in H; destruct H as [? ?]
  | H : checked_mul _ _ = Ok _ |- _ =>
      apply checked_mul_Ok_inv in H; destruct H as [? ?]
  | H : Ok _ = Ok _ |- _ => injection H as H
  | H : (_, _) = (_, _) |- _ => injection H as ? ?
  | H : Revert _ = Ok _ |- _ => discriminate H
  | H : (let (_, _) := ?p in _) = Ok _ |- _ => destruct p
  | H : (if ?c then _ else _) = Ok _ |- _ => destruct c eqn:?
  | H : match ?x with Some _ => _ | None => _ end = Ok _ |- _ =>
      destruct x eqn:?
  end.
Ltac inv_ok := repeat inv_ok_step.

(** ** What the building blocks do when they succeed *)

Section Primitives.

Context {E : Env}.

Lemma erc20_transfer_Ok_iff (token from to : address) (amount : N)
  (L L' : Ledger) :
  erc20_transfer token from to amount L = Ok L'
  <-> amount <= balanceOf L token from
      /\ L' = transferred token from to amount L.
Proof.
  unfold erc20_transfer.
  destruct (N.ltb_spec (balanceOf L token from) amount); split.
  - discriminate.
  - intros [? _]. lia.
  - intros [= <-]. auto.
  - intros [_ ->]. reflexivity.
Qed.

Lemma safeTransfer_inv (token to : address) (amount : N) (w w' : World E) :
  safeTransfer token to amount w = Ok w' ->
  exists L, erc20_transfer token (this E) to amount (erc20 w) = Ok L
            /\ w' = set_erc20 L w.
Proof. unfold safeTransfer. intros H. inv_ok. eauto. Qed.

Lemma safeTransferFrom_inv (token from to : address) (amount : N)
  (w w' : World E) :
  safeTransferFrom token from to amount w = Ok w' ->
  exists L, erc20_transferFrom token (this E) from to amount (erc20 w) = Ok L
            /\ w' = set_erc20 L w.
Proof. unfold safeTransferFrom. intros H. inv_ok. eauto. Qed.

Lemma permitTransferFrom_inv (permit : PermitTransferFrom) (to : address)
  (requestedAmount : N) (owner : address) (sig : bytes) (now : N)
  (w w' : World E) :
  permitTransferFrom permit to requestedAmount owner sig now w = Ok w' ->
  exists L, erc20_transferFrom (permitted_token permit) (PERMIT2 E) owner to
              requestedAmount (erc20 w) = Ok L
            /\ w' = set_erc20 L w.
Proof. unfold permitTransferFrom. intros H. inv_ok. eauto. Qed.

Lemma deployProxy_inv (orderId : bytes32 E) (w w' : World E) :
  deployProxy orderId w = Ok w' ->
  deployed w (computeDepositAddress E orderId) = false
  /\ w' = set_deployed (<[computeDepositAddress E orderId := true]> (deployed w)) w.
Proof. unfold deployProxy. intros H. inv_ok. auto. Qed.

Lemma sweep_inv (proxy token to : address) (w w' : World E) :
  sweep proxy token to w = Ok w' ->
  deployed w proxy = true
  /\ ((0 < balanceOf (erc20 w) token proxy
       /\ exists L, erc20_transfer token proxy to
                      (balanceOf (erc20 w) token proxy) (erc20 w) = Ok L
                    /\ w' = set_erc20 L w)
      \/ (balanceOf (erc20 w) token proxy = 0 /\ w' = w)).
Proof.
  unfold sweep. intros H.
  destruct (deployed w proxy); simpl in H; [|discriminate].
  split; [reflexivity|].
  destruct (N.ltb_spec 0 (balanceOf (erc20 w) token proxy)).
  - inv_ok. left. eauto.
  - inv_ok. right. split; [lia | auto].
Qed.

Lemma safeTransfer_Ok (token to : address) (amount : N) (w : World E) :
  amount <= balanceOf (erc20 w) token (this E) ->
  safeTransfer token to amount w
  = Ok (set_erc20 (transferred token (this E) to amount (erc20 w)) w).
Proof.
  intros H. unfold safeTransfer.
  now rewrite (proj2 (erc20_transfer_Ok_iff _ _ _ _ _ _) (conj H eq_refl)).
Qed.

Lemma safeTransfer_Revert (token to : address) (amount : N) (w : World E) :
  balanceOf (erc20 w) token (this E) < amount ->
  safeTransfer token to amount w = Revert SafeERC20FailedOperation.
Proof.
  intros H. unfold safeTransfer, erc20_transfer.
  apply N.ltb_lt in H. now rewrite H.
Qed.

Lemma deployProxy_Ok (orderId : bytes32 E) (w : World E) :
  deployed w (computeDepositAddress E orderId) = false ->
  deployProxy orderId w
  = Ok (set_deployed (<[computeDepositAddress E orderId := true]> (deployed w))
          w).
Proof. intros H. unfold deployProxy. now rewrite H. Qed.

Lemma deployProxy_Revert (orderId : bytes32 E) (w : World E) :
  deployed w (computeDepositAddress E orderId) = true ->
  deployProxy orderId w = Revert FailedDeployment.
Proof. intros H. unfold deployProxy. now rewrite H. Qed.

(** A deployed proxy hands over its whole balance. *)
Lemma sweep_Ok (proxy token to : address) (w : World E) :
  deployed w proxy = true ->
  sweep proxy token to w
  = Ok (if 0 <? balanceOf (erc20 w) token proxy
        then set_erc20 (transferred token proxy to
                          (balanceOf (erc20 w) token proxy) (erc20 w)) w
        else w).
Proof.
  intros H. unfold sweep. rewrite H. simpl.
  destruct (0 <? balanceOf (erc20 w) token proxy); [|reflexivity].
  now rewrite (proj2 (erc20_transfer_Ok_iff _ _ _ _ _ _)
                 (conj (N.le_refl _) eq_refl)).
Qed.

Lemma _useNonce_Ok (solver nonce : N) (w : World E) :
  let wordPos := uint248 (N.shiftr nonce 8) in
  let bit := uint256 (N.shiftl 1 (uint8 nonce)) in
  let word := nonceBitmap (storage w) solver wordPos in
  N.land word bit = 0 ->
  _useNonce solver nonce w
  = Ok (set_storage
          (set_nonceBitmap
             (<[solver := <[wordPos := N.lor word bit]>
                            (nonceBitmap (storage w) solver)]>
                (nonceBitmap (storage w)))
             (storage w)) w).
Proof. intros wordPos bit word H. unfold _useNonce. fold wordPos bit word. now rewrite H. Qed.

Lemma checked_sub_Ok (a b : N) : b <= a -> checked_sub a b = Ok (a - b).
Proof. intros H. unfold checked_sub. apply N.leb_le in H. now rewrite H. Qed.

Lemma checked_sub_Revert (a b : N) : a < b -> checked_sub a b = Revert Panic.
Proof. intros H. unfold checked_sub. apply N.leb_gt in H. now rewrite H. Qed.

Lemma reservationOf_inv (outputAmount r : N) :
  reservationOf outputAmount = Ok r ->
  outputAmount * BOND_RESERVATION_BPS <= MAX_UINT256
  /\ r = outputAmount * BOND_RESERVATION_BPS / 10000.
Proof. unfold reservationOf. intros H. inv_ok. subst. auto. Qed.

Lemma reservationOf_Ok (outputAmount : N) :
  outputAmount * BOND_RESERVATION_BPS <= MAX_UINT256 ->
  reservationOf outputAmount
  = Ok (outputAmount * BOND_RESERVATION_BPS / 10000).
Proof.
  intros H. unfold reservationOf, checked_mul.
  destruct (N.leb_spec (outputAmount * BOND_RESERVATION_BPS) MAX_UINT256);
    [reflexivity | lia].
Qed.

Lemma _useNonce_inv (solver nonce : N) (w w' : World E) :
  _useNonce solver nonce w = Ok w' ->
  let wordPos := uint248 (N.shiftr nonce 8) in
  let bit := uint256 (N.shiftl 1 (uint8 nonce)) in
  let word := nonceBitmap (storage w) solver wordPos in
  N.land word bit = 0
  /\ w' = set_storage
            (set_nonceBitmap
               (<[solver := <[wordPos := N.lor word bit]>
                              (nonceBitmap (storage w) solver)]>
                  (nonceBitmap (storage w)))
               (storage w)) w.
Proof.
  unfold _useNonce. intros H. inv_ok.
  apply negb_false_iff, N.eqb_eq in Hstep. auto.
Qed.

Lemma _checkBond_inv (solver : address) (outputAmount : N) (w : World E)
  (u : unit) :
  _checkBond solver outputAmount w = Ok u ->
  let info := solvers (storage w) solver in
  reservedBond info <= totalBond info
  /\ outputAmount * BOND_RESERVATION_BPS / 10000
     <= totalBond info - reservedBond info.
Proof.
  unfold _checkBond. intros H. inv_ok.
  apply reservationOf_inv in Hstep as [_ ->]. subst.
  apply N.ltb_ge in H. auto.
Qed.

Lemma _reserveBond_inv (solver : address) (outputAmount : N) (w w' : World E) :
  _reserveBond solver outputAmount w = Ok w' ->
  let info := solvers (storage w) solver in
  let reservation := outputAmount * BOND_RESERVATION_BPS / 10000 in
  reservedBond info <= totalBond info
  /\ reservation <= totalBond info - reservedBond info
  /\ w' = write_solver solver
            (with_reservedBond (reservedBond info + reservation) info) w.
Proof.
  unfold _reserveBond. intros H. inv_ok.
  apply reservationOf_inv in Hstep as [_ ->]. subst.
  apply N.ltb_ge in Hstep1. auto.
Qed.

Lemma _releaseBond_inv (solver : address) (outputAmount : N) (w w' : World E) :
  _releaseBond solver outputAmount w = Ok w' ->
  let info := solvers (storage w) solver in
  let reservation := outputAmount * BOND_RESERVATION_BPS / 10000 in
  reservation <= reservedBond info
  /\ w' = write_solver solver
            (with_reservedBond (reservedBond info - reservation) info) w.
Proof.
  unfold _releaseBond. intros H. inv_ok.
  apply reservationOf_inv in Hstep as [_ ->]. subst. auto.
Qed.

Lemma _slashBond_inv (solver : address) (outputAmount slashed : N)
  (w w' : World E) :
  _slashBond solver outputAmount w = Ok (slashed, w') ->
  let info := solvers (storage w) solver in
  outputAmount * BOND_RESERVATION_BPS <= MAX_UINT256
  /\ slashed = N.min (outputAmount * BOND_RESERVATION_BPS / 10000)
                     (totalBond info)
  /\ w' = write_solver solver (slashedInfo outputAmount info) w.
Proof.
  unfold _slashBond. intros H.
  apply bind_Ok_inv in H as (r & Hr & H).
  apply reservationOf_inv in Hr as [Hmul ->].
  set (reservation := outputAmount * BOND_RESERVATION_BPS / 10000) in *.
  set (info := solvers (storage w) solver) in *.
  cbv zeta. split; [exact Hmul|].
  assert (Hsl : (if totalBond info <? reservation then totalBond info
                 else reservation) = N.min reservation (totalBond info)).
  { destruct (N.ltb_spec (totalBond info) reservation); lia. }
  rewrite Hsl in H.
  unfold slashedInfo. fold reservation.
  simpl in H.
  destruct (N.leb_spec reservation (reservedBond info)); inv_ok; subst.
  - auto.
  - replace (reservedBond info - reservation) with 0 by lia. auto.
Qed.

Lemma _slashBond_Ok (solver : address) (outputAmount : N) (w : World E) :
  outputAmount * BOND_RESERVATION_BPS <= MAX_UINT256 ->
  let info := solvers (storage w) solver in
  _slashBond solver outputAmount w
  = Ok (N.min (outputAmount * BOND_RESERVATION_BPS / 10000) (totalBond info),
        write_solver solver (slashedInfo outputAmount info) w).
Proof.
  intros Hmul info. unfold _slashBond.
  rewrite (reservationOf_Ok _ Hmul). simpl.
  fold info.
  set (reservation := outputAmount * BOND_RESERVATION_BPS / 10000).
  assert (Hsl : (if totalBond info <? reservation then totalBond info
                 else reservation) = N.min reservation (totalBond info)).
  { destruct (N.ltb_spec (totalBond info) reservation); lia. }
  rewrite Hsl.
  unfold checked_sub.
  destruct (N.leb_spec (N.min reservation (totalBond info)) (totalBond info));
    [|lia].
  simpl. unfold slashedInfo. fold reservation.
  destruct (N.leb_spec reservation (reservedBond info)); simpl.
  - reflexivity.
  - replace (reservedBond info - reservation) with 0 by lia. reflexivity.
Qed.

End Primitives.

(** Inversion of the building blocks met in a successful entry point. *)
Ltac inv_prim_step :=
  match goal with
  | H : safeTransfer _ _ _ _ = Ok _ |- _ =>
      apply safeTransfer_inv in H; destruct H as (? & ? & ->)
  | H : safeTransferFrom _ _ _ _ _ = Ok _ |- _ =>
      apply safeTransferFrom_inv in H; destruct H as (? & ? & ->)
  | H : permitTransferFrom _ _ _ _ _ _ _ = Ok _ |- _ =>
      apply permitTransferFrom_inv in H; destruct H as (? & ? & ->)
  | H : deployProxy _ _ = Ok _ |- _ =>
      apply deployProxy_inv in H; destruct H as [? ->]
  | H : sweep _ _ _ _ = Ok _ |- _ =>
      apply sweep_inv in H;
      destruct H as [? [(? & ? & ? & ->) | (? & ->)]]
  | H : _useNonce _ _ _ = Ok _ |- _ =>
      apply _useNonce_inv in H; cbv zeta in H; destruct H as [? ->]
  | H : _reserveBond _ _ _ = Ok _ |- _ =>
      apply _reserveBond_inv in H; cbv zeta in H; destruct H as (? & ? & ->)
  | H : _releaseBond _ _ _ = Ok _ |- _ =>
      apply _releaseBond_inv in H; cbv zeta in H; destruct H as (? & ->)
  | H : _slashBond _ _ _ = Ok _ |- _ =>
      apply _slashBond_inv in H; cbv zeta in H; destruct H as (? & ? & ->)
  | H : _checkBond _ _ _ = Ok _ |- _ =>
      apply _checkBond_inv in H; cbv zeta in H; destruct H as (? & ?)
  end.

(** Inversion of successful token transfers. *)
Ltac inv_ledger :=
  repeat match goal with
  | H : erc20_transfer _ _ _ _ _ = Ok _ |- _ =>
      apply erc20_transfer_Ok_iff in H; destruct H as [? ->]
  end.

(** Inversion of [H : entry point = Ok w'] down to the building blocks. *)
Ltac inv_entry H :=
  unfold deposit, _depositInternal, depositWithPermit2, openFor, fill, settle,
    settleWithTolerance, settleFor, refund, refundAddressDeposit,
    recoverFromProxy, deployAndRecover, withdrawExcess, registerSolver,
    addBond, requestUnstake, cancelUnstake, executeUnstake, cancelNonce,
    cancelNonces, _validateAndCreateOrder in H;
  repeat (inv_ok_step || inv_prim_step).

(** Reads of records just written, everywhere. *)
Ltac simpl_world :=
  cbn [storage deployed erc20 orders solvers nonceBitmap excessBalances
       set_storage set_orders set_solvers set_nonceBitmap set_excessBalances
       set_deployed set_erc20 write_order write_solver
       totalBond reservedBond unstakeAmount unstakeTimestamp registered
       with_totalBond with_reservedBond with_unstake slashedInfo
       user solver inputToken inputAmount outputToken outputAmount
       outputChainId fillDeadline state with_state with_inputAmount orderOf
       balanceOf allowance feeBps fst snd] in *.

(** Linear arithmetic where quotients are treated as unknowns. *)
Ltac forget_div :=
  repeat match goal with
  | |- context [N.div ?a ?b] =>
      let q := fresh "q" in set (q := N.div a b) in *; clearbody q
  | H : context [N.div ?a ?b] |- _ =>
      let q := fresh "q" in set (q := N.div a b) in *; clearbody q
  end.
Ltac lia_div := forget_div; lia.

(** ** Nonce bitmap *)

Section Nonces.

Context {E : Env}.

Lemma land_pow2_eqb_0 (word k : N) :
  (N.land word (2 ^ k) =? 0) = negb (N.testbit word k).
Proof.
  destruct (N.testbit word k) eqn:Hb; simpl.
  - apply N.eqb_neq. intros H0.
    assert (Hk : N.testbit (N.land word (2 ^ k)) k = true).
    { rewrite N.land_spec, Hb, N.pow2_bits_true. reflexivity. }
    rewrite H0, N.bits_0 in Hk. discriminate.
  - apply N.eqb_eq, N.bits_inj. intros i.
    rewrite N.land_spec, N.bits_0, N.pow2_bits_eqb.
    destruct (N.eqb_spec k i) as [<-|_].
    + rewrite Hb. reflexivity.
    + apply andb_false_r.
Qed.

Lemma bit_of_nonce (nonce : N) :
  uint256 (N.shiftl 1 (uint8 nonce)) = 2 ^ (nonce mod 256).
Proof.
  unfold uint256, uint8. change (2 ^ 8) with 256.
  rewrite N.shiftl_1_l. apply N.mod_small.
  apply N.pow_lt_mono_r; [lia|].
  apply N.mod_lt. lia.
Qed.

Lemma word_of_nonce (nonce : N) :
  nonce < 2 ^ 256 -> uint248 (N.shiftr nonce 8) = nonce / 256.
Proof.
  intros Hn. unfold uint248. rewrite N.shiftr_div_pow2.
  change (2 ^ 8) with 256. apply N.mod_small.
  apply N.Div0.div_lt_upper_bound.
  change (256 * 2 ^ 248) with (2 ^ 256). exact Hn.
Qed.

Lemma isNonceUsed_testbit (solver nonce : N) (w : World E) :
  nonce < 2 ^ 256 ->
  isNonceUsed solver nonce w
  = N.testbit (nonceBitmap (storage w) solver (nonce / 256)) (nonce mod 256).
Proof.
  intros Hn. unfold isNonceUsed.
  rewrite bit_of_nonce, (word_of_nonce _ Hn), land_pow2_eqb_0.
  apply negb_involutive.
Qed.

Lemma bits_kept_refl (b : address -> N -> N) : bits_kept b b.
Proof. intros ? ? ? H. exact H. Qed.

Lemma bits_kept_trans (b1 b2 b3 : address -> N -> N) :
  bits_kept b1 b2 -> bits_kept b2 b3 -> bits_kept b1 b3.
Proof. intros H12 H23 ? ? ? H. apply H23, H12, H. Qed.

(** OR-ing a mask into one word keeps every bit of the bitmap. *)
Lemma bits_kept_lor (b : address -> N -> N) (solver wordPos mask : N) :
  bits_kept b
    (<[solver := <[wordPos := N.lor (b solver wordPos) mask]> (b solver)]> b).
Proof.
  intros s wp i H.
  destruct (decide (solver = s)) as [<-|Hs].
  - rewrite fn_lookup_insert.
    destruct (decide (wordPos = wp)) as [<-|Hw].
    + rewrite fn_lookup_insert, N.lor_spec, H. reflexivity.
    + rewrite fn_lookup_insert_ne by exact Hw. exact H.
  - rewrite fn_lookup_insert_ne by exact Hs. exact H.
Qed.

(** No entry point clears a bit of the nonce bitmap. *)
Lemma exec_bits_kept (c : Call) (tx : Tx) (w w' : World E) :
  exec c tx w = Ok w' ->
  bits_kept (nonceBitmap (storage w)) (nonceBitmap (storage w')).
Proof.
  intros H.
  destruct c; simpl in H; inv_entry H; subst; simpl;
    solve [ apply bits_kept_refl | apply bits_kept_lor ].
Qed.

Lemma step_bits_kept (w w' : World E) :
  step w w' -> bits_kept (nonceBitmap (storage w)) (nonceBitmap (storage w')).
Proof.
  intros [w0 tx c w1 H | w0 L].
  - exact (exec_bits_kept _ _ _ _ H).
  - apply bits_kept_refl.
Qed.

Lemma later_bits_kept (w w' : World E) :
  later w w' -> bits_kept (nonceBitmap (storage w)) (nonceBitmap (storage w')).
Proof.
  induction 1 as [w0 | w0 w1 w2 Hs _ IH].
  - apply bits_kept_refl.
  - eapply bits_kept_trans; [exact (step_bits_kept _ _ Hs) | exact IH].
Qed.

Lemma succeeds_run (trace : list (Tx * Call)) (w : World E) :
  succeeds trace w = true -> run trace w = Ok (outcome trace w).
Proof.
  unfold succeeds, outcome. destruct (run trace w); [reflexivity|discriminate].
Qed.

Lemma run_later (trace : list (Tx * Call)) (w w' : World E) :
  run trace w = Ok w' -> later w w'.
Proof.
  revert w. induction trace as [|[tx c] rest IH]; intros w H; simpl in H.
  - injection H as <-. apply rtc_refl.
  - apply bind_Ok_inv in H as (w1 & H1 & H2).
    eapply rtc_l; [exact (step_exec _ _ _ _ H1) | exact (IH _ H2)].
Qed.

Lemma succeeds_later (trace : list (Tx * Call)) (w : World E) :
  succeeds trace w = true -> later w (outcome trace w).
Proof. intros H. apply (run_later trace), succeeds_run, H. Qed.

Lemma exec_outcome (tx : Tx) (c : Call) (w : World E) :
  succeeds [(tx, c)] w = true -> exec c tx w = Ok (outcome [(tx, c)] w).
Proof.
  unfold succeeds, outcome. simpl.
  destruct (exec c tx w); [reflexivity|discriminate].
Qed.

(** C7. A nonce [n] below 2^256 is recorded as bit [n mod 256] of word
    [n / 256] of its solver's bitmap, and [isNonceUsed] reads that bit. In
    every later state of the chain, whichever entry points ran in between
    (deposit, settle, refundAddressDeposit, deployAndRecover, cancelNonce,
    cancelNonces and all the others), every bit of every bitmap word that
    was set is still set; so a nonce that is used stays used. *)
Theorem nonce_used_forever (w w' : World E) (solver n : N) :
  n < 2 ^ 256 ->
  later w w' ->
  isNonceUsed solver n w
  = N.testbit (nonceBitmap (storage w) solver (n / 256)) (n mod 256)
  /\ bits_kept (nonceBitmap (storage w)) (nonceBitmap (storage w'))
  /\ (isNonceUsed solver n w = true -> isNonceUsed solver n w' = true).
Proof.
  intros Hn Hlater.
  pose proof (later_bits_kept _ _ Hlater) as Hkept.
  split; [exact (isNonceUsed_testbit _ _ _ Hn)|].
  split; [exact Hkept|].
  rewrite !isNonceUsed_testbit by exact Hn. apply Hkept.
Qed.

End Nonces.

(** Nonce 261, once cancelled, is still used after a registration, a
    deposit and a batch cancellation. *)
Lemma nonce_used_forever_witness :
  isNonceUsed Scenario.solver 261
    (outcome Scenario.busyTrace
       (outcome Scenario.cancelTrace (genesis Scenario.ledger)))
  = true.
Proof.
  refine (proj2 (proj2 (nonce_used_forever
                          (outcome Scenario.cancelTrace
                             (genesis Scenario.ledger))
                          _ Scenario.solver 261 _ _)) _).
  - vm_compute. reflexivity.
  - apply succeeds_later. vm_compute. reflexivity.
  - vm_compute. reflexivity.
Defined.

(** ** Bond accounting *)

Section Bond.

Context {E : Env}.

Lemma genesis_bond_invariant (L : Ledger) : bond_invariant (E := E) (genesis L).
Proof. intros s. simpl. lia. Qed.

(** Every entry point except [executeUnstake] keeps
    [reservedBond <= totalBond]. *)
Lemma exec_bond_invariant (c : Call) (tx : Tx) (w w' : World E) :
  c <> ExecuteUnstake ->
  exec c tx w = Ok w' ->
  bond_invariant w -> bond_invariant w'.
Proof.
  intros Hc H Hinv s.
  destruct c; try congruence; clear Hc; simpl in H; inv_entry H; subst; simpl;
    try apply Hinv;
    match goal with
    | |- context [ (<[?k := _]> _) s ] =>
        pose proof (Hinv k); pose proof (Hinv s);
        destruct (decide (k = s)) as [<-|Hne];
        [ rewrite fn_lookup_insert | rewrite fn_lookup_insert_ne by exact Hne ];
        simpl_world; lia_div
    end.
Qed.

End Bond.

(** C1. The invariant [reservedBond <= totalBond] fails in a reachable
    state. The solver registers a bond of 2000 USDC and requests to unstake
    1000; a deposit then reserves 1500 (5% of 30000), which
    [_reserveBond] allows because it ignores the pending unstake; after the
    delay [executeUnstake] subtracts the 1000 from [totalBond] without
    looking at [reservedBond]. All four transactions succeed and leave
    [totalBond] = 1000 USDC below [reservedBond] = 1500 USDC. *)
Theorem executeUnstake_breaks_bond_invariant :
  let w := outcome Scenario.unstakeTrace (genesis Scenario.ledger) in
  run Scenario.unstakeTrace (genesis Scenario.ledger) = Ok w
  /\ reachable w
  /\ totalBond (solvers (storage w) Scenario.solver) = 1000 * 10 ^ 6
  /\ reservedBond (solvers (storage w) Scenario.solver) = 1500 * 10 ^ 6
  /\ ~ bond_invariant w.
Proof.
  assert (Hs : succeeds Scenario.unstakeTrace (genesis Scenario.ledger) = true)
    by (vm_compute; reflexivity).
  assert (Ht : totalBond (solvers (storage (outcome Scenario.unstakeTrace
                 (genesis Scenario.ledger))) Scenario.solver) = 1000 * 10 ^ 6)
    by (vm_compute; reflexivity).
  assert (Hr : reservedBond (solvers (storage (outcome Scenario.unstakeTrace
                 (genesis Scenario.ledger))) Scenario.solver) = 1500 * 10 ^ 6)
    by (vm_compute; reflexivity).
  cbv zeta. refine (conj _ (conj _ (conj Ht (conj Hr _)))).
  - exact (succeeds_run _ _ Hs).
  - exists Scenario.ledger. exact (succeeds_later _ _ Hs).
  - intros Hinv. specialize (Hinv Scenario.solver).
    rewrite Ht, Hr in Hinv. vm_compute in Hinv. apply Hinv. reflexivity.
Qed.

Section Slash.

Context {E : Env}.

(** C2, amended. When [outputAmount * 500] fits 256 bits, slash returns
    [slashed = min(outputAmount * 500 / 10000, totalBond)] and decrements
    [totalBond] by [slashed]; [reservedBond] is decremented by the
    reservation [outputAmount * 500 / 10000] itself, clamped at zero, not by
    [slashed]. The two decrements of [reservedBond] agree whenever
    [reservedBond <= totalBond]. Nothing else of the solver record and no
    other solver changes. When [outputAmount * 500] does not fit, the
    operation reverts. *)
Theorem slashBond_releases_reservation (solver : address) (outputAmount : N)
  (w : World E) :
  let info := solvers (storage w) solver in
  let reservation := outputAmount * 500 / 10000 in
  let slashed := N.min reservation (totalBond info) in
  (outputAmount * 500 <= MAX_UINT256 ->
   exists w',
     _slashBond solver outputAmount w = Ok (slashed, w')
     /\ let info' := solvers (storage w') solver in
        totalBond info' = totalBond info - slashed
        /\ reservedBond info'
           = (if reservation <=? reservedBond info
              then reservedBond info - reservation else 0)
        /\ (reservedBond info <= totalBond info ->
            reservedBond info'
            = (if slashed <=? reservedBond info
               then reservedBond info - slashed else 0))
        /\ unstakeAmount info' = unstakeAmount info
        /\ unstakeTimestamp info' = unstakeTimestamp info
        /\ registered info' = registered info
        /\ forall other, other <> solver ->
             solvers (storage w') other = solvers (storage w) other)
  /\ (MAX_UINT256 < outputAmount * 500 ->
      _slashBond solver outputAmount w = Revert Panic).
Proof.
  intros info reservation slashed. split.
  - intros Hmul.
    exists (write_solver solver (slashedInfo outputAmount info) w).
    split; [exact (_slashBond_Ok solver outputAmount w Hmul)|].
    simpl. rewrite fn_lookup_insert. simpl.
    change BOND_RESERVATION_BPS with 500. fold reservation. fold slashed.
    repeat split.
    + destruct (N.leb_spec reservation (reservedBond info)); lia.
    + intros Hinv. subst slashed.
      destruct (N.leb_spec reservation (reservedBond info));
        destruct (N.leb_spec (N.min reservation (totalBond info))
                    (reservedBond info)); lia.
    + intros other Hne. apply fn_lookup_insert_ne. congruence.
  - intros Hover. unfold _slashBond, reservationOf, checked_mul.
    change BOND_RESERVATION_BPS with 500.
    destruct (N.leb_spec (outputAmount * 500) MAX_UINT256); [lia|reflexivity].
Qed.

End Slash.

(** S3: slashing the order of 200 USDC takes 10 USDC from the bond. *)
Lemma slashBond_releases_reservation_witness :
  exists w',
    _slashBond Scenario.solver (200 * 10 ^ 6)
      (outcome Scenario.depositTrace (genesis Scenario.ledger))
    = Ok (10 * 10 ^ 6, w')
    /\ totalBond (solvers (storage w') Scenario.solver) = 9990 * 10 ^ 6.
Proof.
  assert (Hmul : 200 * 10 ^ 6 * 500 <= MAX_UINT256)
    by (vm_compute; discriminate).
  destruct (proj1 (slashBond_releases_reservation Scenario.solver
                     (200 * 10 ^ 6)
                     (outcome Scenario.depositTrace
                        (genesis Scenario.ledger))) Hmul)
    as (w' & Hrun & Htotal & _).
  exists w'. split.
  - exact Hrun.
  - rewrite Htotal. vm_compute. reflexivity.
Defined.

(** C2 as stated fails. In the state the unstake trace leads to,
    [totalBond] is 1000 USDC and [reservedBond] 1500 USDC. Slashing for an
    output of 30000 USDC (reservation 1500) returns [slashed] = 1000 and
    sets [reservedBond] to 1500 - 1500 = 0, not to 1500 - 1000 = 500. *)
Lemma slashBond_reserved_counterexample :
  let w := outcome Scenario.unstakeTrace (genesis Scenario.ledger) in
  exists w',
    _slashBond Scenario.solver (30000 * 10 ^ 6) w = Ok (1000 * 10 ^ 6, w')
    /\ reservedBond (solvers (storage w) Scenario.solver) = 1500 * 10 ^ 6
    /\ reservedBond (solvers (storage w') Scenario.solver) = 0
    /\ reservedBond (solvers (storage w') Scenario.solver)
       <> reservedBond (solvers (storage w) Scenario.solver) - 1000 * 10 ^ 6.
Proof.
  cbv zeta. eexists. split; [|split; [|split]].
  - rewrite _slashBond_Ok by (vm_compute; discriminate).
    do 2 f_equal; try (vm_compute; reflexivity).
  - vm_compute. reflexivity.
  - vm_compute. reflexivity.
  - vm_compute. discriminate.
Qed.

(** ** Contract deposit *)

Lemma Ok_exists {A} (r : Result A) (P : A -> Prop) :
  match r with Ok a => P a | Revert _ => False end ->
  exists a, r = Ok a /\ P a.
Proof. destruct r as [a|e]; [eauto | contradiction]. Qed.

Section Deposit.

Context {E : Env}.

(** [deposit] stores the amount the engine received: the difference of its
    balance of the input token across the pull. *)
Lemma deposit_records_received (quote : FirmSwapQuote) (sig : bytes) (tx : Tx)
  (w w' : World E) :
  deposit quote sig tx w = Ok w' ->
  balanceOf (erc20 w) (QuoteLib.inputToken quote) (this E)
  <= balanceOf (erc20 w') (QuoteLib.inputToken quote) (this E)
  /\ inputAmount (orders (storage w') (computeOrderId E quote sig))
     = balanceOf (erc20 w') (QuoteLib.inputToken quote) (this E)
       - balanceOf (erc20 w) (QuoteLib.inputToken quote) (this E).
Proof.
  intros H. inv_entry H. subst. simpl_world.
  rewrite fn_lookup_insert. simpl_world. auto.
Qed.

(** [depositWithPermit2] stores [quote.inputAmount], whatever arrived. *)
Lemma depositWithPermit2_records_quoted (quote : FirmSwapQuote) (sig : bytes)
  (permit : PermitTransferFrom) (psig : bytes) (tx : Tx) (w w' : World E) :
  depositWithPermit2 quote sig permit psig tx w = Ok w' ->
  inputAmount (orders (storage w') (computeOrderId E quote sig))
  = QuoteLib.inputAmount quote.
Proof.
  intros H. inv_entry H. subst. simpl_world.
  rewrite fn_lookup_insert. reflexivity.
Qed.

End Deposit.

(** C3. The claim fails on the Permit2 path. A user deposits against a quote
    for 1000 tokens of an input token that charges 1% on transfer. Through
    [depositWithPermit2] the engine's balance of the input token grows by
    990 tokens but the stored order says [inputAmount] = 1000; through
    [deposit], on the same input, the stored [inputAmount] is the 990
    received. *)
Theorem depositWithPermit2_misses_received :
  let w := outcome Scenario.registerTrace (genesis Scenario.ledger) in
  let tx := Scenario.at_ Scenario.user 1000 in
  let id := computeOrderId Scenario.env Scenario.feeQuote Scenario.solverSig in
  let received (w' : World Scenario.env) :=
    balanceOf (erc20 w') Scenario.feeToken Scenario.firmSwap
    - balanceOf (erc20 w) Scenario.feeToken Scenario.firmSwap in
  (exists w',
     depositWithPermit2 Scenario.feeQuote Scenario.solverSig
       Scenario.feePermit [] tx w = Ok w'
     /\ (received w' = 990 * 10 ^ 18
         /\ inputAmount (orders (storage w') id) = 1000 * 10 ^ 18))
  /\ (exists w',
        deposit Scenario.feeQuote Scenario.solverSig tx w = Ok w'
        /\ (received w' = 990 * 10 ^ 18
            /\ inputAmount (orders (storage w') id) = 990 * 10 ^ 18)).
Proof.
  cbv zeta. split; apply Ok_exists; vm_compute; split; reflexivity.
Qed.

(** ** Refund of a contract deposit *)

Section Refund.

Context {E : Env}.

(** C4, amended. [refund(orderId)] reverts with OrderNotDeposited unless the
    order is DEPOSITED, and with OrderNotExpired when it is DEPOSITED and the
    time is not past [fillDeadline]. For a DEPOSITED order past its deadline
    it succeeds exactly when [outputAmount * 500] fits 256 bits and the
    engine holds the [inputAmount] of the input token and then the slashed
    amount of the bond token. On success it slashes
    [min(5% of outputAmount, totalBond)] from the solver's bond (releasing
    the 5% reservation, clamped at zero), sets the order to REFUNDED and
    changes no other order, transfers [inputAmount] of the input token to
    the user and, when it is positive, the slashed amount of the bond token
    to the user. *)
Theorem refund_spec (orderId : bytes32 E) (tx : Tx) (w : World E) :
  let order := orders (storage w) orderId in
  let info := solvers (storage w) (solver order) in
  let slashed := N.min (outputAmount order * 500 / 10000) (totalBond info) in
  let L1 :=
    transferred (inputToken order) (this E) (user order) (inputAmount order)
      (erc20 w) in
  let L2 :=
    if 0 <? slashed
    then transferred (BOND_TOKEN E) (this E) (user order) slashed L1
    else L1 in
  let funded :=
    inputAmount order <= balanceOf (erc20 w) (inputToken order) (this E)
    /\ slashed <= balanceOf L1 (BOND_TOKEN E) (this E) in
  (state order <> DEPOSITED ->
   refund orderId tx w = Revert OrderNotDeposited)
  /\ (state order = DEPOSITED ->
      block_timestamp tx <= fillDeadline order ->
      refund orderId tx w = Revert OrderNotExpired)
  /\ (state order = DEPOSITED ->
      fillDeadline order < block_timestamp tx ->
      ((exists w', refund orderId tx w = Ok w')
       <-> outputAmount order * 500 <= MAX_UINT256 /\ funded))
  /\ (forall w',
        refund orderId tx w = Ok w' ->
        state order = DEPOSITED
        /\ fillDeadline order < block_timestamp tx
        /\ orders (storage w') orderId = with_state REFUNDED order
        /\ (forall id, id <> orderId ->
             orders (storage w') id = orders (storage w) id)
        /\ totalBond (solvers (storage w') (solver order))
           = totalBond info - slashed
        /\ solvers (storage w') (solver order)
           = slashedInfo (outputAmount order) info
        /\ erc20 w' = L2).
Proof.
  intros order info slashed L1 L2 funded.
  assert (Hstate : forall b : bool,
             negb (bool_decide (state order = DEPOSITED)) = b ->
             if b then state order <> DEPOSITED else state order = DEPOSITED).
  { intros b <-. destruct (bool_decide_reflect (state order = DEPOSITED));
      simpl; assumption. }
  split; [|split; [|split]].
  - intros Hne. unfold refund. fold order.
    rewrite bool_decide_eq_false_2 by exact Hne. reflexivity.
  - intros Heq Hle. unfold refund. fold order.
    rewrite bool_decide_eq_true_2 by exact Heq. simpl.
    apply N.leb_le in Hle. rewrite Hle. reflexivity.
  - intros Heq Hlt. unfold refund. fold order.
    rewrite bool_decide_eq_true_2 by exact Heq. simpl.
    apply N.leb_gt in Hlt. rewrite Hlt. simpl.
    destruct (N.leb_spec (outputAmount order * 500) MAX_UINT256)
      as [Hmul|Hover].
    + rewrite (_slashBond_Ok _ _ _ Hmul). simpl.
      change BOND_RESERVATION_BPS with 500. fold info. fold slashed.
      unfold safeTransfer at 1. unfold erc20_transfer at 1.
      cbn [erc20 write_order write_solver set_storage].
      destruct (N.ltb_spec (balanceOf (erc20 w) (inputToken order) (this E))
                  (inputAmount order)) as [Hlow|Hin].
      * simpl. split; [intros [? ?]; discriminate|].
        intros (_ & Hin & _). lia.
      * simpl. fold L1.
        destruct (N.ltb_spec 0 slashed) as [Hpos|Hzero].
        -- unfold safeTransfer, erc20_transfer.
           cbn [erc20 set_erc20].
           destruct (N.ltb_spec (balanceOf L1 (BOND_TOKEN E) (this E)) slashed)
             as [Hlow|Hbond].
           ++ simpl. split; [intros [? ?]; discriminate|].
              intros (_ & _ & Hbond). lia.
           ++ simpl. split; [|eauto]. intros _. unfold funded. auto.
        -- split; [|eauto]. intros _. unfold funded.
           split; [assumption|]. split; [assumption|]. lia.
    + unfold _slashBond, reservationOf, checked_mul.
      change BOND_RESERVATION_BPS with 500.
      destruct (N.leb_spec (outputAmount order * 500) MAX_UINT256); [lia|].
      simpl. split; [intros [? ?]; discriminate|]. intros [? _]. lia.
  - intros w' H. unfold refund in H. fold order in H.
    apply bind_Ok_inv in H as (u1 & H1 & H).
    apply revertIf_Ok_inv, Hstate in H1.
    apply bind_Ok_inv in H as (u2 & H2 & H).
    apply revertIf_Ok_inv, N.leb_gt in H2.
    apply bind_Ok_inv in H as ([bondSlash w1] & H3 & H).
    apply _slashBond_inv in H3. cbv zeta in H3.
    change BOND_RESERVATION_BPS with 500 in *.
    fold info in H3. fold slashed in H3. destruct H3 as (Hmul & -> & ->).
    apply bind_Ok_inv in H as (w2 & H4 & H).
    apply safeTransfer_inv in H4 as (La & H4 & ->).
    apply erc20_transfer_Ok_iff in H4 as [Hin ->]. simpl_world. fold L1 in H.
    assert (Hfinal : w' = set_erc20 L2
              (write_order orderId (with_state REFUNDED order)
                 (write_solver (solver order)
                    (slashedInfo (outputAmount order) info) w))).
    { unfold L2. destruct (0 <? slashed).
      - apply safeTransfer_inv in H as (Lb & H & ->).
        apply erc20_transfer_Ok_iff in H as [_ ->]. reflexivity.
      - injection H as <-. reflexivity. }
    subst w'. simpl_world.
    repeat split; try assumption.
    + apply fn_lookup_insert.
    + intros id Hid. apply fn_lookup_insert_ne. congruence.
    + rewrite fn_lookup_insert. simpl_world.
      change BOND_RESERVATION_BPS with 500. reflexivity.
    + apply fn_lookup_insert.
Qed.

End Refund.

(** S3: after the deposit of S1 nobody fills; past the deadline anyone's
    [refund] succeeds, the order is REFUNDED and the bond is 10 USDC
    lower. *)
Lemma refund_spec_witness :
  let w := outcome Scenario.depositTrace (genesis Scenario.ledger) in
  let id :=
    computeOrderId Scenario.env (Scenario.quote 0 (200 * 10 ^ 6))
      Scenario.solverSig in
  exists w',
    refund id (Scenario.at_ Scenario.anyone 1421) w = Ok w'
    /\ state (orders (storage w') id) = REFUNDED
    /\ totalBond (solvers (storage w') Scenario.solver) = 9990 * 10 ^ 6.
Proof.
  intros w id.
  destruct (refund_spec id (Scenario.at_ Scenario.anyone 1421) w)
    as (_ & _ & Hiff & Heff).
  assert (Hstate : state (orders (storage w) id) = DEPOSITED)
    by (vm_compute; reflexivity).
  assert (Hlate : fillDeadline (orders (storage w) id)
                  < block_timestamp (Scenario.at_ Scenario.anyone 1421))
    by (vm_compute; reflexivity).
  destruct (proj2 (Hiff Hstate Hlate)) as [w' Hw'].
  { split; [|split]; vm_compute; discriminate. }
  exists w'. split; [exact Hw'|].
  destruct (Heff w' Hw') as (_ & _ & Horder & _ & Htotal & _).
  split.
  - rewrite Horder. reflexivity.
  - replace Scenario.solver with (solver (orders (storage w) id))
      by (vm_compute; reflexivity).
    rewrite Htotal. vm_compute. reflexivity.
Defined.

(** C4 as stated fails: a refund can slash less than 5% of [outputAmount].
    After the drain trace the order for 20000 USDC of output is DEPOSITED
    and past its deadline, and 5% of its output is 1000 USDC, but the
    solver's bond is down to 999.95 USDC. [refund] succeeds, takes the whole
    999.95 USDC from the bond and pays that to the user. *)
Lemma refund_slash_counterexample :
  let w := outcome Scenario.drainTrace (genesis Scenario.ledger) in
  let id :=
    computeOrderId Scenario.env (Scenario.quote 0 (20000 * 10 ^ 6))
      Scenario.solverSig in
  reachable w
  /\ state (orders (storage w) id) = DEPOSITED
  /\ fillDeadline (orders (storage w) id) < 1421
  /\ outputAmount (orders (storage w) id) * 500 / 10000 = 1000 * 10 ^ 6
  /\ exists w',
       refund id (Scenario.at_ Scenario.anyone 1421) w = Ok w'
       /\ (totalBond (solvers (storage w) Scenario.solver)
           - totalBond (solvers (storage w') Scenario.solver) = 999950000
           /\ balanceOf (erc20 w') Scenario.usdc Scenario.user
              - balanceOf (erc20 w) Scenario.usdc Scenario.user = 999950000).
Proof.
  cbv zeta. split; [|split; [|split; [|split]]].
  - exists Scenario.ledger. apply succeeds_later. vm_compute. reflexivity.
  - vm_compute. reflexivity.
  - vm_compute. reflexivity.
  - vm_compute. reflexivity.
  - apply Ok_exists. vm_compute. split; reflexivity.
Qed.

(** ** Refund of an address deposit *)

Section RefundAddressDeposit.

Context {E : Env}.

Lemma _validateQuoteCore_inv (quote : FirmSwapQuote) (sig : bytes)
  (w : World E) (u : unit) :
  _validateQuoteCore quote sig w = Ok u ->
  QuoteLib.user quote <> 0
  /\ QuoteLib.inputAmount quote <> 0
  /\ MIN_ORDER <= QuoteLib.outputAmount quote
  /\ QuoteLib.depositDeadline quote < QuoteLib.fillDeadline quote
  /\ QuoteLib.outputChainId quote = chainid E
  /\ registered (solvers (storage w) (QuoteLib.solver quote)) = true
  /\ N.land (nonceBitmap (storage w) (QuoteLib.solver quote)
               (uint248 (N.shiftr (QuoteLib.nonce quote) 8)))
            (uint256 (N.shiftl 1 (uint8 (QuoteLib.nonce quote)))) = 0
  /\ recover E quote sig = Some (QuoteLib.solver quote).
Proof.
  unfold _validateQuoteCore. intros H. inv_ok.
  apply orb_false_iff in Hstep0 as [Hin Hout].
  apply negb_false_iff in Hstep3, Hstep4, Hstep5, H.
  repeat split.
  - now apply N.eqb_neq.
  - now apply N.eqb_neq.
  - now apply N.ltb_ge.
  - now apply N.leb_gt.
  - now apply N.eqb_eq.
  - assumption.
  - now apply N.eqb_eq.
  - apply N.eqb_eq in H. congruence.
Qed.

(** A quote that passes validation reserves at least 0.05 units of bond. *)
Lemma reservation_positive (outputAmount : N) :
  MIN_ORDER <= outputAmount -> 0 < outputAmount * 500 / 10000.
Proof.
  intros H. apply N.lt_le_trans with (10 ^ 6 * 500 / 10000).
  - reflexivity.
  - apply N.Div0.div_le_mono. apply N.mul_le_mono_r. exact H.
Qed.

(** C5. For a quote that passes validation, has no stored order and is past
    its fill deadline, with [b] the deposit address's balance of the input
    token: when [b = 0] the call reverts with InsufficientDeposit. When
    [b > 0] the call succeeds exactly when no proxy sits at the deposit
    address yet, the engine's balance does not shrink by the sweep and, for
    [b >= inputAmount], the reservation fits 256 bits and the engine holds
    the slashed bond. On success the order is stored as REFUNDED, the proxy
    is deployed, the deposit is swept to the engine and what arrived is sent
    to the user; if [b >= inputAmount] the solver's bond is slashed (by
    [min(5% of outputAmount, totalBond)], paid to the user), if
    [b < inputAmount] no solver record changes and nothing else is paid. So
    a solver with a positive bond loses bond if and only if
    [b >= inputAmount]. *)
Theorem refundAddressDeposit_spec (quote : FirmSwapQuote) (sig : bytes)
  (tx : Tx) (w : World E) :
  let id := computeOrderId E quote sig in
  let depositAddr := computeDepositAddress E id in
  let token := QuoteLib.inputToken quote in
  let b := balanceOf (erc20 w) token depositAddr in
  let info := solvers (storage w) (QuoteLib.solver quote) in
  let slashed :=
    N.min (QuoteLib.outputAmount quote * 500 / 10000) (totalBond info) in
  let L1 := transferred token depositAddr (this E) b (erc20 w) in
  let received :=
    balanceOf L1 token (this E) - balanceOf (erc20 w) token (this E) in
  let L2 := transferred token (this E) (QuoteLib.user quote) received L1 in
  _validateQuoteForRefund quote sig w = Ok tt ->
  state (orders (storage w) id) = NONE ->
  QuoteLib.fillDeadline quote < block_timestamp tx ->
  (b = 0 -> refundAddressDeposit quote sig tx w = Revert InsufficientDeposit)
  /\ (0 < b ->
      ((exists w', refundAddressDeposit quote sig tx w = Ok w')
       <-> deployed w depositAddr = false
           /\ balanceOf (erc20 w) token (this E) <= balanceOf L1 token (this E)
           /\ (QuoteLib.inputAmount quote <= b ->
               QuoteLib.outputAmount quote * 500 <= MAX_UINT256
               /\ slashed <= balanceOf L2 (BOND_TOKEN E) (this E))))
  /\ (forall w',
        refundAddressDeposit quote sig tx w = Ok w' ->
        0 < b
        /\ orders (storage w') id = orderOf quote REFUNDED
        /\ deployed w' depositAddr = true
        /\ (QuoteLib.inputAmount quote <= b ->
            solvers (storage w') (QuoteLib.solver quote)
            = slashedInfo (QuoteLib.outputAmount quote) info
            /\ erc20 w'
               = if 0 <? slashed
                 then transferred (BOND_TOKEN E) (this E) (QuoteLib.user quote)
                        slashed L2
                 else L2)
        /\ (b < QuoteLib.inputAmount quote ->
            solvers (storage w') = solvers (storage w) /\ erc20 w' = L2)
        /\ (0 < totalBond info ->
            (totalBond (solvers (storage w') (QuoteLib.solver quote))
             < totalBond info
             <-> QuoteLib.inputAmount quote <= b))).
Proof.
  intros id depositAddr token b info slashed L1 received L2 Hvalid Hnone Hlate.
  pose proof (_validateQuoteCore_inv _ _ _ _ Hvalid)
    as (_ & _ & Hmin & _ & _ & _ & Hnonce & _).
  apply reservation_positive in Hmin.
  unfold refundAddressDeposit. rewrite Hvalid. cbn [bind].
  unfold orderExists. fold id. rewrite bool_decide_eq_true_2 by exact Hnone.
  cbn [bind revertIf negb]. apply N.leb_gt in Hlate. rewrite Hlate.
  cbn [bind revertIf]. fold depositAddr. fold token. fold b.
  destruct (N.eqb_spec b 0) as [Hb0|Hb].
  { cbn [bind revertIf]. split; [reflexivity|]. split; [lia|]. intros ? [=]. }
  cbn [bind revertIf]. split; [contradiction|].
  rewrite (_useNonce_Ok _ _ _ Hnonce). cbn [bind].
  set (w1 := set_storage _ w).
  assert (Htail : forall bondSlash (w2 : World E),
             erc20 w2 = erc20 w -> deployed w2 = deployed w ->
             (let! w3 := deployProxy id (write_order id (orderOf quote REFUNDED) w2) in
              let! w4 := sweep depositAddr token (this E) w3 in
              let! actualReceived :=
                checked_sub (balanceOf (erc20 w4) token (this E))
                  (balanceOf (erc20 (write_order id (orderOf quote REFUNDED) w2))
                     token (this E)) in
              let! w5 := safeTransfer token (QuoteLib.user quote) actualReceived w4 in
              if 0 <? bondSlash
              then safeTransfer (BOND_TOKEN E) (QuoteLib.user quote) bondSlash w5
              else Ok w5)
             = if deployed w depositAddr then Revert FailedDeployment
               else if balanceOf L1 token (this E) <? balanceOf (erc20 w) token (this E)
               then Revert Panic
               else if (0 <? bondSlash) && (balanceOf L2 (BOND_TOKEN E) (this E) <? bondSlash)
               then Revert SafeERC20FailedOperation
               else Ok (set_erc20
                          (if 0 <? bondSlash
                           then transferred (BOND_TOKEN E) (this E)
                                  (QuoteLib.user quote) bondSlash L2
                           else L2)
                          (set_deployed (<[depositAddr := true]> (deployed w))
                             (write_order id (orderOf quote REFUNDED) w2)))).
  { intros bondSlash w2 HL Hd.
    destruct (deployed w depositAddr) eqn:Hdep.
    - rewrite deployProxy_Revert; [reflexivity|].
      cbn [deployed write_order set_storage]. rewrite Hd. exact Hdep.
    - rewrite deployProxy_Ok
        by (cbn [deployed write_order set_storage]; rewrite Hd; exact Hdep).
      cbn [bind]. fold depositAddr.
      rewrite sweep_Ok by (cbn [deployed set_deployed]; apply fn_lookup_insert).
      cbn [bind erc20 set_deployed write_order set_storage]. rewrite HL.
      fold b. assert (Hpos : (0 <? b) = true) by (apply N.ltb_lt; lia).
      rewrite Hpos. cbn [erc20 set_erc20]. fold L1.
      destruct (N.ltb_spec (balanceOf L1 token (this E))
                  (balanceOf (erc20 w) token (this E))) as [Hlow|Hge].
      + rewrite checked_sub_Revert by exact Hlow. reflexivity.
      + rewrite checked_sub_Ok by exact Hge. cbn [bind]. fold received.
        rewrite safeTransfer_Ok by (cbn [erc20 set_erc20]; unfold received; lia).
        cbn [bind erc20 set_erc20]. fold L2.
        destruct (N.ltb_spec 0 bondSlash) as [Hs|Hs]; cbn [andb].
        * destruct (N.ltb_spec (balanceOf L2 (BOND_TOKEN E) (this E)) bondSlash)
            as [Hlow|Hfund].
          -- rewrite safeTransfer_Revert by exact Hlow. reflexivity.
          -- rewrite safeTransfer_Ok by exact Hfund.
             unfold set_erc20, set_deployed, write_order, set_storage.
             cbn [storage deployed erc20]. rewrite Hd. reflexivity.
        * unfold set_erc20, set_deployed, write_order, set_storage.
          cbn [storage deployed erc20]. rewrite Hd. reflexivity. }
  destruct (N.leb_spec (QuoteLib.inputAmount quote) b) as [Hfull|Hpart].
  - (* full deposit: the bond is slashed *)
    destruct (N.leb_spec (QuoteLib.outputAmount quote * 500) MAX_UINT256)
      as [Hmul|Hover].
    + rewrite (_slashBond_Ok _ _ _ Hmul). cbn [bind].
      change BOND_RESERVATION_BPS with 500.
      cbn [solvers storage w1 set_storage set_nonceBitmap].
      fold info. fold slashed.
      rewrite Htail by reflexivity.
      destruct (deployed w depositAddr) eqn:Hdep.
      { split; [intros _; split; [intros [? [=]] | intros [[=] _]]
               | intros ? [=]]. }
      destruct (N.ltb_spec (balanceOf L1 token (this E))
                  (balanceOf (erc20 w) token (this E))) as [Hlow|Hge].
      { split; [intros _; split; [intros [? [=]] | intros (_ & ? & _); lia]
               | intros ? [=]]. }
      assert (Heffects :
                forall Lf,
                  Lf = (if 0 <? slashed
                        then transferred (BOND_TOKEN E) (this E)
                               (QuoteLib.user quote) slashed L2
                        else L2) ->
                  forall w',
                    Ok (set_erc20 Lf
                          (set_deployed (<[depositAddr:=true]> (deployed w))
                             (write_order id (orderOf quote REFUNDED)
                                (write_solver (QuoteLib.solver quote)
                                   (slashedInfo (QuoteLib.outputAmount quote)
                                      info) w1)))) = Ok w' ->
                    0 < b
                    /\ orders (storage w') id = orderOf quote REFUNDED
                    /\ deployed w' depositAddr = true
                    /\ (QuoteLib.inputAmount quote <= b ->
                        solvers (storage w') (QuoteLib.solver quote)
                        = slashedInfo (QuoteLib.outputAmount quote) info
                        /\ erc20 w'
                           = if 0 <? slashed
                             then transferred (BOND_TOKEN E) (this E)
                                    (QuoteLib.user quote) slashed L2
                             else L2)
                    /\ (b < QuoteLib.inputAmount quote ->
                        solvers (storage w') = solvers (storage w)
                        /\ erc20 w' = L2)
                    /\ (0 < totalBond info ->
                        (totalBond (solvers (storage w')
                                      (QuoteLib.solver quote))
                         < totalBond info
                         <-> QuoteLib.inputAmount quote <= b))).
      { intros Lf -> w' [= <-].
        cbn [storage deployed erc20 orders solvers set_erc20 set_deployed
             write_order write_solver set_storage set_orders set_solvers].
        rewrite !fn_lookup_insert.
        split; [lia|]. split; [reflexivity|]. split; [reflexivity|].
        split; [intros _; split; reflexivity|].
        split; [intros ?; lia|].
        intros Htotal. split; [intros _; exact Hfull|]. intros _.
        unfold slashedInfo. cbn [totalBond with_totalBond with_reservedBond].
        change BOND_RESERVATION_BPS with 500. lia. }
      destruct (N.ltb_spec 0 slashed) as [Hs|Hs]; cbn [andb].
      * destruct (N.ltb_spec (balanceOf L2 (BOND_TOKEN E) (this E)) slashed)
          as [Hunfunded|Hfunded].
        -- split; [intros _; split; [intros [? [=]]|] | intros ? [=]].
           intros (_ & _ & Hc). destruct (Hc Hfull). lia.
        -- split; [intros _; split; [|eauto] | apply Heffects].
           ++ intros _. auto.
           ++ reflexivity.
      * split; [intros _; split; [|eauto] | apply Heffects].
        -- intros _. split; [reflexivity|]. split; [assumption|].
           intros _. split; [assumption|]. lia.
        -- reflexivity.
    + (* the reservation overflows: the slash reverts *)
      unfold _slashBond, reservationOf, checked_mul.
      change BOND_RESERVATION_BPS with 500.
      destruct (N.leb_spec (QuoteLib.outputAmount quote * 500) MAX_UINT256);
        [lia|].
      cbn [bind].
      split; [intros _; split; [intros [? [=]]|] | intros ? [=]].
      intros (_ & _ & Hc). destruct (Hc Hfull). lia.
  - (* partial deposit: no slash *)
    cbn [bind]. rewrite Htail by reflexivity.
    assert (H00 : (0 <? 0) = false) by reflexivity. rewrite H00. cbn [andb].
    destruct (deployed w depositAddr) eqn:Hdep.
    { split; [intros _; split; [intros [? [=]] | intros [[=] _]]
             | intros ? [=]]. }
    destruct (N.ltb_spec (balanceOf L1 token (this E))
                (balanceOf (erc20 w) token (this E))) as [Hlow|Hge].
    { split; [intros _; split; [intros [? [=]] | intros (_ & ? & _); lia]
             | intros ? [=]]. }
    split.
    + intros _. split; [|eauto]. intros _.
      split; [reflexivity|]. split; [assumption|]. intros ?. lia.
    + intros w' [= <-].
      cbn [storage deployed erc20 orders solvers set_erc20 set_deployed
           write_order write_solver set_storage set_orders set_solvers w1
           set_nonceBitmap].
      rewrite !fn_lookup_insert.
      split; [lia|]. split; [reflexivity|]. split; [reflexivity|].
      split; [intros ?; lia|].
      split; [intros _; split; reflexivity|].
      intros Htotal. fold info. split; intros ?; lia.
Qed.

End RefundAddressDeposit.

(** S5: 1 wei sits at the deposit address of the quote with nonce 2; past
    the deadline anyone's [refundAddressDeposit] succeeds, the order is
    REFUNDED and the solver's bond is still 10000 USDC. *)
Lemma refundAddressDeposit_spec_witness :
  let w := outcome Scenario.registerTrace (genesis Scenario.ledger) in
  let q := Scenario.quote 2 (200 * 10 ^ 6) in
  exists w',
    refundAddressDeposit q Scenario.solverSig
      (Scenario.at_ Scenario.anyone 1421) w = Ok w'
    /\ totalBond (solvers (storage w') Scenario.solver) = 10000 * 10 ^ 6
    /\ state (orders (storage w')
                (computeOrderId Scenario.env q Scenario.solverSig))
       = REFUNDED.
Proof.
  intros w q.
  destruct (refundAddressDeposit_spec q Scenario.solverSig
              (Scenario.at_ Scenario.anyone 1421) w)
    as (_ & Hiff & Heff).
  { vm_compute. reflexivity. }
  { vm_compute. reflexivity. }
  { vm_compute. reflexivity. }
  destruct (proj2 (Hiff ltac:(vm_compute; reflexivity))) as [w' Hw'].
  { split; [vm_compute; reflexivity|].
    split; [vm_compute; discriminate|].
    vm_compute. intros Hfull. exfalso. apply Hfull. reflexivity. }
  destruct (Heff w' Hw') as (_ & Horder & _ & _ & Hpartial & _).
  destruct Hpartial as [Hsolvers _]; [vm_compute; reflexivity|].
  exists w'. split; [exact Hw'|]. split.
  - rewrite Hsolvers. vm_compute. reflexivity.
  - rewrite Horder. reflexivity.
Defined.

(** ** Settlement of an address deposit and excess balances *)

Section Settle.

Context {E : Env}.

Lemma erc20_transferFrom_feeBps (token spender from to : address) (amount : N)
  (L L' : Ledger) :
  erc20_transferFrom token spender from to amount L = Ok L' ->
  feeBps L' = feeBps L.
Proof.
  unfold erc20_transferFrom. intros H.
  destruct (allowance L token from spender =? MAX_UINT256).
  - apply erc20_transfer_Ok_iff in H as [_ ->]. reflexivity.
  - destruct (allowance L token from spender <? amount); [discriminate|].
    apply erc20_transfer_Ok_iff in H as [_ ->]. reflexivity.
Qed.

(** What a transfer without fee adds to a recipient other than the sender. *)
Lemma transferred_recipient (token from to : address) (amount : N) (L : Ledger) :
  feeBps L token = 0 -> to <> from ->
  balanceOf (transferred token from to amount L) token to
  = balanceOf L token to + amount.
Proof.
  intros Hfee Hne. unfold transferred, credited. cbn [balanceOf].
  rewrite !fn_lookup_insert, Hfee.
  rewrite fn_lookup_insert_ne by congruence.
  rewrite N.mul_0_r. change (0 / 10000) with 0. lia.
Qed.

Lemma min_if (r a : N) : (if a <? r then a else r) = N.min r a.
Proof. destruct (N.ltb_spec a r); lia. Qed.

Lemma settle_effects (quote : FirmSwapQuote) (sig : bytes) (tx : Tx)
  (w : World E) :
  let id := computeOrderId E quote sig in
  let depositAddr := computeDepositAddress E id in
  let token := QuoteLib.inputToken quote in
  let user := QuoteLib.user quote in
  let b := balanceOf (erc20 w) token depositAddr in
  let L1 := transferred token depositAddr (this E) b (erc20 w) in
  let received :=
    balanceOf L1 token (this E) - balanceOf (erc20 w) token (this E) in
  let toSolver := N.min received (QuoteLib.inputAmount quote) in
  forall w',
    settle quote sig tx w = Ok w' ->
    QuoteLib.inputAmount quote <= b
    /\ orders (storage w') id = orderOf quote SETTLED
    /\ excessBalances (storage w') user token
       = excessBalances (storage w) user token + (received - toSolver)
    /\ (forall u t, (u, t) <> (user, token) ->
        excessBalances (storage w') u t = excessBalances (storage w) u t)
    /\ exists L2,
         erc20_transferFrom (QuoteLib.outputToken quote) (this E)
           (msg_sender tx) user (QuoteLib.outputAmount quote) L1 = Ok L2
         /\ toSolver <= balanceOf L2 token (this E)
         /\ erc20 w' = transferred token (this E) (QuoteLib.solver quote)
                         toSolver L2
         /\ (feeBps (erc20 w) token = 0 ->
             QuoteLib.solver quote <> this E ->
             balanceOf (erc20 w') token (QuoteLib.solver quote)
             = balanceOf L2 token (QuoteLib.solver quote) + toSolver).
Proof.
  cbv zeta. intros w' H.
  unfold settle in H. apply bind_Ok_inv in H as ([] & Hv & H).
  unfold _validateQuote in Hv. apply bind_Ok_inv in Hv as ([] & Hv & _).
  apply _validateQuoteCore_inv in Hv as (_ & Hin & _).
  inv_entry H; inv_ledger; subst; simpl_world.
  all: try (exfalso; apply N.ltb_ge in Hstep0;
            match goal with Hz : balanceOf (erc20 _) _ _ = 0 |- _ =>
              rewrite Hz in Hstep0 end; lia).
  all: rewrite ?min_if in *.
  all: apply N.ltb_ge in Hstep0.
  all: split; [exact Hstep0|].
  all: split; [apply fn_lookup_insert|].
  all: match goal with
       | Hx : erc20_transferFrom _ _ _ _ _ ?L1 = Ok ?x |- _ =>
           pose proof (erc20_transferFrom_feeBps _ _ _ _ _ _ _ Hx) as Hfee2
       end.
  - (* an excess is credited *)
    split; [rewrite !fn_lookup_insert; reflexivity|].
    split.
    + intros u t Hne.
      destruct (decide (QuoteLib.user quote = u)) as [<-|Hu].
      * rewrite fn_lookup_insert. apply fn_lookup_insert_ne. congruence.
      * rewrite fn_lookup_insert_ne by exact Hu. reflexivity.
    + eexists. split; [eassumption|]. split; [assumption|].
      split; [reflexivity|]. intros Hfee Hne.
      apply transferred_recipient; [|exact Hne].
      rewrite Hfee2. exact Hfee.
  - (* nothing in excess *)
    apply N.ltb_ge in Heqb.
    split; [lia|].
    split; [reflexivity|].
    eexists. split; [eassumption|]. split; [assumption|].
    split; [reflexivity|]. intros Hfee Hne.
    apply transferred_recipient; [|exact Hne].
    rewrite Hfee2. exact Hfee.
Qed.

Lemma withdrawExcess_effects (token : address) (tx : Tx) (w : World E) :
  let user := msg_sender tx in
  let amount := excessBalances (storage w) user token in
  (amount = 0 -> withdrawExcess token tx w = Revert NoExcessBalance)
  /\ (0 < amount ->
      ((exists w', withdrawExcess token tx w = Ok w')
       <-> amount <= balanceOf (erc20 w) token (this E)))
  /\ (forall w',
        withdrawExcess token tx w = Ok w' ->
        0 < amount
        /\ excessBalances (storage w') user token = 0
        /\ (forall u t, (u, t) <> (user, token) ->
            excessBalances (storage w') u t = excessBalances (storage w) u t)
        /\ erc20 w' = transferred token (this E) user amount (erc20 w)
        /\ (feeBps (erc20 w) token = 0 -> user <> this E ->
            balanceOf (erc20 w') token user
            = balanceOf (erc20 w) token user + amount)).
Proof.
  cbv zeta. unfold withdrawExcess.
  destruct (N.eqb_spec (excessBalances (storage w) (msg_sender tx) token) 0)
    as [Hz|Hnz]; cbn [bind revertIf].
  { split; [reflexivity|]. split; [lia|]. intros ? [=]. }
  split; [contradiction|].
  unfold safeTransfer, erc20_transfer. cbn [erc20 set_storage].
  destruct (N.ltb_spec (balanceOf (erc20 w) token (this E))
              (excessBalances (storage w) (msg_sender tx) token))
    as [Hlow|Hfunded]; cbn [bind].
  { split; [intros _; split; [intros [? [=]] | lia] | intros ? [=]]. }
  split; [intros _; split; eauto|].
  intros w' [= <-]. simpl_world. rewrite !fn_lookup_insert.
  split; [lia|]. split; [reflexivity|]. split.
  - intros u t Hne.
    destruct (decide (msg_sender tx = u)) as [<-|Hu].
    + rewrite fn_lookup_insert. apply fn_lookup_insert_ne. congruence.
    + rewrite fn_lookup_insert_ne by exact Hu. reflexivity.
  - split; [reflexivity|]. intros Hfee Hne.
    apply transferred_recipient; assumption.
Qed.

(** C6. For every successful [settle]: the deposit address held at least
    [quote.inputAmount]; with [received] the growth of the engine's balance
    of the input token by the sweep, the engine transfers exactly
    [min(received, inputAmount)] of the input token to the solver (which a
    token without fee credits in full) and [excessBalances[user][inputToken]]
    grows by [received - min(received, inputAmount)], no other excess
    balance changing. For every [withdrawExcess(token)]: it reverts with
    NoExcessBalance when the caller's balance for the token is zero;
    otherwise it succeeds exactly when the engine holds that amount, and
    then transfers the whole accumulated amount to the caller and sets the
    balance to zero. *)
Theorem settle_excess_withdraw (quote : FirmSwapQuote) (sig : bytes) (tx : Tx)
  (w : World E) (withdrawn : address) (tx' : Tx) (wx : World E) :
  (let id := computeOrderId E quote sig in
   let depositAddr := computeDepositAddress E id in
   let token := QuoteLib.inputToken quote in
   let user := QuoteLib.user quote in
   let b := balanceOf (erc20 w) token depositAddr in
   let L1 := transferred token depositAddr (this E) b (erc20 w) in
   let received :=
     balanceOf L1 token (this E) - balanceOf (erc20 w) token (this E) in
   let toSolver := N.min received (QuoteLib.inputAmount quote) in
   forall w',
     settle quote sig tx w = Ok w' ->
     QuoteLib.inputAmount quote <= b
     /\ orders (storage w') id = orderOf quote SETTLED
     /\ excessBalances (storage w') user token
        = excessBalances (storage w) user token + (received - toSolver)
     /\ (forall u t, (u, t) <> (user, token) ->
         excessBalances (storage w') u t = excessBalances (storage w) u t)
     /\ exists L2,
          erc20_transferFrom (QuoteLib.outputToken quote) (this E)
            (msg_sender tx) user (QuoteLib.outputAmount quote) L1 = Ok L2
          /\ toSolver <= balanceOf L2 token (this E)
          /\ erc20 w' = transferred token (this E) (QuoteLib.solver quote)
                          toSolver L2
          /\ (feeBps (erc20 w) token = 0 ->
              QuoteLib.solver quote <> this E ->
              balanceOf (erc20 w') token (QuoteLib.solver quote)
              = balanceOf L2 token (QuoteLib.solver quote) + toSolver))
  /\ (let user := msg_sender tx' in
      let amount := excessBalances (storage wx) user withdrawn in
      (amount = 0 -> withdrawExcess withdrawn tx' wx = Revert NoExcessBalance)
      /\ (0 < amount ->
          ((exists w', withdrawExcess withdrawn tx' wx = Ok w')
           <-> amount <= balanceOf (erc20 wx) withdrawn (this E)))
      /\ (forall w',
            withdrawExcess withdrawn tx' wx = Ok w' ->
            0 < amount
            /\ excessBalances (storage w') user withdrawn = 0
            /\ (forall u t, (u, t) <> (user, withdrawn) ->
                excessBalances (storage w') u t
                = excessBalances (storage wx) u t)
            /\ erc20 w' = transferred withdrawn (this E) user amount (erc20 wx)
            /\ (feeBps (erc20 wx) withdrawn = 0 -> user <> this E ->
                balanceOf (erc20 w') withdrawn user
                = balanceOf (erc20 wx) withdrawn user + amount))).
Proof.
  split.
  - exact (settle_effects quote sig tx w).
  - exact (withdrawExcess_effects withdrawn tx' wx).
Qed.

End Settle.


(** S4: the deposit address of the quote with nonce 3 holds 200 tokens more
    than the quoted 1148. After the solver's [settle] the user's excess
    balance is 200 tokens; the user's [withdrawExcess] then succeeds and
    leaves it at zero. *)
Lemma settle_excess_withdraw_witness :
  let q := Scenario.quote 3 (200 * 10 ^ 6) in
  let settleTx := Scenario.at_ Scenario.solver 1000 in
  let withdrawTx := Scenario.at_ Scenario.user 1001 in
  let w := outcome Scenario.registerTrace (genesis Scenario.ledger) in
  let w1 := outcome [(settleTx, Settle q Scenario.solverSig)] w in
  let w2 := outcome [(withdrawTx, WithdrawExcess Scenario.brla)] w1 in
  settle q Scenario.solverSig settleTx w = Ok w1
  /\ excessBalances (storage w1) Scenario.user Scenario.brla = 200 * 10 ^ 18
  /\ withdrawExcess Scenario.brla withdrawTx w1 = Ok w2
  /\ excessBalances (storage w2) Scenario.user Scenario.brla = 0.
Proof.
  intros q settleTx withdrawTx w w1 w2.
  pose proof (exec_outcome settleTx (Settle q Scenario.solverSig) w
                ltac:(vm_compute; reflexivity)) as H1.
  pose proof (exec_outcome withdrawTx (WithdrawExcess Scenario.brla) w1
                ltac:(vm_compute; reflexivity)) as H2.
  cbn [exec] in H1, H2. fold w1 in H1. fold w2 in H2.
  destruct (settle_excess_withdraw q Scenario.solverSig settleTx w
              Scenario.brla withdrawTx w1) as [Hsettle (_ & _ & Hwithdraw)].
  destruct (Hsettle w1 H1) as (_ & _ & Hexcess & _).
  destruct (Hwithdraw w2 H2) as (_ & Hzero & _).
  split; [exact H1|]. split; [|split; [exact H2 | exact Hzero]].
  change (excessBalances (storage w1) (QuoteLib.user q)
            (QuoteLib.inputToken q) = 200 * 10 ^ 18).
  rewrite Hexcess. vm_compute. reflexivity.
Defined.

(** ** Recovery from a deployed proxy *)

(** *** Calls into the engine made by a token *)

Section AnyTokenFacts.

Context {E : Env}.




Section Calls.

Context (tokens : address -> option (AnyToken.TokenCode (E := E))).







(** With a token that only moves balances the entry points are those of
    [exec]. *)
Lemma plain_sweep (proxy token to : address) (now : N) (w : World E) :
  tokens token = Some AnyToken.plain ->
  AnyToken.sweep tokens proxy token to now w = sweep proxy token to w.
Proof.
  intros H. unfold AnyToken.sweep, sweep, AnyToken.balanceOfCall,
    AnyToken.safeTransfer.
  rewrite H. destruct (deployed w proxy); simpl; [|reflexivity].
  destruct (0 <? balanceOf (erc20 w) token proxy); [|reflexivity].
  destruct (erc20_transfer _ _ _ _ _); reflexivity.
Qed.

Lemma plain_recoverFromProxy (quote : FirmSwapQuote) (sig : bytes)
  (token : address) (tx : Tx) (w : World E) :
  tokens token = Some AnyToken.plain ->
  AnyToken.recoverFromProxy tokens quote sig token tx w
  = recoverFromProxy quote sig token tx w.
Proof.
  intros H. unfold AnyToken.recoverFromProxy, recoverFromProxy.
  now rewrite (plain_sweep _ _ _ _ _ H).
Qed.

Lemma plain_deployAndRecover (quote : FirmSwapQuote) (sig : bytes)
  (token : address) (tx : Tx) (w : World E) :
  tokens token = Some AnyToken.plain ->
  AnyToken.deployAndRecover tokens quote sig token tx w
  = deployAndRecover quote sig token tx w.
Proof.
  intros H. unfold AnyToken.deployAndRecover, deployAndRecover.
  destruct (revertIf (token =? QuoteLib.inputToken quote) InvalidQuote);
    [|reflexivity]; simpl.
  destruct (_validateQuoteForRefund quote sig w); [|reflexivity]; simpl.
  destruct (revertIf (orderExists _ w) OrderAlreadyExists);
    [|reflexivity]; simpl.
  destruct (revertIf (block_timestamp tx <=? _) OrderNotExpired);
    [|reflexivity]; simpl.
  destruct (_useNonce _ _ w) as [w1|]; [|reflexivity]; simpl.
  unfold AnyToken.balanceOfCall. rewrite H. simpl.
  destruct (deployProxy _ _) as [w2|]; [|reflexivity]; simpl.
  rewrite (plain_sweep _ _ _ _ _ H).
  destruct (sweep _ _ _ w2) as [w3|]; [|reflexivity]; simpl.
  destruct (checked_sub _ _) as [r|]; [|reflexivity]; simpl.
  destruct (0 <? r); [|reflexivity].
  unfold AnyToken.safeTransfer, safeTransfer. rewrite H.
  destruct (erc20_transfer _ _ _ _ _); reflexivity.
Qed.


End Calls.

End AnyTokenFacts.

Lemma Ok_or_default {A} (r : Result A) (d : A) :
  match r with Ok _ => true | Revert _ => false end = true ->
  r = Ok (match r with Ok a => a | Revert _ => d end).
Proof. destruct r; [reflexivity | discriminate]. Qed.

Section Recover.

Context {E : Env}.





Context (tokens : address -> option (AnyToken.TokenCode (E := E))).


End Recover.



Lemma hookedWorld_reachable : reachable Scenario.hookedWorld.
Proof.
  exists Scenario.ledger.
  pose proof (succeeds_later Scenario.registerTrace (genesis Scenario.ledger)
                ltac:(vm_compute; reflexivity)) as H1.
  pose proof (succeeds_later
                [ (Scenario.at_ Scenario.solver 1000,
                   Settle (Scenario.quote 3 (200 * 10 ^ 6)) Scenario.solverSig) ]
                (outcome Scenario.registerTrace (genesis Scenario.ledger))
                ltac:(vm_compute; reflexivity)) as H2.
  unfold later in *.
  exact (rtc_trans _ _ _ H1 (rtc_r _ _ _ H2 (step_ledger _ _))).
Qed.


(** C9 as stated fails. After the settlement of S4 a token contract has
    credited one unit of itself to the deposit address of the settled
    quote. Anyone calls [recoverFromProxy] for that token: the proxy asks
    the token to transfer the unit, and the token, before it returns, has
    the engine cancel its nonce 5 and register it as a solver. The call
    succeeds, and a nonce word and a solver record are not what they
    were. *)
Lemma recoverFromProxy_reentry_counterexample :
  let q := Scenario.quote 3 (200 * 10 ^ 6) in
  let w := Scenario.hookedWorld in
  let w' := Scenario.hookRecoveredWorld in
  reachable w
  /\ AnyToken.recoverFromProxy Scenario.tokens q Scenario.solverSig
       Scenario.hookToken (Scenario.at_ Scenario.anyone 2000) w = Ok w'
  /\ nonceBitmap (storage w) Scenario.hookToken 0 = 0
  /\ nonceBitmap (storage w') Scenario.hookToken 0 = 32
  /\ solvers (storage w) Scenario.hookToken = noSolver
  /\ solvers (storage w') Scenario.hookToken
     = {| totalBond := 1000 * 10 ^ 6; reservedBond := 0; unstakeAmount := 0;
          unstakeTimestamp := 0; registered := true |}.
Proof.
  cbv zeta. split; [exact hookedWorld_reachable|].
  split.
  - unfold Scenario.hookRecoveredWorld.
    apply Ok_or_default. vm_compute. reflexivity.
  - repeat split; vm_compute; reflexivity.
Qed.



(** ** Quote validation *)

Section Validation.

Context {E : Env}.

Lemma _validateQuoteCore_zero_user (quote : FirmSwapQuote) (sig : bytes)
  (w : World E) :
  QuoteLib.user quote = 0 ->
  _validateQuoteCore quote sig w = Revert InvalidQuote.
Proof. unfold _validateQuoteCore. intros ->. reflexivity. Qed.

Lemma _validateQuote_zero_user (quote : FirmSwapQuote) (sig : bytes)
  (tx : Tx) (w : World E) :
  QuoteLib.user quote = 0 ->
  _validateQuote quote sig tx w = Revert InvalidQuote.
Proof.
  intros H. unfold _validateQuote.
  now rewrite (_validateQuoteCore_zero_user _ _ _ H).
Qed.

(** C10. Each entry point that takes a calldata quote (deposit,
    depositWithPermit2, settle, settleWithTolerance, refundAddressDeposit,
    deployAndRecover) reverts with InvalidQuote when [quote.user] is the
    zero address, whatever the other arguments, the caller, the time and
    the state are. *)
Theorem zero_user_reverts_InvalidQuote (quote : FirmSwapQuote)
  (solverSignature : bytes) (permit : PermitTransferFrom)
  (permitSignature : bytes) (acceptedInputAmount : N) (token : address)
  (tx : Tx) (w : World E) :
  QuoteLib.user quote = 0 ->
  deposit quote solverSignature tx w = Revert InvalidQuote
  /\ depositWithPermit2 quote solverSignature permit permitSignature tx w
     = Revert InvalidQuote
  /\ settle quote solverSignature tx w = Revert InvalidQuote
  /\ settleWithTolerance quote solverSignature acceptedInputAmount tx w
     = Revert InvalidQuote
  /\ refundAddressDeposit quote solverSignature tx w = Revert InvalidQuote
  /\ deployAndRecover quote solverSignature token tx w = Revert InvalidQuote.
Proof.
  intros Huser.
  pose proof (_validateQuote_zero_user quote solverSignature tx w Huser) as Hv.
  pose proof (_validateQuoteCore_zero_user quote solverSignature w Huser) as Hc.
  repeat split.
  - unfold deposit, _depositInternal, _validateAndCreateOrder.
    now rewrite Hv.
  - unfold depositWithPermit2, _validateAndCreateOrder. now rewrite Hv.
  - unfold settle. now rewrite Hv.
  - unfold settleWithTolerance.
    destruct (QuoteLib.inputAmount quote <? acceptedInputAmount);
      [reflexivity|].
    destruct (acceptedInputAmount =? 0); [reflexivity|].
    simpl. now rewrite Hv.
  - unfold refundAddressDeposit, _validateQuoteForRefund. now rewrite Hc.
  - unfold deployAndRecover, _validateQuoteForRefund.
    destruct (token =? QuoteLib.inputToken quote); [reflexivity|].
    simpl. now rewrite Hc.
Qed.

End Validation.

(** The zero-user quote of the test suite is turned away by [deposit]. *)
Lemma zero_user_reverts_witness :
  deposit (E := Scenario.env)
    {| QuoteLib.solver := Scenario.solver; QuoteLib.user := 0;
       QuoteLib.inputToken := Scenario.brla;
       QuoteLib.inputAmount := 1148 * 10 ^ 18;
       QuoteLib.outputToken := Scenario.usdc;
       QuoteLib.outputAmount := 200 * 10 ^ 6;
       QuoteLib.orderType := QuoteLib.EXACT_OUTPUT;
       QuoteLib.outputChainId := 100;
       QuoteLib.depositDeadline := 1300; QuoteLib.fillDeadline := 1420;
       QuoteLib.nonce := 0 |}
    Scenario.solverSig (Scenario.at_ Scenario.user 1000)
    (genesis Scenario.ledger)
  = Revert InvalidQuote.
Proof.
  refine (proj1 (zero_user_reverts_InvalidQuote _ _
                   {| permitted_token := 0; permitted_amount := 0;
                      permit_nonce := 0; permit_deadline := 0 |}
                   [] 0 0 _ _ _)).
  reflexivity.
Defined.

(** ** The aggregator's ranking *)

Section SortFacts.

Import Aggregator.

Local Open Scope Z_scope.

Context {A : Type} (comparefn : A -> A -> Z) (price : A -> Z).

(** The comparator puts [a] before [b] exactly when [a]'s price is not
    above [b]'s. *)
Hypothesis comparefn_price :
  forall a b, (comparefn a b <? 0) = (price a <=? price b).

#[local] Instance cheaper_trans : Transitive (cheaper price).
Proof. unfold cheaper. intros x y z ? ?. lia. Qed.

#[local] Instance strictlyCheaper_trans : Transitive (strictlyCheaper price).
Proof. unfold strictlyCheaper. intros x y z ? ?. lia. Qed.

Lemma Sorted_strictlyCheaper l :
  Sorted (strictlyCheaper price) l -> Sorted (cheaper price) l.
Proof.
  induction 1 as [|a l Hl IH Ha]; constructor; [exact IH|].
  destruct Ha; constructor. unfold cheaper, strictlyCheaper in *. lia.
Qed.

Lemma runTail_descending previous rest :
  Sorted (flip (cheaper price))
    (previous :: take (runTail comparefn true previous rest) rest).
Proof.
  revert previous. induction rest as [|current rest IH]; intros previous.
  - repeat constructor.
  - cbn [runTail]. rewrite comparefn_price.
    destruct (Z.leb_spec (price current) (price previous)).
    + cbn [take]. constructor; [apply IH|]. constructor. exact H.
    + repeat constructor.
Qed.

Lemma runTail_ascending previous rest :
  Sorted (strictlyCheaper price)
    (previous :: take (runTail comparefn false previous rest) rest).
Proof.
  revert previous. induction rest as [|current rest IH]; intros previous.
  - repeat constructor.
  - cbn [runTail]. rewrite comparefn_price.
    destruct (Z.leb_spec (price current) (price previous)).
    + repeat constructor.
    + cbn [take]. constructor; [apply IH|]. constructor. exact H.
Qed.

Lemma countAndMakeRun_sorted l :
  StronglySorted (cheaper price) (countAndMakeRun comparefn l).1.
Proof.
  apply Sorted_StronglySorted; [apply _|].
  destruct l as [|low [|high rest]]; [repeat constructor..|].
  cbn [countAndMakeRun fst]. rewrite comparefn_price.
  change (take (2 + ?n) (low :: high :: rest))
    with (low :: high :: take n rest).
  destruct (Z.leb_spec (price high) (price low)).
  - apply (Sorted_reverse (flip (cheaper price))).
    constructor; [apply runTail_descending|]. constructor. exact H.
  - apply Sorted_strictlyCheaper.
    constructor; [apply runTail_ascending|]. constructor. exact H.
Qed.

Lemma countAndMakeRun_Permutation l :
  (countAndMakeRun comparefn l).1 ++ (countAndMakeRun comparefn l).2 ≡ₚ l.
Proof.
  destruct l as [|low [|high rest]]; [reflexivity..|].
  cbn [countAndMakeRun fst snd].
  destruct (_ <? 0); [rewrite reverse_Permutation|]; now rewrite take_drop.
Qed.

Lemma StronglySorted_lookup (l : list A) i j x y :
  StronglySorted (cheaper price) l -> (i <= j)%nat ->
  l !! i = Some x -> l !! j = Some y -> price x <= price y.
Proof.
  intros Hl. revert i j. induction Hl as [|a l Hl IH Ha]; intros i j Hij Hi Hj.
  - discriminate.
  - destruct i as [|i], j as [|j]; cbn in Hi, Hj.
    + injection Hi as <-. injection Hj as <-. lia.
    + injection Hi as <-. rewrite Forall_lookup in Ha. exact (Ha j y Hj).
    + lia.
    + apply (IH i j); [lia|assumption..].
Qed.

(** The binary search ends at a position with only strictly cheaper
    elements before it and none of them from it on. *)
Lemma binarySearch_spec pivot sorted :
  StronglySorted (cheaper price) sorted ->
  forall fuel left right,
  (left <= right <= length sorted)%nat -> (right - left <= fuel)%nat ->
  (forall i x, (i < left)%nat -> sorted !! i = Some x -> price x < price pivot) ->
  (forall i x, (right <= i)%nat -> sorted !! i = Some x -> price pivot <= price x) ->
  let p := binarySearch comparefn fuel pivot sorted left right in
  (forall i x, (i < p)%nat -> sorted !! i = Some x -> price x < price pivot) /\
  (forall i x, (p <= i)%nat -> sorted !! i = Some x -> price pivot <= price x).
Proof.
  intros Hsorted. induction fuel as [|fuel IH]; intros left right Hb Hf Hlo Hhi.
  - cbn. replace right with left in Hhi by lia. auto.
  - cbn [binarySearch]. destruct (Nat.ltb_spec left right) as [Hlt|Hge].
    2:{ cbv zeta. replace right with left in Hhi by lia. auto. }
    set (mid := (left + (right - left) / 2)%nat).
    assert (left <= mid < right)%nat as Hmid.
    { unfold mid. pose proof (Nat.Div0.div_lt_upper_bound (right - left) 2 (right - left)).
      pose proof (Nat.Div0.div_le_upper_bound (right - left) 2 (right - left)).
      lia. }
    destruct (lookup_lt_is_Some_2 sorted mid ltac:(lia)) as [m Hm].
    rewrite Hm, comparefn_price.
    destruct (Z.leb_spec (price pivot) (price m)) as [Hle|Hgt].
    + apply IH; [lia|lia|exact Hlo|].
      intros i x Hi Hx.
      pose proof (StronglySorted_lookup sorted mid i m x Hsorted Hi Hm Hx). lia.
    + apply IH; [lia|lia| |exact Hhi].
      intros i x Hi Hx.
      pose proof (StronglySorted_lookup sorted i mid x m Hsorted ltac:(lia) Hx Hm).
      lia.
Qed.

Lemma insertPivot_position sorted pivot :
  StronglySorted (cheaper price) sorted ->
  let p := binarySearch comparefn (length sorted) pivot sorted 0 (length sorted) in
  (forall i x, (i < p)%nat -> sorted !! i = Some x -> price x < price pivot) /\
  (forall i x, (p <= i)%nat -> sorted !! i = Some x -> price pivot <= price x).
Proof.
  intros Hsorted. apply binarySearch_spec; [exact Hsorted|lia|lia|intros; lia|].
  intros i x Hi Hx. apply lookup_lt_Some in Hx. lia.
Qed.

Lemma insertPivot_sorted sorted pivot :
  StronglySorted (cheaper price) sorted ->
  StronglySorted (cheaper price) (insertPivot comparefn sorted pivot).
Proof.
  intros Hsorted. unfold insertPivot.
  destruct (insertPivot_position sorted pivot Hsorted) as [Hlo Hhi].
  set (p := binarySearch _ _ _ _ _ _) in *.
  pose proof Hsorted as Hsplit. rewrite <- (take_drop p sorted) in Hsplit.
  apply StronglySorted_app in Hsplit as (Hcross & Htake & Hdrop).
  apply StronglySorted_app. split; [|split; [exact Htake|]].
  - intros x1 x2 H1 H2. apply elem_of_cons in H2 as [->|H2].
    + apply elem_of_take in H1 as (i & Hx & Hi).
      pose proof (Hlo i x1 Hi Hx). unfold cheaper. lia.
    + exact (Hcross x1 x2 H1 H2).
  - constructor; [exact Hdrop|]. apply Forall_lookup. intros i x Hx.
    rewrite lookup_drop in Hx. apply (Hhi (p + i)%nat); [lia|exact Hx].
Qed.

Lemma insertPivot_Permutation sorted pivot :
  insertPivot comparefn sorted pivot ≡ₚ pivot :: sorted.
Proof.
  unfold insertPivot. rewrite <- Permutation_middle. now rewrite take_drop.
Qed.

Lemma binaryInsertionSort_sorted rest : forall run,
  StronglySorted (cheaper price) run ->
  StronglySorted (cheaper price) (binaryInsertionSort comparefn run rest).
Proof.
  unfold binaryInsertionSort.
  induction rest as [|pivot rest IH]; intros run Hrun; [exact Hrun|].
  cbn [fold_left]. apply IH, insertPivot_sorted, Hrun.
Qed.

Lemma binaryInsertionSort_Permutation rest : forall run,
  binaryInsertionSort comparefn run rest ≡ₚ run ++ rest.
Proof.
  unfold binaryInsertionSort.
  induction rest as [|pivot rest IH]; intros run.
  - cbn. now rewrite app_nil_r.
  - cbn [fold_left]. rewrite IH, insertPivot_Permutation.
    now rewrite <- Permutation_middle.
Qed.

Lemma sort_sorted l : StronglySorted (cheaper price) (sort comparefn l).
Proof.
  unfold sort. pose proof (countAndMakeRun_sorted l) as H.
  destruct (countAndMakeRun comparefn l) as [run rest].
  apply binaryInsertionSort_sorted, H.
Qed.

Lemma sort_Permutation l : sort comparefn l ≡ₚ l.
Proof.
  unfold sort. pose proof (countAndMakeRun_Permutation l) as H.
  destruct (countAndMakeRun comparefn l) as [run rest].
  now rewrite binaryInsertionSort_Permutation.
Qed.

(** *** Which element comes first *)

Lemma descending_last a l :
  Sorted (flip (cheaper price)) (a :: l) ->
  last (a :: l) = Some (fold_left (better price) l a).
Proof.
  revert a. induction l as [|b l IH]; intros a Hs; [reflexivity|].
  rewrite last_cons_cons. apply Sorted_inv in Hs as [Hs Hb].
  apply HdRel_inv in Hb. unfold flip, cheaper in Hb.
  rewrite (IH b Hs). cbn [fold_left]. unfold better at 3.
  destruct (Z.leb_spec (price b) (price a)); [reflexivity|lia].
Qed.

Lemma better_all_dearer a l :
  Forall (strictlyCheaper price a) l -> fold_left (better price) l a = a.
Proof.
  induction 1 as [|b l Hb Hl IH]; [reflexivity|].
  cbn [fold_left]. unfold better at 2. unfold strictlyCheaper in Hb.
  destruct (Z.leb_spec (price b) (price a)); [lia|exact IH].
Qed.

Lemma ascending_first a l :
  Sorted (strictlyCheaper price) (a :: l) ->
  fold_left (better price) l a = a.
Proof.
  intros Hs. apply Sorted_StronglySorted in Hs; [|apply _].
  apply StronglySorted_inv in Hs as [_ Ha]. apply better_all_dearer, Ha.
Qed.

Lemma head_countAndMakeRun low tail :
  head (countAndMakeRun comparefn (low :: tail)).1
  = Some (fold_left (better price)
            (take (length (countAndMakeRun comparefn (low :: tail)).1 - 1) tail)
            low)
  /\ (countAndMakeRun comparefn (low :: tail)).2
     = drop (length (countAndMakeRun comparefn (low :: tail)).1 - 1) tail.
Proof.
  destruct tail as [|high rest]; [split; reflexivity|].
  cbn [countAndMakeRun fst snd]. rewrite comparefn_price.
  change (take (2 + ?n) (low :: high :: rest))
    with (low :: high :: take n rest).
  change (drop (2 + ?n) (low :: high :: rest)) with (drop n rest).
  destruct (Z.leb_spec (price high) (price low)) as [Hle|Hgt].
  - set (k := runTail comparefn true high rest).
    assert (Sorted (flip (cheaper price)) (low :: high :: take k rest)) as Hs.
    { constructor; [apply runTail_descending|]. constructor. exact Hle. }
    rewrite length_reverse, head_reverse. cbn [length].
    replace (S (S (length (take k rest))) - 1)%nat
      with (S (length (take k rest))) by lia.
    assert (length (take k rest) = k) as Hk.
    { apply length_take_le. unfold k. clear.
      generalize high. induction rest as [|c rest IH]; intros h; cbn; [lia|].
      destruct (_ <? 0); [|lia]. specialize (IH c). lia. }
    rewrite Hk. cbn [take drop]. split; [|reflexivity].
    apply descending_last, Hs.
  - set (k := runTail comparefn false high rest).
    assert (Sorted (strictlyCheaper price) (low :: high :: take k rest)) as Hs.
    { constructor; [apply runTail_ascending|]. constructor. exact Hgt. }
    cbn [length head].
    replace (S (S (length (take k rest))) - 1)%nat
      with (S (length (take k rest))) by lia.
    assert (length (take k rest) = k) as Hk.
    { apply length_take_le. unfold k. clear.
      generalize high. induction rest as [|c rest IH]; intros h; cbn; [lia|].
      destruct (_ <? 0); [lia|]. specialize (IH c). lia. }
    rewrite Hk. cbn [take drop]. split; [|reflexivity].
    f_equal. symmetry. apply (ascending_first low (high :: take k rest)), Hs.
Qed.

Lemma head_insertPivot first sorted pivot :
  StronglySorted (cheaper price) (first :: sorted) ->
  head (insertPivot comparefn (first :: sorted) pivot)
  = Some (better price first pivot).
Proof.
  intros Hsorted. unfold insertPivot.
  destruct (insertPivot_position (first :: sorted) pivot Hsorted) as [Hlo Hhi].
  set (p := binarySearch _ _ _ _ _ _) in *. unfold better.
  destruct p as [|p].
  - pose proof (Hhi 0%nat first ltac:(lia) eq_refl).
    destruct (Z.leb_spec (price pivot) (price first)); [reflexivity|lia].
  - pose proof (Hlo 0%nat first ltac:(lia) eq_refl).
    destruct (Z.leb_spec (price pivot) (price first)); [lia|reflexivity].
Qed.

Lemma head_binaryInsertionSort rest : forall first run,
  StronglySorted (cheaper price) (first :: run) ->
  head (binaryInsertionSort comparefn (first :: run) rest)
  = Some (fold_left (better price) rest first).
Proof.
  unfold binaryInsertionSort.
  induction rest as [|pivot rest IH]; intros first run Hrun; [reflexivity|].
  cbn [fold_left].
  pose proof (head_insertPivot first run pivot Hrun) as Hhead.
  pose proof (insertPivot_sorted _ pivot Hrun) as Hsorted.
  destruct (insertPivot comparefn (first :: run) pivot) as [|first' run'];
    [discriminate|].
  injection Hhead as ->. apply IH, Hsorted.
Qed.

(** The sorted array starts with the choice made by going through the
    array in order, a later element replacing the best so far unless it
    is strictly dearer. *)
Lemma head_sort low tail :
  head (sort comparefn (low :: tail))
  = Some (fold_left (better price) tail low).
Proof.
  unfold sort.
  pose proof (countAndMakeRun_sorted (low :: tail)) as Hsorted.
  destruct (head_countAndMakeRun low tail) as [Hhead Hrest].
  destruct (countAndMakeRun comparefn (low :: tail)) as [run rest].
  cbn [fst snd] in *. destruct run as [|first run]; [discriminate|].
  rewrite (head_binaryInsertionSort rest first run Hsorted).
  injection Hhead as ->. rewrite Hrest, <- fold_left_app.
  now rewrite take_drop.
Qed.

(** The choice is the last element of least price. *)
Lemma better_last_cheapest tail : forall low,
  exists before after,
    low :: tail = before ++ fold_left (better price) tail low :: after
    /\ Forall (cheaper price (fold_left (better price) tail low)) before
    /\ Forall (strictlyCheaper price (fold_left (better price) tail low)) after.
Proof.
  induction tail as [|x tail IH] using rev_ind; intros low.
  - exists [], []. repeat split; constructor.
  - destruct (IH low) as (before & after & Hl & Hb & Ha).
    rewrite fold_left_app. cbn [fold_left].
    set (best := fold_left (better price) tail low) in *.
    unfold better. destruct (Z.leb_spec (price x) (price best)) as [Hle|Hgt].
    + exists (low :: tail), []. split; [reflexivity|]. split; [|constructor].
      rewrite Hl. apply Forall_app. split; [|constructor].
      * eapply Forall_impl; [exact Hb|]. unfold cheaper. intros; lia.
      * unfold cheaper. lia.
      * eapply Forall_impl; [exact Ha|].
        unfold cheaper, strictlyCheaper. intros; lia.
    + exists before, (after ++ [x]). split; [|split; [exact Hb|]].
      * rewrite app_comm_cons, Hl, <- app_assoc. reflexivity.
      * apply Forall_app. split; [exact Ha|]. constructor; [exact Hgt|constructor].
Qed.

End SortFacts.

Section Ranking.

Import Aggregator.

Local Open Scope Z_scope.

Lemma compareQuotes_rank orderType a b :
  (compareQuotes orderType a b <? 0)
  = (rank orderType a <=? rank orderType b).
Proof.
  unfold compareQuotes, rank. destruct orderType.
  - destruct (Z.gtb_spec (outputAmount (quote b)) (outputAmount (quote a)));
      symmetry; [apply Z.leb_gt|apply Z.leb_le]; lia.
  - destruct (Z.gtb_spec (inputAmount (quote a)) (inputAmount (quote b)));
      symmetry; [apply Z.leb_gt|apply Z.leb_le]; lia.
Qed.

(** C8, amended. For a non-empty list of fewer than 64 signature-verified
    responses, [getQuote] answers with the quote and the signature of a
    response [best] of the list whose amount is the best of all: no
    response offers more output (EXACT_INPUT) or asks less input
    (EXACT_OUTPUT). Among responses of equal amount the one that arrived
    LAST is taken: every response after [best] in the list is strictly
    worse. The alternatives are the other responses, each with an empty
    solverSignature and no deposit address. *)
Theorem getQuote_returns_best
  (computeDepositAddress : SerializedQuote -> string -> option string)
  (firmSwapConfigured : bool) (orderType : OrderType)
  (depositMode : DepositMode) (verified : list SolverQuoteResponse) :
  (0 < length verified < 64)%nat ->
  exists before best after response,
    verified = before ++ best :: after
    /\ getQuote computeDepositAddress firmSwapConfigured orderType
         depositMode verified = Some response
    /\ res_quote response = quote best
    /\ res_solverSignature response = signature best
    /\ match orderType with
       | EXACT_INPUT =>
           Forall (fun r => outputAmount (quote r) <= outputAmount (quote best))
             before
           /\ Forall (fun r => outputAmount (quote r) < outputAmount (quote best))
                after
       | EXACT_OUTPUT =>
           Forall (fun r => inputAmount (quote best) <= inputAmount (quote r))
             before
           /\ Forall (fun r => inputAmount (quote best) < inputAmount (quote r))
                after
       end
    /\ map alt_quote (alternativeQuotes response)
       ≡ₚ map quote (before ++ after)
    /\ Forall (fun alt => alt_solverSignature alt = EmptyString
                          /\ alt_depositAddress alt = None)
         (alternativeQuotes response).
Proof.
  intros Hlen. destruct verified as [|low tail]; [cbn in Hlen; lia|].
  pose proof (head_sort (compareQuotes orderType) (rank orderType)
                (compareQuotes_rank orderType) low tail) as Hhead.
  pose proof (sort_Permutation (compareQuotes orderType) (low :: tail)) as Hperm.
  destruct (better_last_cheapest (rank orderType) tail low)
    as (before & after & Hsplit & Hbefore & Hafter).
  set (best := fold_left (better (rank orderType)) tail low) in *.
  unfold getQuote, rankQuotes. cbn [length bool_decide decide_rel].
  rewrite bool_decide_eq_false_2 by (cbn; lia).
  destruct (sort (compareQuotes orderType) (low :: tail))
    as [|best' alternatives]; [discriminate|].
  injection Hhead as ->.
  eexists before, best, after, _.
  split; [exact Hsplit|]. split; [reflexivity|].
  cbn [res_quote res_solverSignature alternativeQuotes].
  split; [reflexivity|]. split; [reflexivity|]. split; [|split].
  - unfold cheaper, strictlyCheaper, rank in Hbefore, Hafter.
    destruct orderType; split;
      (eapply Forall_impl; [eassumption|]); cbn beta; intros; lia.
  - rewrite Hsplit, <- Permutation_middle in Hperm.
    apply Permutation_cons_inv in Hperm. rewrite <- Hperm.
    rewrite map_map. reflexivity.
  - apply List.Forall_forall. intros alt Halt. apply in_map_iff in Halt.
    destruct Halt as (r & <- & _). split; reflexivity.
Qed.

End Ranking.

(** The test suite's two solvers: 1100 BRLA is taken over 1200 BRLA for
    the same output, and the dearer quote comes back without its
    signature. *)
Lemma getQuote_returns_best_witness :
  (0 < length [Aggregator.expensive; Aggregator.cheap] < 64)%nat
  /\ exists response,
       Aggregator.getQuote Aggregator.noDepositAddress true
         Aggregator.EXACT_OUTPUT Aggregator.CONTRACT
         [Aggregator.expensive; Aggregator.cheap] = Some response
       /\ Aggregator.res_quote response
          = Aggregator.quote Aggregator.cheap
       /\ Aggregator.res_solverSignature response
          = Aggregator.signature Aggregator.cheap
       /\ Forall (fun alt => Aggregator.alt_solverSignature alt = EmptyString
                             /\ Aggregator.alt_depositAddress alt = None)
            (Aggregator.alternativeQuotes response).
Proof.
  assert (0 < length [Aggregator.expensive; Aggregator.cheap] < 64)%nat
    as Hlen by (simpl; lia).
  split; [exact Hlen|].
  destruct (getQuote_returns_best Aggregator.noDepositAddress true
              Aggregator.EXACT_OUTPUT Aggregator.CONTRACT
              [Aggregator.expensive; Aggregator.cheap] Hlen)
    as (before & best & after & response & _ & Hget & _ & _ & _ & _ & Halt).
  exists response. split; [exact Hget|].
  vm_compute in Hget. injection Hget as <-.
  split; [reflexivity|]. split; [reflexivity|]. exact Halt.
Defined.

(** C8 as stated fails: ties are not broken by arrival order. Two verified
    responses offer the same output for the same input; the one that
    arrived first is not the one returned as best, the second is, and the
    first comes back as an alternative. *)
Lemma getQuote_tie_counterexample :
  Aggregator.outputAmount (Aggregator.quote Aggregator.first)
  = Aggregator.outputAmount (Aggregator.quote Aggregator.second)
  /\ exists response,
       Aggregator.getQuote Aggregator.noDepositAddress true
         Aggregator.EXACT_INPUT Aggregator.CONTRACT
         [Aggregator.first; Aggregator.second] = Some response
       /\ Aggregator.res_quote response
          = Aggregator.quote Aggregator.second
       /\ Aggregator.res_solverSignature response
          = Aggregator.signature Aggregator.second
       /\ Aggregator.res_quote response
          <> Aggregator.quote Aggregator.first
       /\ map Aggregator.alt_quote (Aggregator.alternativeQuotes response)
          = [Aggregator.quote Aggregator.first].
Proof.
  split; [reflexivity|]. eexists. split; [vm_compute; reflexivity|].
  cbn [Aggregator.res_quote Aggregator.res_solverSignature
       Aggregator.alternativeQuotes].
  split; [reflexivity|]. split; [reflexivity|]. split; [|reflexivity].
  vm_compute. discriminate.
Qed.

(** * Further properties of the settlement engine *)

Section Lifecycle.

Context {E : Env}.

Lemma with_state_same (o : Order) : with_state (state o) o = o.
Proof. destruct o; reflexivity. Qed.

Lemma order_kept_refl (o : Order) : order_kept o o.
Proof.
  unfold order_kept. destruct (state o) eqn:Hs; try reflexivity.
  exists DEPOSITED. split; [discriminate|]. rewrite <- Hs. symmetry.
  apply with_state_same.
Qed.

Lemma order_kept_trans (o1 o2 o3 : Order) :
  order_kept o1 o2 -> order_kept o2 o3 -> order_kept o1 o3.
Proof.
  unfold order_kept. destruct (state o1) eqn:H1; intros H12 H23.
  - exact I.
  - destruct H12 as (s & Hs & ->). cbn [state with_state] in H23.
    destruct s; [congruence| | |].
    + destruct H23 as (s' & Hs' & ->). exists s'. split; [exact Hs'|].
      reflexivity.
    + exists SETTLED. split; [discriminate|]. exact H23.
    + exists REFUNDED. split; [discriminate|]. exact H23.
  - subst o2. rewrite H1 in H23. exact H23.
  - subst o2. rewrite H1 in H23. exact H23.
Qed.

Lemma orderExists_false (oid : bytes32 E) (w : World E) :
  orderExists oid w = false -> state (orders (storage w) oid) = NONE.
Proof.
  unfold orderExists. intros H. apply negb_false_iff in H.
  now apply bool_decide_eq_true in H.
Qed.

Lemma exec_order_kept (c : Call) (tx : Tx) (w w' : World E) (oid : bytes32 E) :
  exec c tx w = Ok w' ->
  order_kept (orders (storage w) oid) (orders (storage w') oid).
Proof.
  intros H.
  destruct c; simpl in H; inv_entry H; subst; simpl_world;
    try apply order_kept_refl;
    repeat match goal with
    | H : orderExists _ _ = false |- _ => apply orderExists_false in H
    | H : negb (bool_decide (_ = DEPOSITED)) = false |- _ =>
        apply negb_false_iff, bool_decide_eq_true in H
    end;
    rewrite ?fn_lookup_insert; simpl_world;
    match goal with
    | |- context [ (<[?k := _]> _) oid ] =>
        destruct (decide (k = oid)) as [Heq|Hne];
        [ rewrite <- Heq in *; rewrite ?fn_lookup_insert
        | repeat rewrite fn_lookup_insert_ne by exact Hne ]
    end; simpl_world; try apply order_kept_refl;
    unfold order_kept;
    match goal with
    | H : state _ = _ |- _ => rewrite H
    end; try exact I;
    eexists; (split; [|reflexivity]); discriminate.
Qed.

Lemma later_order_kept (w w' : World E) (oid : bytes32 E) :
  later w w' -> order_kept (orders (storage w) oid) (orders (storage w') oid).
Proof.
  induction 1 as [w0 | w0 w1 w2 Hs _ IH].
  - apply order_kept_refl.
  - eapply order_kept_trans; [|exact IH].
    destruct Hs as [w0 tx c w1 H | w0 L].
    + exact (exec_order_kept _ _ _ _ _ H).
    + apply order_kept_refl.
Qed.

(** X1. An order that is SETTLED or REFUNDED is final: in every later state
    of the chain its record is the same, and both [fill] and [refund] on it
    revert with OrderNotDeposited, whoever calls and whenever. So an order
    is paid out at most once. *)
Theorem settled_order_is_final (w w' : World E) (oid : bytes32 E) :
  later w w' ->
  state (orders (storage w) oid) = SETTLED
  \/ state (orders (storage w) oid) = REFUNDED ->
  orders (storage w') oid = orders (storage w) oid
  /\ (forall tx, fill oid tx w' = Revert OrderNotDeposited)
  /\ (forall tx, refund oid tx w' = Revert OrderNotDeposited).
Proof.
  intros Hlater Hstate.
  pose proof (later_order_kept _ _ oid Hlater) as Hkept.
  unfold order_kept in Hkept.
  assert (orders (storage w') oid = orders (storage w) oid) as Heq
    by (destruct Hstate as [Hs|Hs]; rewrite Hs in Hkept; exact Hkept).
  split; [exact Heq|].
  assert (state (orders (storage w') oid) <> DEPOSITED) as Hne
    by (rewrite Heq; destruct Hstate; congruence).
  split; intros tx; [unfold fill|unfold refund];
    rewrite bool_decide_eq_false_2 by exact Hne; reflexivity.
Qed.

(** X2. A DEPOSITED order is only ever changed in its state: in every later
    state of the chain it has the same user, solver, tokens, amounts and
    deadline, and its state is DEPOSITED, SETTLED or REFUNDED, never NONE
    again. *)
Theorem deposited_order_data_fixed (w w' : World E) (oid : bytes32 E) :
  later w w' ->
  state (orders (storage w) oid) = DEPOSITED ->
  exists s, s <> NONE
            /\ orders (storage w') oid = with_state s (orders (storage w) oid).
Proof.
  intros Hlater Hstate.
  pose proof (later_order_kept _ _ oid Hlater) as Hkept.
  unfold order_kept in Hkept. rewrite Hstate in Hkept. exact Hkept.
Qed.

End Lifecycle.

Section Provenance.

Context {E : Env}.

Lemma _validateQuote_inv (quote : FirmSwapQuote) (sig : bytes) (tx : Tx)
  (w : World E) (u : unit) :
  _validateQuote quote sig tx w = Ok u ->
  _validateQuoteCore quote sig w = Ok tt
  /\ block_timestamp tx <= QuoteLib.depositDeadline quote.
Proof.
  unfold _validateQuote. intros H. inv_ok. destruct a.
  split; [assumption|]. now apply N.ltb_ge.
Qed.

Lemma _validateQuoteMemory_inv (quote : FirmSwapQuote) (sig : bytes) (tx : Tx)
  (w : World E) (u : unit) :
  _validateQuoteMemory quote sig tx w = Ok u ->
  QuoteLib.inputAmount quote <> 0
  /\ MIN_ORDER <= QuoteLib.outputAmount quote
  /\ QuoteLib.depositDeadline quote < QuoteLib.fillDeadline quote
  /\ QuoteLib.outputChainId quote = chainid E
  /\ registered (solvers (storage w) (QuoteLib.solver quote)) = true
  /\ block_timestamp tx <= QuoteLib.depositDeadline quote
  /\ N.land (nonceBitmap (storage w) (QuoteLib.solver quote)
               (uint248 (N.shiftr (QuoteLib.nonce quote) 8)))
            (uint256 (N.shiftl 1 (uint8 (QuoteLib.nonce quote)))) = 0
  /\ recover E quote sig = Some (QuoteLib.solver quote).
Proof.
  unfold _validateQuoteMemory. intros H. inv_ok.
  apply orb_false_iff in Hstep as [Hin Hout].
  apply negb_false_iff in Hstep2, Hstep3, Hstep5, H.
  repeat split.
  - now apply N.eqb_neq.
  - now apply N.ltb_ge.
  - now apply N.leb_gt.
  - now apply N.eqb_eq.
  - assumption.
  - now apply N.ltb_ge.
  - now apply N.eqb_eq.
  - apply N.eqb_eq in H. congruence.
Qed.

Lemma _validateQuoteCore_validated quote sig (w : World E) u :
  _validateQuoteCore quote sig w = Ok u -> validated quote sig w.
Proof.
  intros H. apply _validateQuoteCore_inv in H.
  unfold validated. tauto.
Qed.

Lemma _validateQuote_validated quote sig tx (w : World E) u :
  _validateQuote quote sig tx w = Ok u -> validated quote sig w.
Proof.
  intros H. apply _validateQuote_inv in H as [H _].
  exact (_validateQuoteCore_validated _ _ _ _ H).
Qed.

Lemma _validateQuoteMemory_validated quote sig tx (w : World E) u :
  _validateQuoteMemory quote sig tx w = Ok u -> validated quote sig w.
Proof.
  intros H. apply _validateQuoteMemory_inv in H.
  unfold validated. tauto.
Qed.

(** An order slot is only filled from a validated quote. *)
Lemma exec_creates (c : Call) (tx : Tx) (w w' : World E) (oid : bytes32 E) :
  exec c tx w = Ok w' ->
  state (orders (storage w) oid) = NONE ->
  state (orders (storage w') oid) <> NONE ->
  exists quote sig a s,
    oid = computeOrderId E quote sig
    /\ validated quote sig w
    /\ orders (storage w') oid = with_inputAmount a (orderOf quote s).
Proof.
  intros H Hnone Hsome.
  destruct c; simpl in H; inv_entry H; subst; simpl_world;
    try congruence;
    repeat match goal with
    | H : _validateQuote _ _ _ _ = Ok _ |- _ =>
        apply _validateQuote_validated in H
    | H : _validateQuoteForRefund _ _ _ = Ok _ |- _ =>
        apply _validateQuoteCore_validated in H
    | H : _validateQuoteMemory _ _ _ _ = Ok _ |- _ =>
        apply _validateQuoteMemory_validated in H
    | H : negb (bool_decide (_ = DEPOSITED)) = false |- _ =>
        apply negb_false_iff, bool_decide_eq_true in H
    end;
    rewrite ?fn_lookup_insert in *; simpl_world;
    match goal with
    | |- context [ (<[?k := _]> _) oid ] =>
        destruct (decide (k = oid)) as [Heq|Hne];
        [ rewrite <- Heq in *; rewrite ?fn_lookup_insert in *
        | repeat rewrite fn_lookup_insert_ne in * by exact Hne ]
    end; simpl_world; try congruence;
    try (eexists _, _, _, _; split; [reflexivity|]; split; [eassumption|];
         reflexivity).
  all: eexists _, _, (QuoteLib.inputAmount _), _;
       (split; [reflexivity|]); (split; [eassumption|]); reflexivity.
Qed.

(** No entry point takes a registration away. *)
Lemma exec_registered_kept (c : Call) (tx : Tx) (w w' : World E) (s : address) :
  exec c tx w = Ok w' ->
  registered (solvers (storage w) s) = true ->
  registered (solvers (storage w') s) = true.
Proof.
  intros H Hreg.
  destruct c; simpl in H; inv_entry H; subst; simpl_world;
    try exact Hreg;
    match goal with
    | |- context [ (<[?k := _]> _) s ] =>
        destruct (decide (k = s)) as [Heq|Hne];
        [ rewrite <- Heq in *; rewrite fn_lookup_insert
        | rewrite fn_lookup_insert_ne by exact Hne ]
    end; simpl_world; solve [exact Hreg | reflexivity].
Qed.

Lemma later_registered_kept (w w' : World E) (s : address) :
  later w w' ->
  registered (solvers (storage w) s) = true ->
  registered (solvers (storage w') s) = true.
Proof.
  induction 1 as [w0 | w0 w1 w2 Hs _ IH]; intros Hreg; [exact Hreg|].
  apply IH. destruct Hs as [w0 tx c w1 H | w0 L].
  - exact (exec_registered_kept _ _ _ _ _ H Hreg).
  - exact Hreg.
Qed.

Lemma genesis_orders_signed (L : Ledger) : orders_signed (E := E) (genesis L).
Proof. intros oid H. simpl in H. congruence. Qed.

Lemma order_of_signed_quote_with_state (oid : bytes32 E) (o : Order)
  (s : OrderState) :
  order_of_signed_quote oid o -> order_of_signed_quote oid (with_state s o).
Proof.
  intros (quote & sig & Hid & Hrec & Ho & Hrest).
  exists quote, sig. split; [exact Hid|]. split; [exact Hrec|].
  split; [|exact Hrest]. rewrite Ho at 1. reflexivity.
Qed.

Lemma exec_orders_signed (c : Call) (tx : Tx) (w w' : World E) :
  exec c tx w = Ok w' -> orders_signed w -> orders_signed w'.
Proof.
  intros H Hinv oid Hsome.
  destruct (decide (state (orders (storage w) oid) = NONE)) as [Hnone|Hold].
  - destruct (exec_creates _ _ _ _ oid H Hnone Hsome)
      as (quote & sig & a & s & Hid & Hval & Ho).
    destruct Hval as (Hrec & Hmin & Hdl & Hchain & Hreg).
    rewrite Ho. split.
    + exists quote, sig. repeat split; assumption.
    + apply (exec_registered_kept _ _ _ _ _ H). exact Hreg.
  - destruct (Hinv oid Hold) as [Hsigned Hreg].
    pose proof (exec_order_kept _ _ _ _ oid H) as Hkept.
    assert (exists s, orders (storage w') oid
                      = with_state s (orders (storage w) oid)) as [s Hs].
    { unfold order_kept in Hkept.
      destruct (state (orders (storage w) oid)) eqn:Hst; [congruence| | |].
      - destruct Hkept as (s & _ & ->). eauto.
      - exists SETTLED. rewrite Hkept, <- Hst. symmetry. apply with_state_same.
      - exists REFUNDED. rewrite Hkept, <- Hst. symmetry. apply with_state_same. }
    rewrite Hs. split.
    + apply order_of_signed_quote_with_state, Hsigned.
    + apply (exec_registered_kept _ _ _ _ _ H). exact Hreg.
Qed.

(** X3. In every reachable state, every stored order was made from a quote
    that carries a signature recovering to the order's solver and that
    passed validation (at least the minimum output, on this chain, fill
    deadline after deposit deadline); apart from the recorded input amount
    the order's data are the quote's, and the order's solver is
    registered. *)
Theorem stored_orders_are_signed (w : World E) :
  reachable w -> orders_signed w.
Proof.
  intros [L Hlater].
  remember (genesis L) as w0 eqn:Hw0.
  assert (orders_signed w0) as Hinv
    by (subst w0; apply genesis_orders_signed).
  clear Hw0. induction Hlater as [w0 | w0 w1 w2 Hs _ IH]; [exact Hinv|].
  apply IH. destruct Hs as [w0 tx c w1 H | w0 L'].
  - exact (exec_orders_signed _ _ _ _ H Hinv).
  - exact Hinv.
Qed.

(** X4. A registration is never taken away: once [solvers[s].registered] is
    true it is true in every later state, and [registerSolver] called by [s]
    reverts there with SolverAlreadyRegistered. *)
Theorem registered_forever (w w' : World E) (s : address) :
  later w w' ->
  registered (solvers (storage w) s) = true ->
  registered (solvers (storage w') s) = true
  /\ (forall bondAmount tx,
        msg_sender tx = s ->
        registerSolver bondAmount tx w' = Revert SolverAlreadyRegistered).
Proof.
  intros Hlater Hreg.
  pose proof (later_registered_kept _ _ _ Hlater Hreg) as Hreg'.
  split; [exact Hreg'|]. intros bondAmount tx <-.
  unfold registerSolver. now rewrite Hreg'.
Qed.

End Provenance.

Section NonceUse.

Context {E : Env}.

(** [isNonceUsed] as a bit test, for any nonce. *)
Lemma isNonceUsed_bit (solver nonce : N) (w : World E) :
  isNonceUsed solver nonce w
  = N.testbit (nonceBitmap (storage w) solver (uint248 (N.shiftr nonce 8)))
      (nonce mod 256).
Proof.
  unfold isNonceUsed. rewrite bit_of_nonce, land_pow2_eqb_0.
  apply negb_involutive.
Qed.

Lemma later_isNonceUsed (w w' : World E) (solver nonce : N) :
  later w w' ->
  isNonceUsed solver nonce w = true -> isNonceUsed solver nonce w' = true.
Proof.
  intros Hlater. rewrite !isNonceUsed_bit.
  apply (later_bits_kept _ _ Hlater).
Qed.

Lemma used_nonce_fails_validation (quote : FirmSwapQuote) (sig : bytes)
  (w : World E) (u : unit) :
  isNonceUsed (QuoteLib.solver quote) (QuoteLib.nonce quote) w = true ->
  _validateQuoteCore quote sig w = Ok u -> False.
Proof.
  intros Hused H. apply _validateQuoteCore_inv in H.
  destruct H as (_ & _ & _ & _ & _ & _ & Hland & _).
  unfold isNonceUsed in Hused. rewrite Hland in Hused. discriminate.
Qed.

Lemma used_nonce_fails_validation_memory (quote : FirmSwapQuote) (sig : bytes)
  (tx : Tx) (w : World E) (u : unit) :
  isNonceUsed (QuoteLib.solver quote) (QuoteLib.nonce quote) w = true ->
  _validateQuoteMemory quote sig tx w = Ok u -> False.
Proof.
  intros Hused H. apply _validateQuoteMemory_inv in H.
  destruct H as (_ & _ & _ & _ & _ & _ & Hland & _).
  unfold isNonceUsed in Hused. rewrite Hland in Hused. discriminate.
Qed.

Lemma used_nonce_blocks (c : Call) (q : FirmSwapQuote) (tx : Tx)
  (w w' : World E) :
  quoteOf c = Some q ->
  isNonceUsed (QuoteLib.solver q) (QuoteLib.nonce q) w = true ->
  exec c tx w = Ok w' -> False.
Proof.
  intros Hq Hused H.
  destruct c; try discriminate; injection Hq as ->; simpl in H;
    inv_entry H;
    repeat match goal with
    | H : _validateQuote _ _ _ _ = Ok _ |- _ =>
        apply _validateQuote_inv in H; destruct H as [H _]
    end;
    eauto using used_nonce_fails_validation,
      used_nonce_fails_validation_memory.
Qed.

(** X5. A used nonce is dead for good: once [isNonceUsed(solver, nonce)] is
    true, in every later state each of deposit, depositWithPermit2, openFor,
    settle, settleWithTolerance, refundAddressDeposit and deployAndRecover
    reverts on every quote of that solver with that nonce, whatever the
    signature, the caller and the time. *)
Theorem used_nonce_blocks_quote (w w' : World E) (c : Call)
  (q : FirmSwapQuote) (tx : Tx) :
  later w w' ->
  isNonceUsed (QuoteLib.solver q) (QuoteLib.nonce q) w = true ->
  quoteOf c = Some q ->
  exists e, exec c tx w' = Revert e.
Proof.
  intros Hlater Hused Hq.
  pose proof (later_isNonceUsed _ _ _ _ Hlater Hused) as Hused'.
  destruct (exec c tx w') as [w''|e] eqn:H; [|eauto].
  destruct (used_nonce_blocks c q tx w' w'' Hq Hused' H).
Qed.

Lemma land_lor_bit (word k : N) :
  (N.land (N.lor word (2 ^ k)) (2 ^ k) =? 0) = false.
Proof.
  rewrite land_pow2_eqb_0, N.lor_spec, N.pow2_bits_true.
  now rewrite orb_true_r.
Qed.

Lemma consuming_call_uses_nonce (c : Call) (q : FirmSwapQuote) (tx : Tx)
  (w w' : World E) :
  quoteOf c = Some q ->
  exec c tx w = Ok w' ->
  isNonceUsed (QuoteLib.solver q) (QuoteLib.nonce q) w = false
  /\ isNonceUsed (QuoteLib.solver q) (QuoteLib.nonce q) w' = true.
Proof.
  intros Hq H.
  destruct c; try discriminate; injection Hq as ->; simpl in H;
    inv_entry H; subst; unfold isNonceUsed; simpl_world;
    rewrite !fn_lookup_insert, bit_of_nonce in *;
    match goal with
    | H : N.land _ _ = 0 |- _ => rewrite H
    end; rewrite land_lor_bit; split; reflexivity.
Qed.

(** X6. Every entry point that consumes a quote finds the quote's nonce
    unused and leaves it used. *)
Theorem consumed_quote_uses_nonce (c : Call) (q : FirmSwapQuote) (tx : Tx)
  (w w' : World E) :
  quoteOf c = Some q ->
  exec c tx w = Ok w' ->
  isNonceUsed (QuoteLib.solver q) (QuoteLib.nonce q) w = false
  /\ isNonceUsed (QuoteLib.solver q) (QuoteLib.nonce q) w' = true.
Proof. exact (consuming_call_uses_nonce c q tx w w'). Qed.

Lemma nonce_word_bit (m n : N) :
  m / 256 = n / 256 -> m mod 256 = n mod 256 -> m = n.
Proof.
  intros Hd Hm. rewrite (N.div_mod m 256), (N.div_mod n 256) by lia.
  now rewrite Hd, Hm.
Qed.

(** X7. [cancelNonces(wordPos, mask)] always succeeds and marks exactly the
    nonces of the caller that the mask names: afterwards a nonce [m] of a
    solver [s] is used when it was used before or when [s] is the caller,
    [m / 256] is [wordPos] and bit [m mod 256] of [mask] is set. Nothing
    else of the contract's state changes. *)
Theorem cancelNonces_marks_mask (wordPos mask : N) (tx : Tx) (w : World E) :
  exists w',
    cancelNonces wordPos mask tx w = Ok w'
    /\ (forall s m,
          m < 2 ^ 256 ->
          isNonceUsed s m w'
          = isNonceUsed s m w
            || (bool_decide (s = msg_sender tx) && (m / 256 =? wordPos)
                && N.testbit mask (m mod 256)))
    /\ orders (storage w') = orders (storage w)
    /\ solvers (storage w') = solvers (storage w)
    /\ excessBalances (storage w') = excessBalances (storage w)
    /\ erc20 w' = erc20 w /\ deployed w' = deployed w.
Proof.
  eexists. split; [reflexivity|]. split; [|repeat split].
  intros s m Hm. rewrite !isNonceUsed_testbit by exact Hm. simpl_world.
  destruct (decide (s = msg_sender tx)) as [->|Hs].
  - rewrite fn_lookup_insert, bool_decide_eq_true_2 by reflexivity.
    destruct (N.eqb_spec (m / 256) wordPos) as [<-|Hw].
    + rewrite fn_lookup_insert, N.lor_spec. reflexivity.
    + rewrite fn_lookup_insert_ne by congruence. simpl.
      now rewrite orb_false_r.
  - rewrite fn_lookup_insert_ne by congruence.
    rewrite bool_decide_eq_false_2 by exact Hs. simpl.
    now rewrite orb_false_r.
Qed.

(** X8. [cancelNonce(n)] reverts with NonceAlreadyUsed when the caller's
    nonce [n] is already used; otherwise it succeeds and marks that one
    nonce: afterwards a nonce [m] of a solver [s] is used when it was used
    before or when [s] is the caller and [m] is [n]. Nothing else of the
    contract's state changes. *)
Theorem cancelNonce_marks_one (n : N) (tx : Tx) (w : World E) :
  n < 2 ^ 256 ->
  (isNonceUsed (msg_sender tx) n w = true ->
   cancelNonce n tx w = Revert NonceAlreadyUsed)
  /\ (isNonceUsed (msg_sender tx) n w = false ->
      exists w',
        cancelNonce n tx w = Ok w'
        /\ (forall s m,
              m < 2 ^ 256 ->
              isNonceUsed s m w'
              = isNonceUsed s m w
                || (bool_decide (s = msg_sender tx) && (m =? n)))
        /\ orders (storage w') = orders (storage w)
        /\ solvers (storage w') = solvers (storage w)
        /\ excessBalances (storage w') = excessBalances (storage w)
        /\ erc20 w' = erc20 w /\ deployed w' = deployed w).
Proof.
  intros Hn. unfold cancelNonce, _useNonce.
  split; intros Hused; unfold isNonceUsed in Hused.
  - apply negb_true_iff in Hused. rewrite Hused. reflexivity.
  - apply negb_false_iff in Hused. rewrite Hused. cbn [negb revertIf bind].
    eexists. split; [reflexivity|]. split; [|repeat split].
    intros s m Hm. rewrite !isNonceUsed_testbit by exact Hm. simpl_world.
    rewrite bit_of_nonce, (word_of_nonce _ Hn).
    destruct (decide (s = msg_sender tx)) as [->|Hs].
    + rewrite fn_lookup_insert, bool_decide_eq_true_2 by reflexivity.
      destruct (N.eqb_spec m n) as [->|Hmn].
      * rewrite fn_lookup_insert, N.lor_spec, N.pow2_bits_true.
        now rewrite !orb_true_r.
      * simpl. rewrite orb_false_r.
        destruct (decide (n / 256 = m / 256)) as [Hd|Hd].
        -- rewrite Hd, fn_lookup_insert, N.lor_spec, N.pow2_bits_false.
           ++ now rewrite orb_false_r.
           ++ intros Hbit. apply Hmn. symmetry.
              apply nonce_word_bit; assumption.
        -- rewrite fn_lookup_insert_ne by exact Hd. reflexivity.
    + rewrite fn_lookup_insert_ne by congruence.
      rewrite bool_decide_eq_false_2 by exact Hs. simpl.
      now rewrite orb_false_r.
Qed.

End NonceUse.

Section BondExtras.

Context {E : Env}.

(** X9. Every entry point other than [executeUnstake] keeps
    [reservedBond <= totalBond] for every solver. *)
Theorem bond_invariant_kept (c : Call) (tx : Tx) (w w' : World E) :
  c <> ExecuteUnstake ->
  bond_invariant w ->
  exec c tx w = Ok w' ->
  bond_invariant w'.
Proof. intros Hc Hinv H. exact (exec_bond_invariant c tx w w' Hc H Hinv). Qed.

(** X10. [executeUnstake] keeps [reservedBond <= totalBond] when the
    caller's unreserved bond still covers the pending unstake at the time
    of the call. *)
Theorem executeUnstake_keeps_bond_invariant (tx : Tx) (w w' : World E) :
  bond_invariant w ->
  reservedBond (solvers (storage w) (msg_sender tx))
  + unstakeAmount (solvers (storage w) (msg_sender tx))
  <= totalBond (solvers (storage w) (msg_sender tx)) ->
  executeUnstake tx w = Ok w' ->
  bond_invariant w'.
Proof.
  intros Hinv Hcover H s. inv_entry H. subst. simpl_world.
  destruct (decide (msg_sender tx = s)) as [<-|Hne].
  - rewrite fn_lookup_insert. simpl_world. lia.
  - rewrite fn_lookup_insert_ne by exact Hne. apply Hinv.
Qed.

(** X11. The unstake delay: after a successful [requestUnstake(amount)]
    with a positive amount at time [t], [executeUnstake] by the same solver
    reverts with UnstakeNotReady at every time before
    [uint40(t) + 7 days], and the request has left the bond untouched. A
    second [requestUnstake] reverts with PendingUnstakeExists. *)
Theorem unstake_delay (amount : N) (tx tx' : Tx) (w w1 : World E) :
  0 < amount ->
  requestUnstake amount tx w = Ok w1 ->
  msg_sender tx' = msg_sender tx ->
  totalBond (solvers (storage w1) (msg_sender tx))
  = totalBond (solvers (storage w) (msg_sender tx))
  /\ reservedBond (solvers (storage w1) (msg_sender tx))
     = reservedBond (solvers (storage w) (msg_sender tx))
  /\ unstakeAmount (solvers (storage w1) (msg_sender tx)) = amount
  /\ amount <= totalBond (solvers (storage w) (msg_sender tx))
               - reservedBond (solvers (storage w) (msg_sender tx))
  /\ MIN_BOND <= totalBond (solvers (storage w) (msg_sender tx)) - amount
  /\ (block_timestamp tx' < uint40 (block_timestamp tx) + UNSTAKE_DELAY ->
      executeUnstake tx' w1 = Revert UnstakeNotReady)
  /\ (forall amount', requestUnstake amount' tx' w1
                      = Revert PendingUnstakeExists).
Proof.
  intros Hpos H Hsender. inv_entry H. subst. simpl_world.
  rewrite !fn_lookup_insert. simpl_world.
  apply N.ltb_ge in Hstep2, Hstep4.
  repeat split; try assumption; try lia.
  - intros Hearly. unfold executeUnstake. rewrite Hsender. simpl_world.
    rewrite fn_lookup_insert. simpl_world.
    destruct (N.eqb_spec amount 0) as [->|_]; [lia|].
    apply N.ltb_lt in Hearly. rewrite Hearly. reflexivity.
  - intros amount'. unfold requestUnstake. rewrite Hsender. simpl_world.
    rewrite fn_lookup_insert. simpl_world.
    apply negb_false_iff in Hstep. rewrite Hstep.
    apply N.ltb_lt in Hpos. rewrite Hpos. reflexivity.
Qed.

(** X12. [cancelUnstake] undoes [requestUnstake]: after a successful
    request with a positive amount the same solver's [cancelUnstake]
    succeeds, the solver's record is the one before the request with the
    unstake fields zeroed, every other record and the tokens are
    unchanged, and [executeUnstake] then reverts with NoPendingUnstake. *)
Theorem requestUnstake_cancelUnstake (amount : N) (tx tx' : Tx)
  (w w1 : World E) :
  0 < amount ->
  requestUnstake amount tx w = Ok w1 ->
  msg_sender tx' = msg_sender tx ->
  exists w2,
    cancelUnstake tx' w1 = Ok w2
    /\ solvers (storage w2) (msg_sender tx)
       = with_unstake 0 0 (solvers (storage w) (msg_sender tx))
    /\ (forall s, s <> msg_sender tx ->
          solvers (storage w2) s = solvers (storage w) s)
    /\ orders (storage w2) = orders (storage w)
    /\ nonceBitmap (storage w2) = nonceBitmap (storage w)
    /\ excessBalances (storage w2) = excessBalances (storage w)
    /\ erc20 w2 = erc20 w
    /\ (forall tx'', msg_sender tx'' = msg_sender tx ->
          executeUnstake tx'' w2 = Revert NoPendingUnstake).
Proof.
  intros Hpos H Hsender. inv_entry H. subst.
  unfold cancelUnstake. rewrite Hsender. simpl_world.
  rewrite fn_lookup_insert. simpl_world.
  destruct (N.eqb_spec amount 0) as [->|_]; [lia|].
  cbn [revertIf bind]. eexists. split; [reflexivity|]. simpl_world.
  rewrite fn_lookup_insert. repeat split.
  - intros s Hs. now rewrite !fn_lookup_insert_ne by congruence.
  - intros tx'' Hs. unfold executeUnstake. rewrite Hs. simpl_world.
    rewrite fn_lookup_insert. reflexivity.
Qed.

(** An address that is not registered has the empty solver record. *)
Lemma exec_unregistered_empty (c : Call) (tx : Tx) (w w' : World E) :
  exec c tx w = Ok w' ->
  orders_signed w ->
  (forall s, registered (solvers (storage w) s) = false ->
             solvers (storage w) s = noSolver) ->
  forall s, registered (solvers (storage w') s) = false ->
            solvers (storage w') s = noSolver.
Proof.
  intros H Hsigned Hempty s.
  destruct c; simpl in H; inv_entry H; subst; simpl_world;
    try apply Hempty;
    repeat match goal with
    | H : _validateQuote _ _ _ _ = Ok _ |- _ =>
        apply _validateQuote_validated in H;
        destruct H as (_ & _ & _ & _ & H)
    | H : _validateQuoteForRefund _ _ _ = Ok _ |- _ =>
        apply _validateQuoteCore_validated in H;
        destruct H as (_ & _ & _ & _ & H)
    | H : _validateQuoteMemory _ _ _ _ = Ok _ |- _ =>
        apply _validateQuoteMemory_validated in H;
        destruct H as (_ & _ & _ & _ & H)
    | H : negb (bool_decide (state (orders (storage w) ?oid) = DEPOSITED))
          = false |- _ =>
        apply negb_false_iff, bool_decide_eq_true in H;
        let Hs := fresh "Hs" in
        assert (state (orders (storage w) oid) <> NONE) as Hs
          by (rewrite H; discriminate);
        apply Hsigned in Hs; destruct Hs as [_ Hs]; clear H
    | H : negb (registered _) = false |- _ => apply negb_false_iff in H
    end;
    match goal with
    | |- context [ (<[?k := _]> _) s ] =>
        destruct (decide (k = s)) as [Heq|Hne];
        [ rewrite <- Heq in *; rewrite fn_lookup_insert
        | rewrite fn_lookup_insert_ne by exact Hne; apply Hempty ]
    end; simpl_world; intros Hunreg; try congruence;
    match goal with
    | H : (unstakeAmount (solvers (storage w) ?k) =? 0) = false |- _ =>
        rewrite (Hempty k Hunreg) in H; discriminate H
    end.
Qed.

Lemma reachable_signed_and_empty (w : World E) :
  reachable w ->
  orders_signed w
  /\ (forall s, registered (solvers (storage w) s) = false ->
                solvers (storage w) s = noSolver).
Proof.
  intros [L Hlater].
  remember (genesis L) as w0 eqn:Hw0.
  assert (orders_signed w0
          /\ (forall s, registered (solvers (storage w0) s) = false ->
                        solvers (storage w0) s = noSolver)) as Hinv.
  { subst w0. split; [apply genesis_orders_signed|]. reflexivity. }
  clear Hw0. induction Hlater as [w0 | w0 w1 w2 Hs _ IH]; [exact Hinv|].
  apply IH. destruct Hinv as [Hsigned Hempty].
  destruct Hs as [w0 tx c w1 H | w0 L'].
  - split.
    + exact (exec_orders_signed _ _ _ _ H Hsigned).
    + exact (exec_unregistered_empty _ _ _ _ H Hsigned Hempty).
  - split; assumption.
Qed.

(** X13. A solver's bond only shrinks by a slash or by its own unstake: if
    a successful call in a reachable state lowers [totalBond] of solver
    [s], the call is [executeUnstake] by [s], [refund] of an order of [s],
    or [refundAddressDeposit] on a quote of [s]. *)
Theorem totalBond_only_lowered_by (c : Call) (tx : Tx) (w w' : World E)
  (s : address) :
  reachable w ->
  exec c tx w = Ok w' ->
  totalBond (solvers (storage w') s) < totalBond (solvers (storage w) s) ->
  (c = ExecuteUnstake /\ msg_sender tx = s)
  \/ (exists oid, c = Refund oid /\ solver (orders (storage w) oid) = s)
  \/ (exists quote sig,
        c = RefundAddressDeposit quote sig /\ QuoteLib.solver quote = s).
Proof.
  intros Hreach H Hlow.
  destruct (reachable_signed_and_empty w Hreach) as [_ Hempty].
  destruct c; simpl in H; inv_entry H; subst; simpl_world;
    try lia;
    match goal with
    | H : context [ (<[?k := _]> _) s ] |- _ =>
        destruct (decide (k = s)) as [Heq|Hne];
        [ rewrite <- Heq in *; rewrite fn_lookup_insert in H
        | rewrite fn_lookup_insert_ne in H by exact Hne ]
    end; simpl_world; try lia; eauto 6.
  rewrite (Hempty _ Hstep) in Hlow. simpl in Hlow. lia.
Qed.

End BondExtras.


Section FillExtras.

Context {E : Env}.

(** X14. [fill(orderId)] reverts with OrderNotDeposited unless the order is
    DEPOSITED, then with NotSolver unless the caller is the order's solver,
    then with QuoteExpired when the time is past [fillDeadline] (a fill at
    the deadline itself is still accepted). When it succeeds the order
    becomes SETTLED and no other order changes, the solver's reservation of
    5% of [outputAmount] is released and its [totalBond] stays, the
    solver's [outputAmount] of the output token is pulled to the user, and
    the stored [inputAmount] of the input token is paid from the engine to
    the solver. *)
Theorem fill_spec (orderId : bytes32 E) (tx : Tx) (w : World E) :
  let order := orders (storage w) orderId in
  let info := solvers (storage w) (solver order) in
  let reservation := outputAmount order * 500 / 10000 in
  (state order <> DEPOSITED ->
   fill orderId tx w = Revert OrderNotDeposited)
  /\ (state order = DEPOSITED ->
      msg_sender tx <> solver order ->
      fill orderId tx w = Revert NotSolver)
  /\ (state order = DEPOSITED ->
      msg_sender tx = solver order ->
      fillDeadline order < block_timestamp tx ->
      fill orderId tx w = Revert QuoteExpired)
  /\ (forall w',
        fill orderId tx w = Ok w' ->
        state order = DEPOSITED
        /\ msg_sender tx = solver order
        /\ block_timestamp tx <= fillDeadline order
        /\ orders (storage w') orderId = with_state SETTLED order
        /\ (forall oid, oid <> orderId ->
              orders (storage w') oid = orders (storage w) oid)
        /\ reservation <= reservedBond info
        /\ solvers (storage w') (solver order)
           = with_reservedBond (reservedBond info - reservation) info
        /\ (forall s, s <> solver order ->
              solvers (storage w') s = solvers (storage w) s)
        /\ nonceBitmap (storage w') = nonceBitmap (storage w)
        /\ excessBalances (storage w') = excessBalances (storage w)
        /\ exists L1,
             erc20_transferFrom (outputToken order) (this E) (solver order)
               (user order) (outputAmount order) (erc20 w) = Ok L1
             /\ inputAmount order <= balanceOf L1 (inputToken order) (this E)
             /\ erc20 w'
                = transferred (inputToken order) (this E) (solver order)
                    (inputAmount order) L1).
Proof.
  intros order info reservation.
  split; [|split; [|split]].
  - intros Hne. unfold fill. fold order.
    rewrite bool_decide_eq_false_2 by exact Hne. reflexivity.
  - intros Heq Hsender. unfold fill. fold order.
    rewrite bool_decide_eq_true_2 by exact Heq. cbn [negb revertIf bind].
    destruct (N.eqb_spec (solver order) (msg_sender tx)); [congruence|].
    reflexivity.
  - intros Heq Hsender Hlate. unfold fill. fold order.
    rewrite bool_decide_eq_true_2 by exact Heq. cbn [negb revertIf bind].
    rewrite Hsender, N.eqb_refl. cbn [negb revertIf bind].
    apply N.ltb_lt in Hlate. rewrite Hlate. reflexivity.
  - intros w' H. inv_entry H. subst. simpl_world.
    apply negb_false_iff, bool_decide_eq_true in Hstep.
    apply negb_false_iff, N.eqb_eq in Hstep0.
    apply N.ltb_ge in Hstep1. inv_ledger.
    fold order in Hstep, Hstep0, Hstep1 |- *. fold info. 
    change BOND_RESERVATION_BPS with 500 in *. fold reservation in H |- *.
    rewrite <- Hstep0 in *.
    repeat split; try assumption; try congruence.
    + apply fn_lookup_insert.
    + intros oid Hoid. apply fn_lookup_insert_ne. congruence.
    + apply fn_lookup_insert.
    + intros s Hs. apply fn_lookup_insert_ne. congruence.
    + eexists. split; [eassumption|]. split; [assumption|reflexivity].
Qed.

(** X15. On one and the same state [fill] and [refund] of an order never
    both succeed at the same time of day: [fill] is accepted up to
    [fillDeadline], [refund] only after it. *)
Theorem fill_refund_exclusive (orderId : bytes32 E) (tx tx' : Tx)
  (w w1 w2 : World E) :
  fill orderId tx w = Ok w1 ->
  refund orderId tx' w = Ok w2 ->
  block_timestamp tx < block_timestamp tx'.
Proof.
  intros Hfill Hrefund.
  unfold fill in Hfill. unfold refund in Hrefund.
  apply bind_Ok_inv in Hfill as (? & _ & Hfill).
  apply bind_Ok_inv in Hfill as (? & _ & Hfill).
  apply bind_Ok_inv in Hfill as (? & Hearly & _).
  apply bind_Ok_inv in Hrefund as (? & _ & Hrefund).
  apply bind_Ok_inv in Hrefund as (? & Hlate & _).
  apply revertIf_Ok_inv, N.ltb_ge in Hearly.
  apply revertIf_Ok_inv, N.leb_gt in Hlate. lia.
Qed.



End FillExtras.

Section MoreExtras.

Context {E : Env}.


(** X18. An excess balance is only ever lowered by its owner's
    [withdrawExcess]: if a successful call lowers
    [excessBalances[u][t]], the call is [withdrawExcess(t)] made by [u]. *)
Theorem excess_only_lowered_by_owner (c : Call) (tx : Tx) (w w' : World E)
  (u t : address) :
  exec c tx w = Ok w' ->
  excessBalances (storage w') u t < excessBalances (storage w) u t ->
  c = WithdrawExcess t /\ msg_sender tx = u.
Proof.
  intros H Hlow.
  destruct c; simpl in H; inv_entry H; subst; simpl_world; try lia;
    match goal with
    | H : context [ (<[?k := _]> _) u ] |- _ =>
        destruct (decide (k = u)) as [Heq|Hne];
        [ rewrite <- Heq in *; rewrite fn_lookup_insert in H
        | rewrite fn_lookup_insert_ne in H by exact Hne; lia ]
    end;
    match goal with
    | H : context [ (<[?k := _]> _) t ] |- _ =>
        destruct (decide (k = t)) as [Heq'|Hne'];
        [ rewrite <- Heq' in *; rewrite fn_lookup_insert in H
        | rewrite fn_lookup_insert_ne in H by exact Hne'; lia ]
    end; try lia; auto.
Qed.

End MoreExtras.

Section RecoveryExtras.

Context {E : Env}.

Context (tokens : address -> option (AnyToken.TokenCode (E := E))).



End RecoveryExtras.

Section OpenFor.

Context {E : Env}.

Lemma _validateQuoteMemory_Ok_iff (quote : FirmSwapQuote) (sig : bytes)
  (tx : Tx) (w : World E) :
  QuoteLib.user quote <> 0 ->
  (_validateQuoteMemory quote sig tx w = Ok tt
   <-> _validateQuote quote sig tx w = Ok tt).
Proof.
  intros Huser. apply N.eqb_neq in Huser.
  unfold _validateQuote, _validateQuoteCore, _validateQuoteMemory.
  rewrite Huser. cbn [revertIf bind].
  destruct (_ || _); [split; discriminate|]. cbn [revertIf bind].
  destruct (_ <? MIN_ORDER); [split; discriminate|]. cbn [revertIf bind].
  destruct (_ <=? _); [split; discriminate|]. cbn [revertIf bind].
  destruct (negb (_ =? chainid E)); [split; discriminate|].
  cbn [revertIf bind].
  destruct (negb (registered _)); [split; discriminate|].
  cbn [revertIf bind].
  destruct (QuoteLib.depositDeadline quote <? block_timestamp tx);
    cbn [revertIf bind].
  - split; [discriminate|].
    destruct (negb _); [discriminate|]. cbn [revertIf bind].
    destruct (recover E quote sig) as [signer|]; [|discriminate].
    destruct (negb _); discriminate.
  - destruct (negb (_ =? 0)); [split; discriminate|]. cbn [revertIf bind].
    destruct (recover E quote sig) as [signer|]; [|split; discriminate].
    destruct (negb _); cbn [revertIf bind]; split; congruence.
Qed.

(** X19. For a quote whose user is not the zero address, [openFor] on the
    encoded quote does what [deposit] does: either both revert, or both
    succeed and leave the same state. *)
Theorem openFor_as_deposit (quote : FirmSwapQuote) (sig : bytes) (tx : Tx)
  (w w' : World E) :
  QuoteLib.user quote <> 0 ->
  (openFor quote sig tx w = Ok w' <-> deposit quote sig tx w = Ok w').
Proof.
  intros Huser.
  pose proof (_validateQuoteMemory_Ok_iff quote sig tx w Huser) as Hiff.
  unfold openFor, deposit, _depositInternal, _validateAndCreateOrder.
  destruct (_validateQuoteMemory quote sig tx w) as [[]|e1] eqn:Hm;
    destruct (_validateQuote quote sig tx w) as [[]|e2] eqn:Hv;
    cbn [bind].
  - destruct (revertIf _ OrderAlreadyExists) as [[]|?]; cbn [bind];
      [|reflexivity].
    destruct (_useNonce _ _ w) as [w1|?]; cbn [bind]; [|reflexivity].
    destruct (_reserveBond _ _ w1) as [w2|?]; cbn [bind]; reflexivity.
  - discriminate (proj1 Hiff eq_refl).
  - discriminate (proj2 Hiff eq_refl).
  - split; discriminate.
Qed.

End OpenFor.

Section Tolerance.

Context {E : Env}.

(** X20. [settleWithTolerance] reverts with InvalidQuote when the accepted
    amount is zero or above [quote.inputAmount]. When it succeeds the
    deposit address held at least the accepted amount; the order is stored
    as SETTLED with the quote's data; with [received] the growth of the
    engine's balance of the input token by the sweep, the engine pays
    [min(received, accepted)] of the input token to the solver and credits
    the rest of what it received to [excessBalances[user][inputToken]],
    no other excess balance changing; the caller's full [outputAmount] of
    the output token is pulled to the user. *)
Theorem settleWithTolerance_effects (quote : FirmSwapQuote) (sig : bytes)
  (accepted : N) (tx : Tx) (w : World E) :
  let oid := computeOrderId E quote sig in
  let depositAddr := computeDepositAddress E oid in
  let token := QuoteLib.inputToken quote in
  let user := QuoteLib.user quote in
  let b := balanceOf (erc20 w) token depositAddr in
  let L1 := transferred token depositAddr (this E) b (erc20 w) in
  let received :=
    balanceOf L1 token (this E) - balanceOf (erc20 w) token (this E) in
  let toSolver := N.min received accepted in
  (QuoteLib.inputAmount quote < accepted \/ accepted = 0 ->
   settleWithTolerance quote sig accepted tx w = Revert InvalidQuote)
  /\ (forall w',
        settleWithTolerance quote sig accepted tx w = Ok w' ->
        0 < accepted <= QuoteLib.inputAmount quote
        /\ accepted <= b
        /\ orders (storage w') oid = orderOf quote SETTLED
        /\ excessBalances (storage w') user token
           = excessBalances (storage w) user token + (received - toSolver)
        /\ (forall u t, (u, t) <> (user, token) ->
            excessBalances (storage w') u t = excessBalances (storage w) u t)
        /\ exists L2,
             erc20_transferFrom (QuoteLib.outputToken quote) (this E)
               (msg_sender tx) user (QuoteLib.outputAmount quote) L1 = Ok L2
             /\ toSolver <= balanceOf L2 token (this E)
             /\ erc20 w' = transferred token (this E) (QuoteLib.solver quote)
                             toSolver L2).
Proof.
  cbv zeta. split.
  - unfold settleWithTolerance. intros [Hhigh|Hzero].
    + apply N.ltb_lt in Hhigh. now rewrite Hhigh.
    + subst accepted. destruct (_ <? 0); reflexivity.
  - intros w' H. unfold settleWithTolerance in H.
    apply bind_Ok_inv in H as ([] & Hhigh & H).
    apply bind_Ok_inv in H as ([] & Hzero & H).
    apply bind_Ok_inv in H as ([] & _ & H).
    apply revertIf_Ok_inv, N.ltb_ge in Hhigh.
    apply revertIf_Ok_inv, N.eqb_neq in Hzero.
    inv_entry H; inv_ledger; subst; simpl_world.
    all: try (exfalso; apply N.ltb_ge in Hstep0;
              match goal with Hz : balanceOf (erc20 _) _ _ = 0 |- _ =>
                rewrite Hz in Hstep0 end; lia).
    all: rewrite ?min_if in *.
    all: apply N.ltb_ge in Hstep0.
    all: split; [lia|].
    all: split; [exact Hstep0|].
    all: split; [apply fn_lookup_insert|].
    + split; [rewrite !fn_lookup_insert; reflexivity|].
      split.
      * intros u t Hne.
        destruct (decide (QuoteLib.user quote = u)) as [<-|Hu].
        -- rewrite fn_lookup_insert. apply fn_lookup_insert_ne. congruence.
        -- rewrite fn_lookup_insert_ne by exact Hu. reflexivity.
      * eexists. split; [eassumption|]. split; [assumption|reflexivity].
    + apply N.ltb_ge in Heqb.
      split; [lia|].
      split; [reflexivity|].
      eexists. split; [eassumption|]. split; [assumption|reflexivity].
Qed.

End Tolerance.

Section Proxy.

Context {E : Env}.

(** X26. [sweep], called by the engine on a deployed proxy, always succeeds
    and moves the proxy's whole balance of the token: afterwards the proxy
    holds none of it, a recipient other than the proxy holds what the token
    credits for that amount on top of its balance, no balance of any other
    token changes, and the contract's storage is untouched. *)
Theorem sweep_empties_proxy (proxy token to : address) (w : World E) :
  deployed w proxy = true ->
  to <> proxy ->
  exists w',
    sweep proxy token to w = Ok w'
    /\ balanceOf (erc20 w') token proxy = 0
    /\ balanceOf (erc20 w') token to
       = balanceOf (erc20 w) token to
         + credited (erc20 w) token (balanceOf (erc20 w) token proxy)
    /\ (forall t holder, t <> token ->
          balanceOf (erc20 w') t holder = balanceOf (erc20 w) t holder)
    /\ storage w' = storage w
    /\ deployed w' = deployed w.
Proof.
  intros Hdeployed Hto. rewrite (sweep_Ok _ _ _ _ Hdeployed).
  eexists. split; [reflexivity|].
  destruct (N.ltb_spec 0 (balanceOf (erc20 w) token proxy)) as [Hpos|Hzero].
  - unfold transferred. simpl_world.
    repeat (rewrite fn_lookup_insert
            || rewrite fn_lookup_insert_ne by congruence).
    repeat split; try lia.
    intros t holder Ht. now rewrite fn_lookup_insert_ne by congruence.
  - assert (balanceOf (erc20 w) token proxy = 0) as Hz by lia.
    rewrite Hz. unfold credited. rewrite N.mul_0_l, N.Div0.div_0_l.
    repeat split; lia.
Qed.

End Proxy.

(** ** The properties on the scenarios of the test suite *)

(** The order settled in S4 is final: after the stray transfer to its
    deposit address its record is the same and nobody can fill or refund
    it. *)
Lemma settled_order_is_final_witness :
  let oid :=
    computeOrderId Scenario.env (Scenario.quote 3 (200 * 10 ^ 6))
      Scenario.solverSig in
  orders (storage Scenario.strayWorld) oid
  = orders (storage Scenario.settledWorld) oid
  /\ (forall tx, fill oid tx Scenario.strayWorld = Revert OrderNotDeposited)
  /\ (forall tx, refund oid tx Scenario.strayWorld = Revert OrderNotDeposited).
Proof.
  apply (settled_order_is_final Scenario.settledWorld Scenario.strayWorld).
  - apply rtc_once. exact (step_ledger _ _).
  - left. vm_compute. reflexivity.
Defined.

(** The order deposited in S1 keeps its data through the solver's fill. *)
Lemma deposited_order_data_fixed_witness :
  let oid :=
    computeOrderId Scenario.env (Scenario.quote 0 (200 * 10 ^ 6))
      Scenario.solverSig in
  exists s,
    s <> NONE
    /\ orders (storage Scenario.filledWorld) oid
       = with_state s (orders (storage Scenario.depositedWorld) oid).
Proof.
  apply (deposited_order_data_fixed Scenario.depositedWorld
           Scenario.filledWorld).
  - apply succeeds_later. vm_compute. reflexivity.
  - vm_compute. reflexivity.
Defined.

(** The order stored by the deposit of S1 comes from a signed quote of a
    registered solver. *)
Lemma stored_orders_are_signed_witness :
  let oid :=
    computeOrderId Scenario.env (Scenario.quote 0 (200 * 10 ^ 6))
      Scenario.solverSig in
  order_of_signed_quote oid (orders (storage Scenario.depositedWorld) oid)
  /\ registered
       (solvers (storage Scenario.depositedWorld)
          (solver (orders (storage Scenario.depositedWorld) oid)))
     = true.
Proof.
  intros oid.
  refine (stored_orders_are_signed Scenario.depositedWorld _ oid _).
  - exists Scenario.ledger. apply succeeds_later. vm_compute. reflexivity.
  - vm_compute. discriminate.
Defined.

(** The solver of the test suite is still registered after the fill, and
    cannot register again. *)
Lemma registered_forever_witness :
  registered (solvers (storage Scenario.filledWorld) Scenario.solver) = true
  /\ (forall bondAmount tx,
        msg_sender tx = Scenario.solver ->
        registerSolver bondAmount tx Scenario.filledWorld
        = Revert SolverAlreadyRegistered).
Proof.
  apply (registered_forever Scenario.depositedWorld Scenario.filledWorld).
  - apply succeeds_later. vm_compute. reflexivity.
  - vm_compute. reflexivity.
Defined.

(** After the deposit of S1 and its fill, settling any quote of the solver
    with nonce 0 reverts. *)
Lemma used_nonce_blocks_quote_witness :
  exists e,
    exec (Settle (Scenario.quote 0 (500 * 10 ^ 6)) Scenario.solverSig)
      (Scenario.at_ Scenario.solver 1200) Scenario.filledWorld
    = Revert e.
Proof.
  refine (used_nonce_blocks_quote Scenario.depositedWorld Scenario.filledWorld
            (Settle (Scenario.quote 0 (500 * 10 ^ 6)) Scenario.solverSig)
            (Scenario.quote 0 (500 * 10 ^ 6))
            (Scenario.at_ Scenario.solver 1200) _ _ _).
  - apply succeeds_later. vm_compute. reflexivity.
  - vm_compute. reflexivity.
  - reflexivity.
Defined.

(** The deposit of S1 finds nonce 0 unused and leaves it used. *)
Lemma consumed_quote_uses_nonce_witness :
  let q := Scenario.quote 0 (200 * 10 ^ 6) in
  let tx := Scenario.at_ Scenario.user 1000 in
  let c := Deposit q Scenario.solverSig in
  isNonceUsed (QuoteLib.solver q) (QuoteLib.nonce q) Scenario.registeredWorld
  = false
  /\ isNonceUsed (QuoteLib.solver q) (QuoteLib.nonce q)
       (outcome [(tx, c)] Scenario.registeredWorld)
     = true.
Proof.
  intros q tx c.
  refine (consumed_quote_uses_nonce c q tx Scenario.registeredWorld
            (outcome [(tx, c)] Scenario.registeredWorld) _ _).
  - reflexivity.
  - exact (exec_outcome tx c Scenario.registeredWorld
             ltac:(vm_compute; reflexivity)).
Defined.

(** On a fresh engine the solver's [cancelNonce(261)] marks nonce 261 and
    no other. *)
Lemma cancelNonce_marks_one_witness :
  let tx := Scenario.at_ Scenario.solver 1000 in
  let w := genesis (E := Scenario.env) Scenario.ledger in
  exists w',
    cancelNonce 261 tx w = Ok w'
    /\ (forall s m,
          m < 2 ^ 256 ->
          isNonceUsed s m w'
          = isNonceUsed s m w
            || (bool_decide (s = msg_sender tx) && (m =? 261)))
    /\ orders (storage w') = orders (storage w)
    /\ solvers (storage w') = solvers (storage w)
    /\ excessBalances (storage w') = excessBalances (storage w)
    /\ erc20 w' = erc20 w /\ deployed w' = deployed w.
Proof.
  intros tx w.
  refine (proj2 (cancelNonce_marks_one 261 tx w _) _).
  - vm_compute. reflexivity.
  - vm_compute. reflexivity.
Defined.

Lemma registeredWorld_exec :
  exec (RegisterSolver (10000 * 10 ^ 6))
    (Scenario.at_ Scenario.solver 1000)
    (genesis (E := Scenario.env) Scenario.ledger)
  = Ok Scenario.registeredWorld.
Proof.
  exact (exec_outcome (Scenario.at_ Scenario.solver 1000)
           (RegisterSolver (10000 * 10 ^ 6))
           (genesis (E := Scenario.env) Scenario.ledger)
           ltac:(vm_compute; reflexivity)).
Qed.

Lemma requestedWorld_exec :
  exec (RequestUnstake (1000 * 10 ^ 6))
    (Scenario.at_ Scenario.solver 1000) Scenario.registeredWorld
  = Ok Scenario.requestedWorld.
Proof.
  exact (exec_outcome (Scenario.at_ Scenario.solver 1000)
           (RequestUnstake (1000 * 10 ^ 6)) Scenario.registeredWorld
           ltac:(vm_compute; reflexivity)).
Qed.

Lemma registeredWorld_bond_invariant : bond_invariant Scenario.registeredWorld.
Proof.
  refine (exec_bond_invariant _ _ _ _ _ registeredWorld_exec
            (genesis_bond_invariant _)).
  discriminate.
Qed.

Lemma requestedWorld_bond_invariant : bond_invariant Scenario.requestedWorld.
Proof.
  refine (exec_bond_invariant _ _ _ _ _ requestedWorld_exec
            registeredWorld_bond_invariant).
  discriminate.
Qed.

(** The deposit of S1 keeps the invariant that [setUp()] established: the
    solver's reservation stays within its bond. *)
Lemma bond_invariant_kept_witness :
  let tx := Scenario.at_ Scenario.user 1000 in
  let c := Deposit (Scenario.quote 0 (200 * 10 ^ 6)) Scenario.solverSig in
  let w' := outcome [(tx, c)] Scenario.registeredWorld in
  (reservedBond (solvers (storage w') Scenario.solver)
   <=? totalBond (solvers (storage w') Scenario.solver)) = true.
Proof.
  intros tx c w'.
  refine (proj2 (N.leb_le _ _)
            (bond_invariant_kept c tx Scenario.registeredWorld w' _ _ _
               Scenario.solver)).
  - discriminate.
  - exact registeredWorld_bond_invariant.
  - exact (exec_outcome tx c Scenario.registeredWorld
             ltac:(vm_compute; reflexivity)).
Defined.

(** With nothing reserved, the unstake of 1000 USDC requested after
    [setUp()] is executed a week later and keeps the invariant. *)
Lemma executeUnstake_keeps_bond_invariant_witness :
  let tx := Scenario.at_ Scenario.solver (1000 + UNSTAKE_DELAY) in
  let w' := outcome [(tx, ExecuteUnstake)] Scenario.requestedWorld in
  (reservedBond (solvers (storage w') Scenario.solver)
   <=? totalBond (solvers (storage w') Scenario.solver)) = true.
Proof.
  intros tx w'.
  refine (proj2 (N.leb_le _ _)
            (executeUnstake_keeps_bond_invariant tx Scenario.requestedWorld
               w' _ _ _ Scenario.solver)).
  - exact requestedWorld_bond_invariant.
  - vm_compute. discriminate.
  - exact (exec_outcome tx ExecuteUnstake Scenario.requestedWorld
             ltac:(vm_compute; reflexivity)).
Defined.

(** A day after the request of the test suite the unstake is not ready. *)
Lemma unstake_delay_witness :
  let tx := Scenario.at_ Scenario.solver 1000 in
  let tx' := Scenario.at_ Scenario.solver (1000 + 86400) in
  executeUnstake tx' Scenario.requestedWorld = Revert UnstakeNotReady.
Proof.
  intros tx tx'.
  refine (proj1 (proj2 (proj2 (proj2 (proj2 (proj2
            (unstake_delay (1000 * 10 ^ 6) tx tx' Scenario.registeredWorld
               Scenario.requestedWorld _ _ _)))))) _).
  - vm_compute. reflexivity.
  - exact requestedWorld_exec.
  - reflexivity.
  - vm_compute. reflexivity.
Defined.

(** The request of the test suite is cancelled by the solver. *)
Lemma requestUnstake_cancelUnstake_witness :
  let tx := Scenario.at_ Scenario.solver 1000 in
  let tx' := Scenario.at_ Scenario.solver 1001 in
  exists w2,
    cancelUnstake tx' Scenario.requestedWorld = Ok w2
    /\ solvers (storage w2) (msg_sender tx)
       = with_unstake 0 0
           (solvers (storage Scenario.registeredWorld) (msg_sender tx))
    /\ (forall s, s <> msg_sender tx ->
          solvers (storage w2) s = solvers (storage Scenario.registeredWorld) s)
    /\ orders (storage w2) = orders (storage Scenario.registeredWorld)
    /\ nonceBitmap (storage w2) = nonceBitmap (storage Scenario.registeredWorld)
    /\ excessBalances (storage w2)
       = excessBalances (storage Scenario.registeredWorld)
    /\ erc20 w2 = erc20 Scenario.registeredWorld
    /\ (forall tx'', msg_sender tx'' = msg_sender tx ->
          executeUnstake tx'' w2 = Revert NoPendingUnstake).
Proof.
  intros tx tx'.
  refine (requestUnstake_cancelUnstake (1000 * 10 ^ 6) tx tx'
            Scenario.registeredWorld Scenario.requestedWorld _ _ _).
  - vm_compute. reflexivity.
  - exact requestedWorld_exec.
  - reflexivity.
Defined.

Lemma reservedWorld_reachable : reachable Scenario.reservedWorld.
Proof. exists Scenario.ledger. apply succeeds_later. vm_compute. reflexivity. Qed.

(** The refund of the address deposit in the drain trace lowers the
    solver's bond: it is a [refundAddressDeposit] on a quote of that
    solver. *)
Lemma totalBond_only_lowered_by_witness :
  let tx := Scenario.at_ Scenario.anyone 1421 in
  let c := RefundAddressDeposit (Scenario.quote 1 (10 ^ 6)) Scenario.solverSig in
  (c = ExecuteUnstake /\ msg_sender tx = Scenario.solver)
  \/ (exists oid,
        c = Refund oid
        /\ solver (orders (storage Scenario.reservedWorld) oid)
           = Scenario.solver)
  \/ (exists quote sig,
        c = RefundAddressDeposit quote sig
        /\ QuoteLib.solver quote = Scenario.solver).
Proof.
  intros tx c.
  refine (totalBond_only_lowered_by c tx Scenario.reservedWorld
            (outcome [(tx, c)] Scenario.reservedWorld) Scenario.solver
            _ _ _).
  - exact reservedWorld_reachable.
  - exact (exec_outcome tx c Scenario.reservedWorld
             ltac:(vm_compute; reflexivity)).
  - vm_compute. reflexivity.
Defined.

(** The deposit of S1 can be filled at time 1100 and, left alone, refunded
    at time 1421. *)
Lemma fill_refund_exclusive_witness :
  let oid :=
    computeOrderId Scenario.env (Scenario.quote 0 (200 * 10 ^ 6))
      Scenario.solverSig in
  let tx := Scenario.at_ Scenario.solver 1100 in
  let tx' := Scenario.at_ Scenario.anyone 1421 in
  block_timestamp tx < block_timestamp tx'.
Proof.
  intros oid tx tx'.
  refine (fill_refund_exclusive oid tx tx' Scenario.depositedWorld
            (outcome [(tx, Fill oid)] Scenario.depositedWorld)
            (outcome [(tx', Refund oid)] Scenario.depositedWorld) _ _).
  - exact (exec_outcome tx (Fill oid) Scenario.depositedWorld
             ltac:(vm_compute; reflexivity)).
  - exact (exec_outcome tx' (Refund oid) Scenario.depositedWorld
             ltac:(vm_compute; reflexivity)).
Defined.


(** S4: the user's excess of 200 tokens is lowered by the user's own
    [withdrawExcess]. *)
Lemma excess_only_lowered_by_owner_witness :
  let tx := Scenario.at_ Scenario.user 1001 in
  let c := WithdrawExcess (E := Scenario.env) Scenario.brla in
  c = WithdrawExcess Scenario.brla /\ msg_sender tx = Scenario.user.
Proof.
  intros tx c.
  refine (excess_only_lowered_by_owner c tx Scenario.settledWorld
            (outcome [(tx, c)] Scenario.settledWorld) Scenario.user
            Scenario.brla _ _).
  - exact (exec_outcome tx c Scenario.settledWorld
             ltac:(vm_compute; reflexivity)).
  - vm_compute. reflexivity.
Defined.

(** The deposit of S1, made through [openFor], leaves the same state. *)
Lemma openFor_as_deposit_witness :
  let q := Scenario.quote 0 (200 * 10 ^ 6) in
  let tx := Scenario.at_ Scenario.user 1000 in
  openFor q Scenario.solverSig tx Scenario.registeredWorld
  = Ok (outcome [(tx, Deposit q Scenario.solverSig)] Scenario.registeredWorld).
Proof.
  intros q tx.
  refine (proj2 (openFor_as_deposit q Scenario.solverSig tx
                   Scenario.registeredWorld
                   (outcome [(tx, Deposit q Scenario.solverSig)]
                      Scenario.registeredWorld) _) _).
  - vm_compute. discriminate.
  - exact (exec_outcome tx (Deposit q Scenario.solverSig)
             Scenario.registeredWorld ltac:(vm_compute; reflexivity)).
Defined.

(** The 200 tokens that strayed to the deposit address of S4 are swept to
    the user. *)
Lemma sweep_empties_proxy_witness :
  let proxy := Scenario.depositAddress 3 in
  exists w',
    sweep proxy Scenario.brla Scenario.user Scenario.strayWorld = Ok w'
    /\ balanceOf (erc20 w') Scenario.brla proxy = 0
    /\ balanceOf (erc20 w') Scenario.brla Scenario.user
       = balanceOf (erc20 Scenario.strayWorld) Scenario.brla Scenario.user
         + credited (erc20 Scenario.strayWorld) Scenario.brla
             (balanceOf (erc20 Scenario.strayWorld) Scenario.brla proxy)
    /\ (forall t holder, t <> Scenario.brla ->
          balanceOf (erc20 w') t holder
          = balanceOf (erc20 Scenario.strayWorld) t holder)
    /\ storage w' = storage Scenario.strayWorld
    /\ deployed w' = deployed Scenario.strayWorld.
Proof.
  intros proxy.
  refine (sweep_empties_proxy proxy Scenario.brla Scenario.user
            Scenario.strayWorld _ _).
  - vm_compute. reflexivity.
  - vm_compute. discriminate.
Defined.

Section Closing.

Context {E : Env}.

Context (tokens : address -> option (AnyToken.TokenCode (E := E))).


End Closing.


(** * Further properties of the aggregator *)

Section Collection.

Import Aggregator.

Local Open Scope Z_scope.

Context (toLowerCase : string -> string).
Context (maxQuoteFanOut : option Z).
Context (defaultDepositWindow defaultFillWindow : Z).
Context (now : Z).
Context (fetchSolverQuote :
           nat -> string -> SolverQuoteRequest ->
           Settled (option SolverQuoteResponse)).
Context (verifySignature : nat -> SerializedQuote -> string -> Settled bool).

Lemma discarded_false (request : QuoteRequest) (q : SerializedQuote) :
  discarded toLowerCase now request q = false ->
  toLowerCase (user q) = toLowerCase (userAddress request)
  /\ toLowerCase (inputToken q) = toLowerCase (req_inputToken request)
  /\ toLowerCase (outputToken q) = toLowerCase (req_outputToken request)
  /\ now < depositDeadline q
  /\ 0 < outputAmount q /\ 0 < inputAmount q.
Proof.
  unfold discarded. intros H.
  repeat (apply orb_false_iff in H as [H ?]).
  repeat match goal with
  | H : negb _ = false |- _ => apply negb_false_iff in H
  end.
  match goal with
  | H : _ && _ = true |- _ => apply andb_true_iff in H as [? ?]
  end.
  repeat match goal with
  | H : String.eqb _ _ = true |- _ => apply String.eqb_eq in H
  | H : (_ >? _) = true |- _ => apply Z.gtb_lt in H
  end.
  auto 10.
Qed.

Lemma collectQuotes_from (request : QuoteRequest)
  (responses : list (Settled (option SolverQuoteResponse)))
  (acc : list SolverQuoteResponse) (r : SolverQuoteResponse) :
  r ∈ fold_left
        (fun quotes result =>
           match result with
           | Fulfilled (Some value) =>
               if discarded toLowerCase now request (quote value) then quotes
               else quotes ++ [value]
           | _ => quotes
           end)
        responses acc ->
  r ∈ acc
  \/ (Fulfilled (Some r) ∈ responses
      /\ discarded toLowerCase now request (quote r) = false).
Proof.
  revert acc. induction responses as [|res responses IH]; intros acc H.
  - left. exact H.
  - cbn [fold_left] in H. apply IH in H as [H|[H ?]].
    + destruct res as [[value|]|]; [|left; exact H..].
      destruct (discarded toLowerCase now request (quote value)) eqn:Hd;
        [left; exact H|].
      apply elem_of_app in H as [H|H]; [left; exact H|].
      apply list_elem_of_singleton in H as ->.
      right. split; [left|exact Hd].
    + right. split; [right; exact H|assumption].
Qed.

Lemma verifyQuotes_from (quotes : list SolverQuoteResponse)
  (r : SolverQuoteResponse) :
  r ∈ verifyQuotes verifySignature quotes ->
  exists j, quotes !! j = Some r
            /\ verifySignature j (quote r) (signature r) = Fulfilled true.
Proof.
  unfold verifyQuotes.
  set (sigChecks := imap _ quotes).
  assert (forall pairs acc,
            r ∈ fold_left
                  (fun verified (qc : SolverQuoteResponse * Settled bool) =>
                     match snd qc with
                     | Fulfilled true => verified ++ [fst qc]
                     | _ => verified
                     end) pairs acc ->
            r ∈ acc \/ (r, Fulfilled true) ∈ pairs) as Hfold.
  { induction pairs as [|[q c] pairs IH]; intros acc H; [left; exact H|].
    cbn [fold_left snd fst] in H. apply IH in H as [H|H]; [|right; right; exact H].
    destruct c as [[|]|]; [|left; exact H..].
    apply elem_of_app in H as [H|H]; [left; exact H|].
    apply list_elem_of_singleton in H as ->. right. left. }
  intros H. apply Hfold in H as [H|H]; [inversion H|].
  apply list_elem_of_lookup in H as [j Hj].
  apply lookup_zip_with_Some in Hj as (q & c & Heq & Hq & Hc).
  injection Heq as <- <-. exists j. split; [exact Hq|].
  unfold sigChecks in Hc. rewrite list_lookup_imap, Hq in Hc.
  cbn in Hc. congruence.
Qed.

Lemma getQuote_Some_inv
  (computeDepositAddress : SerializedQuote -> string -> option string)
  (firmSwapConfigured : bool) (orderType : OrderType)
  (depositMode : DepositMode) (verified : list SolverQuoteResponse)
  (response : QuoteResponse) :
  getQuote computeDepositAddress firmSwapConfigured orderType depositMode
    verified = Some response ->
  exists best alternatives,
    rankQuotes verified orderType = best :: alternatives
    /\ res_quote response = quote best
    /\ res_solverSignature response = signature best
    /\ map alt_quote (alternativeQuotes response) = map quote alternatives.
Proof.
  unfold getQuote. destruct (bool_decide _); [discriminate|].
  destruct (rankQuotes verified orderType) as [|best alternatives];
    [discriminate|].
  intros [= <-]. exists best, alternatives.
  cbn [res_quote res_solverSignature alternativeQuotes].
  repeat split. now rewrite map_map.
Qed.

(** X22. Every quote [getQuote] answers with, the best one and each
    alternative, came from one of the solvers that were asked, which are
    the active solvers up to the fan-out cap; it passed the comparison with
    the request (same user, input token and output token up to letter case,
    deposit deadline after [now], positive amounts); and the check of its
    signature answered true. An answer is only given when the chain has a
    contract address. *)
Theorem getQuoteOf_answers_checked
  (computeDepositAddress : SerializedQuote -> string -> option string)
  (firmSwapConfigured : bool)
  (activeSolvers : list RegisteredSolver) (request : QuoteRequest)
  (response : QuoteResponse) :
  (length (capFanOut maxQuoteFanOut activeSolvers) < 64)%nat ->
  getQuoteOf toLowerCase maxQuoteFanOut defaultDepositWindow
    defaultFillWindow now fetchSolverQuote verifySignature
    computeDepositAddress firmSwapConfigured activeSolvers request
  = Some response ->
  firmSwapConfigured = true
  /\ forall q,
       q ∈ res_quote response :: map alt_quote (alternativeQuotes response) ->
       (toLowerCase (user q) = toLowerCase (userAddress request)
        /\ toLowerCase (inputToken q) = toLowerCase (req_inputToken request)
        /\ toLowerCase (outputToken q)
           = toLowerCase (req_outputToken request)
        /\ now < depositDeadline q
        /\ 0 < outputAmount q /\ 0 < inputAmount q)
       /\ exists i solver sig j,
            capFanOut maxQuoteFanOut activeSolvers !! i = Some solver
            /\ fetchSolverQuote i (endpointUrl solver)
                 (solverRequestOf defaultDepositWindow defaultFillWindow now
                    request)
               = Fulfilled (Some {| quote := q; signature := sig |})
            /\ verifySignature j q sig = Fulfilled true.
Proof.
  intros _ H. unfold getQuoteOf in H.
  destruct (bool_decide (length activeSolvers = 0%nat)); [discriminate|].
  destruct (bool_decide (length (collectQuotes _ _ _ _) = 0%nat));
    [discriminate|].
  destruct firmSwapConfigured; [|discriminate]. cbn [negb] in H.
  split; [reflexivity|].
  apply getQuote_Some_inv in H
    as (best & alternatives & Hrank & Hq & _ & Halt).
  intros q Hin. rewrite Hq, Halt in Hin.
  change (q ∈ map quote (best :: alternatives)) in Hin.
  apply list_elem_of_fmap in Hin as (r & -> & Hr).
  rewrite <- Hrank in Hr. unfold rankQuotes in Hr.
  rewrite sort_Permutation in Hr.
  apply verifyQuotes_from in Hr as (j & Hj & Hsig).
  apply list_elem_of_lookup_2 in Hj.
  apply collectQuotes_from in Hj as [Hj|[Hres Hkept]]; [inversion Hj|].
  split; [exact (discarded_false _ _ Hkept)|].
  apply list_elem_of_lookup in Hres as [i Hi].
  rewrite list_lookup_imap in Hi.
  destruct (capFanOut maxQuoteFanOut activeSolvers !! i) as [solver|] eqn:Hs;
    [|discriminate].
  cbn in Hi. injection Hi as Hi.
  exists i, solver, (signature r), j.
  split; [exact Hs|]. split; [|exact Hsig].
  rewrite Hi. destruct r; reflexivity.
Qed.

(** X25. The fan-out cap: the solvers asked are a prefix of the active
    solvers, so in registry order, and when [maxQuoteFanOut] is a number
    [m >= 0] they are at most [m]. *)
Theorem capFanOut_bounds (solvers : list RegisteredSolver) :
  capFanOut maxQuoteFanOut solvers `prefix_of` solvers
  /\ (forall m, maxQuoteFanOut = Some m -> 0 <= m ->
        Z.of_nat (length (capFanOut maxQuoteFanOut solvers)) <= m).
Proof.
  unfold capFanOut, slice0. split.
  - destruct maxQuoteFanOut as [m|]; [|reflexivity].
    destruct (Z.of_nat (length solvers) >? m); [|reflexivity].
    destruct (m <? 0); apply prefix_take.
  - intros m -> Hm.
    destruct (Z.gtb_spec (Z.of_nat (length solvers)) m) as [Hgt|Hle];
      [|lia].
    destruct (Z.ltb_spec m 0); [lia|]. rewrite length_take. lia.
Qed.

End Collection.

Section Ranked.

Import Aggregator.

Local Open Scope Z_scope.

(** X21. The quotes of an answer are in rank order: for EXACT_INPUT no
    quote offers more output than one before it, for EXACT_OUTPUT no quote
    asks less input than one before it, the best quote first and the
    alternatives after it; and every verified response is in the answer,
    one of them as the best quote and the others as alternatives. *)
Theorem getQuote_ranked
  (computeDepositAddress : SerializedQuote -> string -> option string)
  (firmSwapConfigured : bool) (orderType : OrderType)
  (depositMode : DepositMode) (verified : list SolverQuoteResponse)
  (response : QuoteResponse) :
  (length verified < 64)%nat ->
  getQuote computeDepositAddress firmSwapConfigured orderType depositMode
    verified = Some response ->
  StronglySorted
    (fun a b =>
       match orderType with
       | EXACT_INPUT => outputAmount b <= outputAmount a
       | EXACT_OUTPUT => inputAmount a <= inputAmount b
       end)
    (res_quote response :: map alt_quote (alternativeQuotes response))
  /\ res_quote response :: map alt_quote (alternativeQuotes response)
     ≡ₚ map quote verified.
Proof.
  intros _ H.
  apply getQuote_Some_inv in H
    as (best & alternatives & Hrank & Hq & _ & Halt).
  rewrite Hq, Halt.
  change (quote best :: map quote alternatives)
    with (quote <$> (best :: alternatives)).
  rewrite <- Hrank. unfold rankQuotes. split.
  - apply (StronglySorted_fmap quote (cheaper (rank orderType))).
    + unfold cheaper, rank. intros x y Hxy. destruct orderType; lia.
    + apply sort_sorted, compareQuotes_rank.
  - change (map quote verified) with (quote <$> verified).
    now rewrite sort_Permutation.
Qed.

End Ranked.

(** The round of the test suite: both solvers answer, both answers match the
    request and are verified; the cheaper quote is the best one and the
    dearer one the alternative. *)
Lemma getQuoteOf_answers_checked_witness :
  let response :=
    {| Aggregator.res_quote := Aggregator.quote Aggregator.cheap;
       Aggregator.res_solverSignature := Aggregator.signature Aggregator.cheap;
       Aggregator.res_depositAddress := None;
       Aggregator.alternativeQuotes :=
         [ {| Aggregator.alt_quote := Aggregator.quote Aggregator.expensive;
              Aggregator.alt_solverSignature := EmptyString;
              Aggregator.alt_depositAddress := None |} ] |} in
  true = true
  /\ forall q,
       q ∈ Aggregator.res_quote response
           :: map Aggregator.alt_quote (Aggregator.alternativeQuotes response) ->
       (Aggregator.user q = Aggregator.userAddress Aggregator.request
        /\ Aggregator.inputToken q
           = Aggregator.req_inputToken Aggregator.request
        /\ Aggregator.outputToken q
           = Aggregator.req_outputToken Aggregator.request
        /\ (1000 < Aggregator.depositDeadline q)%Z
        /\ (0 < Aggregator.outputAmount q)%Z
        /\ (0 < Aggregator.inputAmount q)%Z)
       /\ exists i solver sig j,
            Aggregator.capFanOut (Some 10%Z)
              [Aggregator.solverA; Aggregator.solverB] !! i = Some solver
            /\ Aggregator.fetched i (Aggregator.endpointUrl solver)
                 (Aggregator.solverRequestOf 300 120 1000 Aggregator.request)
               = Aggregator.Fulfilled
                   (Some {| Aggregator.quote := q;
                            Aggregator.signature := sig |})
            /\ Aggregator.accepted j q sig = Aggregator.Fulfilled true.
Proof.
  intros response.
  refine (getQuoteOf_answers_checked (fun s => s) (Some 10%Z) 300%Z 120%Z
            1000%Z Aggregator.fetched Aggregator.accepted
            Aggregator.noDepositAddress true
            [Aggregator.solverA; Aggregator.solverB] Aggregator.request
            response _ _).
  - vm_compute. lia.
  - vm_compute. reflexivity.
Defined.

(** The same two quotes, ranked for EXACT_OUTPUT: 1100 BRLA before 1200. *)
Lemma getQuote_ranked_witness :
  let verified := [Aggregator.expensive; Aggregator.cheap] in
  let response :=
    {| Aggregator.res_quote := Aggregator.quote Aggregator.cheap;
       Aggregator.res_solverSignature := Aggregator.signature Aggregator.cheap;
       Aggregator.res_depositAddress := None;
       Aggregator.alternativeQuotes :=
         [ {| Aggregator.alt_quote := Aggregator.quote Aggregator.expensive;
              Aggregator.alt_solverSignature := EmptyString;
              Aggregator.alt_depositAddress := None |} ] |} in
  StronglySorted
    (fun a b =>
       match Aggregator.EXACT_OUTPUT with
       | Aggregator.EXACT_INPUT =>
           (Aggregator.outputAmount b <= Aggregator.outputAmount a)%Z
       | Aggregator.EXACT_OUTPUT =>
           (Aggregator.inputAmount a <= Aggregator.inputAmount b)%Z
       end)
    (Aggregator.res_quote response
     :: map Aggregator.alt_quote (Aggregator.alternativeQuotes response))
  /\ Aggregator.res_quote response
     :: map Aggregator.alt_quote (Aggregator.alternativeQuotes response)
     ≡ₚ map Aggregator.quote verified.
Proof.
  intros verified response.
  refine (getQuote_ranked Aggregator.noDepositAddress true
            Aggregator.EXACT_OUTPUT Aggregator.CONTRACT verified response
            _ _).
  - vm_compute. lia.
  - vm_compute. reflexivity.
Defined.

Section Answering.

Import Aggregator.

Local Open Scope Z_scope.

Context (toLowerCase : string -> string).
Context (maxQuoteFanOut : option Z).
Context (defaultDepositWindow defaultFillWindow : Z).
Context (now : Z).
Context (fetchSolverQuote :
           nat -> string -> SolverQuoteRequest ->
           Settled (option SolverQuoteResponse)).
Context (verifySignature : nat -> SerializedQuote -> string -> Settled bool).




End Answering.


(** * The solver's nonce manager *)

Section NonceManagerFacts.

Import NonceManager.

Local Open Scope Z_scope.

Lemma firstUnusedFrom_spec (readContract : Z -> option bool) (budget : nat)
  (i : Z) :
  i + Z.of_nat budget = 1000 ->
  let n := firstUnusedFrom readContract budget i in
  i <= n <= 1000
  /\ (forall k, i <= k < n -> readContract k = Some true)
  /\ (n < 1000 -> readContract n <> Some true).
Proof.
  revert i. induction budget as [|budget IH]; intros i Hi; cbn [firstUnusedFrom].
  - cbv zeta. split; [lia|]. split; [intros; lia|lia].
  - cbv zeta. unfold isNonceUsed.
    destruct (readContract i) as [[|]|] eqn:Hread; cbn [negb].
    + destruct (IH (i + 1) ltac:(lia)) as (Hb & Hused & Hfree).
      split; [lia|]. split; [|exact Hfree].
      intros k Hk. destruct (decide (k = i)) as [->|Hne]; [exact Hread|].
      apply Hused. lia.
    + split; [lia|]. split; [intros; lia|]. intros _. congruence.
    + split; [lia|]. split; [intros; lia|]. intros _. congruence.
Qed.

(** X23. [initialize] sets [nextNonce] to the least nonce below 1000 whose
    read of the contract does not answer "used" (a read that fails counts
    as unused), and to 1000 when all thousand are used: every smaller nonce
    was read as used. *)
Theorem initialize_first_unused (readContract : Z -> option bool)
  (s : State) :
  let n := nextNonce (initialize readContract s) in
  0 <= n <= 1000
  /\ (forall k, 0 <= k < n -> readContract k = Some true)
  /\ (n < 1000 -> readContract n <> Some true).
Proof. exact (firstUnusedFrom_spec readContract 1000 0 eq_refl). Qed.

Lemma getNextNonces_spec (count : nat) (s : State) :
  fst (getNextNonces count s)
  = map (fun k => nextNonce s + Z.of_nat k) (seq 0 count)
  /\ nextNonce (snd (getNextNonces count s)) = nextNonce s + Z.of_nat count.
Proof.
  revert s. induction count as [|count IH]; intros s.
  - cbn. split; [reflexivity|lia].
  - cbn [getNextNonces getNextNonce].
    destruct (getNextNonces count {| nextNonce := nextNonce s + 1 |})
      as [nonces s2] eqn:Hrec.
    destruct (IH {| nextNonce := nextNonce s + 1 |}) as [Hn Hs].
    rewrite Hrec in Hn, Hs. cbn [fst snd nextNonce] in *.
    split; [|lia]. cbn [seq map]. rewrite Z.add_0_r. f_equal.
    rewrite Hn, <- seq_shift, map_map. apply map_ext. intros k. lia.
Qed.

(** X24. [getNextNonce] never hands out a nonce twice: the nonces of any
    number of calls in a row are the consecutive numbers from [nextNonce]
    on, all different, and [peekNextNonce] then answers the number after
    the last one. *)
Theorem getNextNonce_fresh (count : nat) (s : State) :
  NoDup (fst (getNextNonces count s))
  /\ (forall nonce, nonce ∈ fst (getNextNonces count s) ->
        nextNonce s <= nonce < nextNonce s + Z.of_nat count)
  /\ peekNextNonce (snd (getNextNonces count s))
     = nextNonce s + Z.of_nat count.
Proof.
  destruct (getNextNonces_spec count s) as [Hn Hs].
  rewrite Hn. split; [|split; [|exact Hs]].
  - apply NoDup_fmap_2; [intros x y; lia|]. apply NoDup_seq.
  - intros nonce Hin. apply list_elem_of_fmap in Hin as (k & -> & Hk).
    apply elem_of_seq in Hk. lia.
Qed.

End NonceManagerFacts.
